(** * Mogi: the process execution engine of [mogi.ts]

    A shallow embedding of the simulation engine: agents, nodes, linear and
    conditional processes and the orchestrating [MogiSimulation], followed
    by the properties of the engine that its specification states.

    Modelling conventions.
    - JavaScript objects that are shared and mutated (processes, agents,
      capability instances) live in a store and are named by references;
      methods are state transformers over that store.
    - A thrown exception (a rejected promise) is the [Throw] result; the
      store keeps every mutation made before the throw.
    - [await] points and [setTimeout] pauses carry no state of the engine
      and are not represented; [Promise.all] over the agents of a step is
      run in the order of the agent list.  The [timestamp] field of a
      history entry, a wall-clock reading, is left out.
    - The reasoning capability ([AIService]) and the JavaScript built-ins
      [JSON.parse] / [JSON.stringify] are an interface ([Host]) that the
      development is parametric in.
    - Numbers that count (cursors, calls, tokens) are integers, which a
      JavaScript number holds exactly below 2^53.  The estimated cost and
      the prices are binary64 floating-point values, with the rounding
      arithmetic of the code.
    - The predicate of a conditional process is a function of the agent
      that returns; a closure that throws or writes is not represented. *)

From Stdlib Require Import PrimFloat.
From Stdlib Require Uint63.
From Stdlib Require Import ZArith QArith.
From stdpp Require Import gmap strings list fin_maps pretty.

Local Open Scope string_scope.
Local Open Scope list_scope.
Local Open Scope nat_scope.

(** ** JavaScript values and exceptions *)

(** The values an attribute ([any]) can hold.  Objects nested inside a
    value are kept as key/value lists; the top-level attribute record of an
    agent is a finite map. *)
#[warnings="-register-all"]
Inductive JSValue : Type :=
  | VUndefined
  | VNull
  | VBool (b : bool)
  | VNum (n : Z)
  | VStr (s : string)
  | VArr (l : list JSValue)
  | VObj (kv : list (string * JSValue)).

(** [Record<string, any>] *)
Abbreviation JSRecord := (gmap string JSValue).

Inductive Exn : Type :=
  | TypeError                  (* member access on [undefined] *)
  | RangeError                 (* call stack exhausted *)
  | SyntaxError                (* [JSON.parse] *)
  | Error (msg : string)       (* [new Error(msg)] *)
  | Rejected (reason : string). (* a capability call that fails *)

Inductive Result (A : Type) : Type :=
  | Ok (a : A)
  | Throw (e : Exn).
Arguments Ok {A} a.
Arguments Throw {A} e.

(** State-and-exception monad: [S] is the mutable state the code runs on. *)
Definition M (S A : Type) : Type := S -> Result A * S.

Definition ret {S A} (a : A) : M S A := fun s => (Ok a, s).
Definition throw {S A} (e : Exn) : M S A := fun s => (Throw e, s).
Definition bind {S A B} (m : M S A) (k : A -> M S B) : M S B :=
  fun s => match m s with
           | (Ok a, s') => k a s'
           | (Throw e, s') => (Throw e, s')
           end.
Definition get {S} : M S S := fun s => (Ok s, s).
Definition put {S} (s : S) : M S unit := fun _ => (Ok tt, s).
Definition modify {S} (f : S -> S) : M S unit := fun s => (Ok tt, f s).

Notation "'let*' x ':=' m 'in' k" := (bind m (fun x => k))
  (at level 10, x pattern, m at level 100, k at level 200).
Notation "m1 ';;' m2" := (bind m1 (fun _ => m2))
  (at level 100, m2 at level 200, right associativity).

(** [for (const x of l) body(x)], threading an accumulator. *)
Fixpoint forM {S A B} (l : list A) (acc : B) (body : A -> B -> M S B) : M S B :=
  match l with
  | [] => ret acc
  | x :: l' => let* acc' := body x acc in forM l' acc' body
  end.

(** [l.map(f)] for a callback that may throw. *)
Fixpoint mapM {S A B} (f : A -> M S B) (l : list A) : M S (list B) :=
  match l with
  | [] => ret []
  | x :: l' => let* y := f x in let* ys := mapM f l' in ret (y :: ys)
  end.

(** ** Data model ([mogi.ts], lines 5-49, and [ai-interface]) *)

Definition MogiAgentID := string.
Definition MogiProcessID := string.
Definition MogiNodeID := string.

(** References to the three kinds of shared objects. *)
Definition ServiceRef := nat.
Definition ProcRef := nat.
Definition AgentRef := nat.

(** A [Schema] of the generative-AI library is a plain object. *)
Definition Schema := JSValue.

Record MogiAgentHistory := {
  processId : option MogiProcessID;
  nodeId : option MogiNodeID;
  changes : JSRecord;
  reasoning : JSValue
}.

Record MogiAgentState := {
  agent_id : MogiAgentID;
  attributes : JSRecord;
  history : list MogiAgentHistory
}.

Record MogiSimulationConfig := {
  sim_id : string;
  description : string;
  delayMs : Z;
  maxConcurrency : Z;
  printLogs : bool
}.

Record MogiSimulationState := {
  currentProcessId : option MogiProcessID;
  activeAgents : list MogiAgentID;
  nodeIndex : nat;
  isComplete : bool
}.

Record MogiProcessConfig := {
  retries : Z;
  timeoutMs : Z
}.

Record MogiNodeConfig := {
  aiService : ServiceRef;
  instructions : string;
  appendMessage : option string;
  schema : option Schema;
  useChainOfThought : bool
}.

(** [AIPromptResponse = string | string[]] *)
Inductive AIPromptResponse : Type :=
  | RString (s : string)
  | RArray (l : list string).

(** The three counters are integers (below 2^53, where a JavaScript number
    holds them exactly).  The estimated cost is a JavaScript number that is
    no integer: a binary64 floating-point value, added with the rounding
    [+] of the code. *)
Record AIUsageStats := {
  totalCalls : Z;
  totalInputTokens : Z;
  totalOutputTokens : Z;
  estimatedCost : float
}.

Definition zeroUsage : AIUsageStats :=
  {| totalCalls := 0; totalInputTokens := 0; totalOutputTokens := 0;
     estimatedCost := 0%float |}.

Record MogiNode := {
  node_id : MogiNodeID;
  node_config : MogiNodeConfig
}.

Record BranchState := {
  branch : ProcRef;
  completed : bool
}.

(** The fields [MogiConditionalProcess] adds to [MogiProcess].  The
    predicate is a closure of the program; here it is a function of the
    agent that returns: it does not throw and changes nothing. *)
Record Conditional := {
  condition : MogiAgentState -> bool;
  trueBranch : ProcRef;
  falseBranch : ProcRef;
  branchStates : gmap MogiAgentID BranchState
}.

(** A process object; [conditional] is [Some _] exactly for an instance of
    [MogiConditionalProcess]. *)
Record MogiProcess := {
  proc_id : MogiProcessID;
  proc_config : MogiProcessConfig;
  nodes : list MogiNode;
  currentNodeIndex : nat;
  conditional : option Conditional
}.

Definition set_index (i : nat) (p : MogiProcess) : MogiProcess :=
  {| proc_id := proc_id p; proc_config := proc_config p; nodes := nodes p;
     currentNodeIndex := i; conditional := conditional p |}.

Definition set_nodes (ns : list MogiNode) (p : MogiProcess) : MogiProcess :=
  {| proc_id := proc_id p; proc_config := proc_config p; nodes := ns;
     currentNodeIndex := currentNodeIndex p; conditional := conditional p |}.

Definition set_conditional (c : option Conditional) (p : MogiProcess) : MogiProcess :=
  {| proc_id := proc_id p; proc_config := proc_config p; nodes := nodes p;
     currentNodeIndex := currentNodeIndex p; conditional := c |}.

Definition set_branchStates (m : gmap MogiAgentID BranchState) (c : Conditional)
  : Conditional :=
  {| condition := condition c; trueBranch := trueBranch c;
     falseBranch := falseBranch c; branchStates := m |}.

Definition set_branches (t f : ProcRef) (c : Conditional) : Conditional :=
  {| condition := condition c; trueBranch := t; falseBranch := f;
     branchStates := branchStates c |}.

(** ** The store and the host interface *)

(** The capability side of the world: the [usageStats] field of every
    capability instance, and whatever else the capabilities and the
    network hold ([ext]). *)
Record AIWorld (Env : Type) := {
  usage : ServiceRef -> AIUsageStats;
  ext : Env
}.
Arguments usage {Env} _ _.
Arguments ext {Env} _.

(** What the engine consumes and does not implement: the abstract methods
    of [AIService] (an instance is named by its reference; a call may
    throw and may change the capability side of the world in any way),
    the JSON built-ins, and the depth of the call stack. *)
Class Host := {
  Env : Type;
  createSchema : ServiceRef -> JSRecord -> M (AIWorld Env) Schema;
  prompt : ServiceRef -> string -> string -> string -> Schema ->
           M (AIWorld Env) AIPromptResponse;
  promptThinking : ServiceRef -> string -> string -> string -> Schema ->
           M (AIWorld Env) AIPromptResponse;
  JSON_parse : string -> Result JSValue;
  JSON_stringify : JSRecord -> string;
  stack_limit : nat
}.

Section Engine.
Context `{host : Host}.

(** [evals] is a ghost trace: one entry per evaluation of a branch
    predicate, recording the conditional process and the agent id. *)
Record Store := {
  procs : gmap ProcRef MogiProcess;
  agts : gmap AgentRef MogiAgentState;
  ai : AIWorld Env;
  evals : list (ProcRef * MogiAgentID)
}.

Definition set_procs (f : gmap ProcRef MogiProcess -> gmap ProcRef MogiProcess)
  (st : Store) : Store :=
  {| procs := f (procs st); agts := agts st; ai := ai st; evals := evals st |}.

Definition set_agts (f : gmap AgentRef MogiAgentState -> gmap AgentRef MogiAgentState)
  (st : Store) : Store :=
  {| procs := procs st; agts := f (agts st); ai := ai st; evals := evals st |}.

Definition set_ai (w : AIWorld Env) (st : Store) : Store :=
  {| procs := procs st; agts := agts st; ai := w; evals := evals st |}.

Definition log_eval (c : ProcRef) (a : MogiAgentID) (st : Store) : Store :=
  {| procs := procs st; agts := agts st; ai := ai st;
     evals := evals st ++ [(c, a)] |}.

(** Run a capability call on the capability side of the store. *)
Definition liftAI {A} (m : M (AIWorld Env) A) : M Store A :=
  fun st => let '(r, w) := m (ai st) in (r, set_ai w st).

(** Dereference an object; a reference that names nothing behaves like
    [undefined]. *)
Definition getProc (r : ProcRef) : M Store MogiProcess :=
  fun st => match procs st !! r with
            | Some p => (Ok p, st)
            | None => (Throw TypeError, st)
            end.

Definition getAgent (a : AgentRef) : M Store MogiAgentState :=
  fun st => match agts st !! a with
            | Some x => (Ok x, st)
            | None => (Throw TypeError, st)
            end.

Definition putProc (r : ProcRef) (p : MogiProcess) : M Store unit :=
  modify (set_procs (insert r p)).

Definition putAgent (a : AgentRef) (x : MogiAgentState) : M Store unit :=
  modify (set_agts (insert a x)).

(** ** Utility functions ([mogi.ts], lines 320-355) *)

(** The own enumerable properties that [{...v}] copies. *)
Definition spread (v : JSValue) : JSRecord :=
  match v with
  | VObj kv => list_to_map (reverse kv)
  | VArr l => list_to_map (imap (fun i x => (pretty i, x)) l)
  | VStr s =>
      list_to_map
        (imap (fun i c => (pretty i, VStr (String c ""))) (String.list_ascii_of_string s))
  | _ => ∅
  end.

Definition response_value (r : AIPromptResponse) : JSValue :=
  match r with
  | RString s => VStr s
  | RArray l => VArr (VStr <$> l)
  end.

(** [const [jsonStr, reasoning] = Array.isArray(response) ? response : [response]] *)
Definition destructure (r : AIPromptResponse) : option string * option string :=
  match r with
  | RString s => (Some s, None)
  | RArray l => (l !! 0, l !! 1)
  end.

Definition opt_value (o : option string) : JSValue :=
  match o with
  | Some s => VStr s
  | None => VUndefined
  end.

Definition parseAIReponse (response : AIPromptResponse) : JSRecord :=
  let '(jsonStr, reasoning) := destructure response in
  match JSON_parse (default "undefined" jsonStr) with
  | Ok result => <["_reasoning" := opt_value reasoning]> (spread result)
  | Throw _ =>
      <["_error" := VStr "Invalid AI response"]>
        (<["_raw" := response_value response]> ∅)
  end.

Definition encapsulateSchema (schemas : list (string * Schema)) : Schema :=
  VObj [("type", VStr "OBJECT"); ("properties", VObj schemas)].

(** ** [MogiNode] ([mogi.ts], lines 273-318) *)

Definition defaultAppend : string :=
  "Process the JSON object and make changes based on your instructions.".

(** The right-hand side of [const response = ...] in [handler]: the
    request to the capability, with or without chain of thought. *)
Definition promptResponse (n : MogiNode) (a : AgentRef) : M Store AIPromptResponse :=
  let cfg := node_config n in
  let* agent := getAgent a in
  let content := JSON_stringify (attributes agent) in
  let msg := default defaultAppend (appendMessage cfg) in
  let* sch :=
    match schema cfg with
    | Some s => ret s
    | None => liftAI (createSchema (aiService cfg) (attributes agent))
    end in
  if useChainOfThought cfg
  then liftAI (promptThinking (aiService cfg) (instructions cfg) content msg sch)
  else liftAI (prompt (aiService cfg) (instructions cfg) content msg sch).

Definition handler (n : MogiNode) (a : AgentRef) : M Store JSRecord :=
  let* response := promptResponse n a in
  ret (parseAIReponse response).

(** The agent after [applyChanges]: the change set merged over the
    attributes, and one more history entry. *)
Definition applied (n : MogiNode) (chg : JSRecord) (agent : MogiAgentState)
  : MogiAgentState :=
  {| agent_id := agent_id agent;
     attributes := chg ∪ attributes agent;
     history := history agent ++
       [{| processId := None; nodeId := Some (node_id n); changes := chg;
           reasoning := default VUndefined (chg !! "_reasoning") |}] |}.

Definition applyChanges (n : MogiNode) (a : AgentRef) (chg : JSRecord)
  : M Store unit :=
  let* agent := getAgent a in
  putAgent a (applied n chg agent).

(** [try { ... } catch (error) { console.error(...) }] *)
Definition try_catch {S A} (m : M S A) (h : Exn -> M S A) : M S A :=
  fun s => match m s with
           | (Ok a, s') => (Ok a, s')
           | (Throw e, s') => h e s'
           end.

Definition MogiNode_execute (n : MogiNode) (a : AgentRef) : M Store unit :=
  try_catch
    (let* chg := handler n a in applyChanges n a chg)
    (fun _ => ret tt).

Definition getAIService (n : MogiNode) : ServiceRef := aiService (node_config n).

(** ** [MogiProcess] ([mogi.ts], lines 222-271) *)

Definition defaultProcessConfig : MogiProcessConfig :=
  {| retries := 3; timeoutMs := 10000 |}.

Definition allocProc (p : MogiProcess) : M Store ProcRef :=
  fun st => let r := fresh (dom (procs st)) in
            (Ok r, set_procs (insert r p) st).

Definition new_MogiProcess (id : MogiProcessID) (cfg : MogiProcessConfig)
  : M Store ProcRef :=
  allocProc {| proc_id := id; proc_config := cfg; nodes := [];
               currentNodeIndex := 0; conditional := None |}.

Definition addNode (r : ProcRef) (n : MogiNode) : M Store unit :=
  let* this := getProc r in
  putProc r (set_nodes (nodes this ++ [n]) this).

Definition runAgentThroughNodes (r : ProcRef) (a : AgentRef) : M Store unit :=
  let* this := getProc r in
  forM (nodes this) tt (fun n _ => MogiNode_execute n a).

Definition MogiProcess_execute (r : ProcRef) (agents : list AgentRef)
  : M Store unit :=
  forM agents tt (fun a _ => runAgentThroughNodes r a).

Definition MogiProcess_resetExecution (r : ProcRef) : M Store unit :=
  let* this := getProc r in
  putProc r (set_index 0 this).

Definition executeAgentStep (r : ProcRef) (a : AgentRef) : M Store bool :=
  let* this := getProc r in
  if currentNodeIndex this <? length (nodes this) then
    match nodes this !! currentNodeIndex this with
    | Some n =>
        MogiNode_execute n a ;;
        let* this := getProc r in
        putProc r (set_index (S (currentNodeIndex this)) this) ;;
        ret true
    | None => throw TypeError
    end
  else ret false.

Definition MogiProcess_getAIServices (this : MogiProcess) : list ServiceRef :=
  getAIService <$> nodes this.

(** ** [MogiConditionalProcess] ([mogi.ts], lines 357-447) *)

Definition getCond (c : ProcRef) : M Store Conditional :=
  let* this := getProc c in
  match conditional this with
  | Some cnd => ret cnd
  | None => throw TypeError
  end.

Definition putCond (c : ProcRef) (f : Conditional -> Conditional) : M Store unit :=
  let* this := getProc c in
  match conditional this with
  | Some cnd => putProc c (set_conditional (Some (f cnd)) this)
  | None => throw TypeError
  end.

Definition new_MogiConditionalProcess (id : MogiProcessID)
  (cond : MogiAgentState -> bool) (t f : ProcRef) (ns : list MogiNode)
  (cfg : MogiProcessConfig) : M Store ProcRef :=
  let* r := allocProc
    {| proc_id := id; proc_config := cfg; nodes := []; currentNodeIndex := 0;
       conditional := Some {| condition := cond; trueBranch := t;
                              falseBranch := f; branchStates := ∅ |} |} in
  forM ns tt (fun n _ => addNode r n) ;;
  ret r.

(** The virtual call [p.resetExecution()]: the method of [MogiProcess], or
    the override of [MogiConditionalProcess], which recurses into both
    branches.  [depth] is the room left on the call stack. *)
Fixpoint resetExecution_at (depth : nat) (r : ProcRef) : M Store unit :=
  match depth with
  | 0 => throw RangeError
  | S d =>
      let* this := getProc r in
      match conditional this with
      | None => MogiProcess_resetExecution r
      | Some _ =>
          MogiProcess_resetExecution r ;;
          putCond r (set_branchStates ∅) ;;
          let* cnd := getCond r in
          resetExecution_at d (trueBranch cnd) ;;
          let* cnd := getCond r in
          resetExecution_at d (falseBranch cnd)
      end
  end.

Definition resetExecution (r : ProcRef) : M Store unit :=
  resetExecution_at stack_limit r.

(** The virtual call [p.getAIServices()]. *)
Fixpoint getAIServices_at (depth : nat) (r : ProcRef) : M Store (list ServiceRef) :=
  match depth with
  | 0 => throw RangeError
  | S d =>
      let* this := getProc r in
      match conditional this with
      | None => ret (MogiProcess_getAIServices this)
      | Some cnd =>
          let* t := getAIServices_at d (trueBranch cnd) in
          let* f := getAIServices_at d (falseBranch cnd) in
          ret ((getAIService <$> nodes this) ++ t ++ f)
      end
  end.

Definition getAIServices (r : ProcRef) : M Store (list ServiceRef) :=
  getAIServices_at stack_limit r.

(** The body of the loop over [agents] in [executeConditionalStep]; the
    accumulator is [hasMoreSteps]. *)
Definition conditionalAgentStep (c : ProcRef) (a : AgentRef) (hasMoreSteps : bool)
  : M Store bool :=
  let* this := getProc c in
  if currentNodeIndex this <? length (nodes this) then
    match nodes this !! currentNodeIndex this with
    | Some n => MogiNode_execute n a ;; ret true
    | None => throw TypeError
    end
  else
    let* agent := getAgent a in
    let* cnd := getCond c in
    (match branchStates cnd !! agent_id agent with
     | Some _ => ret tt
     | None =>
         modify (log_eval c (agent_id agent)) ;;
         let b := if condition cnd agent then trueBranch cnd else falseBranch cnd in
         resetExecution b ;;
         putCond c (fun cnd' =>
           set_branchStates
             (<[agent_id agent := {| branch := b; completed := false |}]>
                (branchStates cnd')) cnd')
     end) ;;
    let* cnd := getCond c in
    match branchStates cnd !! agent_id agent with
    | None => throw TypeError
    | Some branchState =>
        if completed branchState then ret hasMoreSteps
        else
          let* branchHasSteps := executeAgentStep (branch branchState) a in
          putCond c (fun cnd' =>
            set_branchStates
              (<[agent_id agent := {| branch := branch branchState;
                                      completed := negb branchHasSteps |}]>
                 (branchStates cnd')) cnd') ;;
          ret (if branchHasSteps then true else hasMoreSteps)
    end.

Definition executeConditionalStep (c : ProcRef) (agents : list AgentRef)
  : M Store bool :=
  let* hasMoreSteps := forM agents false (conditionalAgentStep c) in
  let* this := getProc c in
  if currentNodeIndex this <? length (nodes this) then
    putProc c (set_index (S (currentNodeIndex this)) this) ;;
    ret true
  else ret hasMoreSteps.

Definition updateBranches (c : ProcRef) (t f : option ProcRef) : M Store unit :=
  (match t with
   | Some t' => putCond c (fun cnd => set_branches t' (falseBranch cnd) cnd)
   | None => ret tt
   end) ;;
  match f with
  | Some f' => putCond c (fun cnd => set_branches (trueBranch cnd) f' cnd)
  | None => ret tt
  end.

Definition getActiveBranch (c : ProcRef) (agentId : MogiAgentID)
  : M Store (option ProcRef) :=
  let* cnd := getCond c in
  ret (branch <$> branchStates cnd !! agentId).

(** ** [MogiSimulation] ([mogi.ts], lines 51-220) *)

Record QueueItem := {
  q_processId : MogiProcessID;
  q_agentId : MogiAgentID;
  q_nodeIndex : nat
}.

(** The fields of the simulation object.  [aiServices] is a [Set] and
    [agents] a [Map]: both iterate in insertion order. *)
Record MogiSimulation := {
  aiServices : list ServiceRef;
  globalUsage : AIUsageStats;
  executionQueue : list QueueItem;
  currentState : MogiSimulationState;
  agents : list (MogiAgentID * AgentRef);
  processes : list ProcRef;
  config : MogiSimulationConfig
}.

(** What a method of the simulation runs on: its own fields and the store. *)
Record World := {
  sim : MogiSimulation;
  store : Store
}.

Definition liftStore {A} (m : M Store A) : M World A :=
  fun w => let '(r, st) := m (store w) in (r, {| sim := sim w; store := st |}).

Definition getSim : M World MogiSimulation :=
  fun w => (Ok (sim w), w).

Definition modifySim (f : MogiSimulation -> MogiSimulation) : M World unit :=
  fun w => (Ok tt, {| sim := f (sim w); store := store w |}).

Definition set_aiServices (l : list ServiceRef) (s : MogiSimulation) :=
  {| aiServices := l; globalUsage := globalUsage s;
     executionQueue := executionQueue s; currentState := currentState s;
     agents := agents s; processes := processes s; config := config s |}.

Definition set_globalUsage (u : AIUsageStats) (s : MogiSimulation) :=
  {| aiServices := aiServices s; globalUsage := u;
     executionQueue := executionQueue s; currentState := currentState s;
     agents := agents s; processes := processes s; config := config s |}.

Definition set_executionQueue (q : list QueueItem) (s : MogiSimulation) :=
  {| aiServices := aiServices s; globalUsage := globalUsage s;
     executionQueue := q; currentState := currentState s;
     agents := agents s; processes := processes s; config := config s |}.

Definition set_currentState (cs : MogiSimulationState) (s : MogiSimulation) :=
  {| aiServices := aiServices s; globalUsage := globalUsage s;
     executionQueue := executionQueue s; currentState := cs;
     agents := agents s; processes := processes s; config := config s |}.

Definition set_agents (l : list (MogiAgentID * AgentRef)) (s : MogiSimulation) :=
  {| aiServices := aiServices s; globalUsage := globalUsage s;
     executionQueue := executionQueue s; currentState := currentState s;
     agents := l; processes := processes s; config := config s |}.

Definition set_processes (l : list ProcRef) (s : MogiSimulation) :=
  {| aiServices := aiServices s; globalUsage := globalUsage s;
     executionQueue := executionQueue s; currentState := currentState s;
     agents := agents s; processes := l; config := config s |}.

Definition set_isComplete (b : bool) (cs : MogiSimulationState) :=
  {| currentProcessId := currentProcessId cs; activeAgents := activeAgents cs;
     nodeIndex := nodeIndex cs; isComplete := b |}.

Definition set_nodeIndex (i : nat) (cs : MogiSimulationState) :=
  {| currentProcessId := currentProcessId cs; activeAgents := activeAgents cs;
     nodeIndex := i; isComplete := isComplete cs |}.

(** [Map.prototype.set] and [Map.prototype.get] on an insertion-ordered map. *)
Fixpoint Map_set {V} (k : string) (v : V) (m : list (string * V)) : list (string * V) :=
  match m with
  | [] => [(k, v)]
  | (k', v') :: m' =>
      if decide (k' = k) then (k, v) :: m' else (k', v') :: Map_set k v m'
  end.

Fixpoint Map_get {V} (k : string) (m : list (string * V)) : option V :=
  match m with
  | [] => None
  | (k', v') :: m' => if decide (k' = k) then Some v' else Map_get k m'
  end.

(** The configuration a constructor call without overrides produces; the
    random identifier is the caller's. *)
Definition defaultConfig (uuid : string) : MogiSimulationConfig :=
  {| sim_id := uuid; description := "Unnamed Simulation"; delayMs := 1500;
     maxConcurrency := 5; printLogs := false |}.

Definition new_MogiSimulation (cfg : MogiSimulationConfig) : MogiSimulation :=
  {| aiServices := [];
     globalUsage := zeroUsage;
     executionQueue := [];
     currentState := {| currentProcessId := None; activeAgents := [];
                        nodeIndex := 0; isComplete := true |};
     agents := [];
     processes := [];
     config := cfg |}.

Definition addAgent (attrs : JSRecord) (id : MogiAgentID) : M World MogiAgentID :=
  let* a := liftStore (fun st =>
    let a := fresh (dom (agts st)) in
    (Ok a, set_agts (insert a {| agent_id := id; attributes := attrs;
                                 history := [] |}) st)) in
  modifySim (fun s => set_agents (Map_set id a (agents s)) s) ;;
  ret id.

Definition getAgentState (id : MogiAgentID) : M World AgentRef :=
  let* s := getSim in
  match Map_get id (agents s) with
  | Some a => ret a
  | None => throw (Error ("Agent " +:+ id +:+ " not found in simulation"))
  end.

Definition getAllAgents : M World (list AgentRef) :=
  let* s := getSim in ret (snd <$> agents s).

Definition getSimulationState : M World MogiSimulationState :=
  let* s := getSim in ret (currentState s).

Definition trackAIService (service : ServiceRef) : M World unit :=
  modifySim (fun s =>
    if decide (service ∈ aiServices s) then s
    else set_aiServices (aiServices s ++ [service]) s).

Definition initializeProcess (process : ProcRef) : M World unit :=
  let* p := liftStore (getProc process) in
  modifySim (fun s =>
    set_currentState
      {| currentProcessId := Some (proc_id p);
         activeAgents := fst <$> agents s;
         nodeIndex := 0;
         isComplete := false |} s) ;;
  modifySim (set_executionQueue []) ;;
  let* services := liftStore (getAIServices process) in
  forM services tt (fun service _ => trackAIService service) ;;
  modifySim (fun s => set_processes (processes s ++ [process]) s) ;;
  let* s := getSim in
  forM (activeAgents (currentState s)) tt (fun agentId _ =>
    modifySim (fun s =>
      set_executionQueue
        (executionQueue s ++
           [{| q_processId := proc_id p; q_agentId := agentId;
               q_nodeIndex := 0 |}]) s)).

(** [this.processes.find((p) => p.id === this.currentState.currentProcessId)] *)
Fixpoint findProcess (pid : option MogiProcessID) (l : list ProcRef)
  : M Store (option ProcRef) :=
  match l with
  | [] => ret None
  | r :: l' =>
      let* p := getProc r in
      if decide (Some (proc_id p) = pid) then ret (Some r) else findProcess pid l'
  end.

Definition executeStep : M World bool :=
  let* s := getSim in
  if isComplete (currentState s) then ret false
  else
    let* found := liftStore (findProcess (currentProcessId (currentState s))
                               (processes s)) in
    match found with
    | None =>
        modifySim (fun s => set_currentState (set_isComplete true (currentState s)) s) ;;
        ret false
    | Some currentProcess =>
        let* p := liftStore (getProc currentProcess) in
        match conditional p with
        | Some _ =>
            let* ags := mapM getAgentState (activeAgents (currentState s)) in
            liftStore (executeConditionalStep currentProcess ags)
        | None =>
            let currentNode := nodes p !! nodeIndex (currentState s) in
            let* ags := mapM getAgentState (activeAgents (currentState s)) in
            forM ags tt (fun a _ =>
              match currentNode with
              | Some n => liftStore (MogiNode_execute n a)
              | None => throw TypeError
              end) ;;
            modifySim (fun s =>
              set_currentState
                (set_nodeIndex (S (nodeIndex (currentState s))) (currentState s)) s) ;;
            let* s := getSim in
            let* p := liftStore (getProc currentProcess) in
            (if length (nodes p) <=? nodeIndex (currentState s) then
               modifySim (fun s =>
                 set_currentState (set_isComplete true (currentState s)) s)
             else ret tt) ;;
            let* s := getSim in
            ret (negb (isComplete (currentState s)))
        end
    end.

(** [while (await this.executeStep()) { ... }], for at most [fuel] calls;
    the result tells whether [executeStep] returned [false] within them. *)
Fixpoint drive (fuel : nat) : M World bool :=
  match fuel with
  | 0 => ret false
  | S f => let* more := executeStep in if more then drive f else ret true
  end.

Definition runProcess (fuel : nat) (process : ProcRef) : M World bool :=
  initializeProcess process ;; drive fuel.

(** [AIService.getUsageStats] and [AIService.resetUsageStats] *)
Definition getUsageStats (service : ServiceRef) : M Store AIUsageStats :=
  fun st => (Ok (usage (ai st) service), st).

Definition resetUsageStats (service : ServiceRef) : M Store unit :=
  modify (fun st =>
    set_ai {| usage := fun r => if decide (r = service) then zeroUsage
                                else usage (ai st) r;
              ext := ext (ai st) |} st).

Definition addUsage (acc stats : AIUsageStats) : AIUsageStats :=
  {| totalCalls := totalCalls acc + totalCalls stats;
     totalInputTokens := totalInputTokens acc + totalInputTokens stats;
     totalOutputTokens := totalOutputTokens acc + totalOutputTokens stats;
     estimatedCost := (estimatedCost acc + estimatedCost stats)%float |}.

Definition getAIUsage : M World AIUsageStats :=
  let* s := getSim in
  forM (aiServices s) (globalUsage s) (fun service acc =>
    let* stats := liftStore (getUsageStats service) in
    ret (addUsage acc stats)).

Definition resetAIUsage : M World unit :=
  let* s := getSim in
  forM (aiServices s) tt (fun service _ => liftStore (resetUsageStats service)) ;;
  modifySim (set_globalUsage zeroUsage).

End Engine.

(** * Vocabulary of the specification *)

Section Vocabulary.
Context `{host : Host}.

(** What a step never changes in a process object: everything but the
    cursor and the branch-state map. *)
Definition shape (p : MogiProcess) :=
  (proc_id p, proc_config p, nodes p,
   (fun c => (condition c, trueBranch c, falseBranch c)) <$> conditional p).

Definition same_shape (st st' : Store) : Prop :=
  forall r, shape <$> procs st' !! r = shape <$> procs st !! r.

(** Agents are never deleted, keep their id, and their history only grows. *)
Definition agents_grow (st st' : Store) : Prop :=
  forall a x, agts st !! a = Some x ->
    exists x', agts st' !! a = Some x' /\ agent_id x' = agent_id x /\
               history x `prefix_of` history x'.

(** The way the store moves while processes execute. *)
Definition evolves (st st' : Store) : Prop :=
  same_shape st st' /\ agents_grow st st' /\ evals st `prefix_of` evals st'.

(** A computation that moves the state along [P], whatever it returns. *)
Definition preserves {S A} (P : S -> S -> Prop) (m : M S A) : Prop :=
  forall st, P st (snd (m st)).

(** Two worlds over the same store. *)
Definition same_store (w w' : World) : Prop := store w' = store w.

(** A computation that only reads. *)
Definition pure {S A} (m : M S A) : Prop := forall s, snd (m s) = s.

(** The branch an agent id is bound to in conditional process [c]. *)
Definition bound (st : Store) (c : ProcRef) (id : MogiAgentID) : option ProcRef :=
  p ← procs st !! c; cnd ← conditional p; branch <$> branchStates cnd !! id.

(** Branches are ranked strictly below the conditional process that holds
    them: the process graph has no cycle, and a virtual call on a process
    of rank [k] needs [k + 1] stack frames. *)
Definition rank_ok (rk : ProcRef -> nat) (r : ProcRef) (p : MogiProcess) : bool :=
  match conditional p with
  | Some cnd =>
      bool_decide (rk (trueBranch cnd) < rk r) &&
      bool_decide (rk (falseBranch cnd) < rk r)
  | None => true
  end.

Definition ranked (rk : ProcRef -> nat) (st : Store) : Prop :=
  map_Forall (fun r p => rank_ok rk r p = true) (procs st).

(** No capability call fails. *)
Definition reliable : Prop :=
  (forall svc attrs w, exists sch w', createSchema svc attrs w = (Ok sch, w')) /\
  (forall svc s c i sch w, exists r w', prompt svc s c i sch w = (Ok r, w')) /\
  (forall svc s c i sch w, exists r w', promptThinking svc s c i sch w = (Ok r, w')).

(** The agent map of the simulation: one entry per id, and every
    registered agent an object of its own. *)
Definition agents_wf (s : MogiSimulation) : Prop :=
  NoDup (fst <$> agents s) /\ NoDup (snd <$> agents s).

(** The registered processes that carry the id of [p] are [r] itself. *)
Definition id_unique (st : Store) (r : ProcRef) (p : MogiProcess)
  (registered : list ProcRef) : Prop :=
  Forall (fun r' => exists q, procs st !! r' = Some q /\
                      (proc_id q = proc_id p -> r' = r)) registered.

(** The fields of the simulation after [initializeProcess] on a process
    with the given id and capabilities. *)
Definition track (s : MogiSimulation) (service : ServiceRef) : MogiSimulation :=
  if decide (service ∈ aiServices s) then s
  else set_aiServices (aiServices s ++ [service]) s.

Definition enqueue (pid : MogiProcessID) (s : MogiSimulation) (agentId : MogiAgentID)
  : MogiSimulation :=
  set_executionQueue
    (executionQueue s ++
       [{| q_processId := pid; q_agentId := agentId; q_nodeIndex := 0 |}]) s.

Definition initialized (process : ProcRef) (pid : MogiProcessID)
  (services : list ServiceRef) (s : MogiSimulation) : MogiSimulation :=
  let cs := {| currentProcessId := Some pid; activeAgents := fst <$> agents s;
               nodeIndex := 0; isComplete := false |} in
  let s1 := set_executionQueue [] (set_currentState cs s) in
  let s2 := foldl track s1 services in
  let s3 := set_processes (processes s2 ++ [process]) s2 in
  foldl (enqueue pid) s3 (activeAgents cs).

(** The store after all agents of a linear step have run node [n]. *)
Definition linearRound (n : MogiNode) (ags : list AgentRef) (st : Store) : Store :=
  snd (forM ags tt (fun a _ => MogiNode_execute n a) st).

(** The run state after a linear step on a process of [len] nodes. *)
Definition advanced (len : nat) (cs : MogiSimulationState) : MogiSimulationState :=
  {| currentProcessId := currentProcessId cs;
     activeAgents := activeAgents cs;
     nodeIndex := S (nodeIndex cs);
     isComplete := len <=? S (nodeIndex cs) |}.

(** [k] calls of [executeStep], whatever they return. *)
Definition stepN (k : nat) (w : World) : World :=
  Nat.iter k (fun w => snd (executeStep w)) w.

(** The sum of the counters of a set of capability instances. *)
Definition sumCounter (f : AIUsageStats -> Z) (u : ServiceRef -> AIUsageStats)
  (X : gset ServiceRef) : Z :=
  foldr (fun r acc => (f (u r) + acc)%Z) 0%Z (elements X).

(** The costs of the capability instances of a list, added to 0 from left
    to right, as a [reduce] over a [Set] adds them in insertion order.
    Binary64 addition is not associative: the order is part of the
    result. *)
Definition sumCost (u : ServiceRef -> AIUsageStats) (l : list ServiceRef) : float :=
  foldl (fun acc r => (acc + estimatedCost (u r))%float) 0%float l.

(** The worlds a simulation can be in: freshly constructed over any
    store, then any of its public methods in any order, while the rest
    of the program does what it wants with the store and with the
    [currentState] object that [getSimulationState] hands out. *)
Inductive reachable : World -> Prop :=
  | reach_new cfg st :
      reachable {| sim := new_MogiSimulation cfg; store := st |}
  | reach_addAgent w attrs id :
      reachable w -> reachable (snd (addAgent attrs id w))
  | reach_initializeProcess w p :
      reachable w -> reachable (snd (initializeProcess p w))
  | reach_executeStep w :
      reachable w -> reachable (snd (executeStep w))
  | reach_getAIUsage w :
      reachable w -> reachable (snd (getAIUsage w))
  | reach_resetAIUsage w :
      reachable w -> reachable (snd (resetAIUsage w))
  | reach_elsewhere w (f : Store -> Store) :
      reachable w -> reachable {| sim := sim w; store := f (store w) |}
  | reach_getSimulationState w (cs : MogiSimulationState) :
      reachable w ->
      reachable {| sim := set_currentState cs (sim w); store := store w |}.

(** The conditional process [pc] with the branch state of agent [id] set. *)
Definition with_branchState (id : MogiAgentID) (bs : BranchState)
  (cnd : Conditional) (pc : MogiProcess) : MogiProcess :=
  set_conditional
    (Some (set_branchStates (<[id := bs]> (branchStates cnd)) cnd)) pc.

(** The store right after an agent is bound to branch [b]: the evaluation
    is logged, the branch is rewound, and the binding is recorded. *)
Definition bind_agent (c : ProcRef) (pc : MogiProcess) (cnd : Conditional)
  (id : MogiAgentID) (b : ProcRef) (pb : MogiProcess) (st : Store) : Store :=
  set_procs
    (insert c (with_branchState id {| branch := b; completed := false |} cnd pc))
    (set_procs (insert b (set_index 0 pb)) (log_eval c id st)).

(** A move of the store that keeps every branch-state map and the trace
    of predicate evaluations. *)
Definition keeps_bindings (st st' : Store) : Prop :=
  (forall r, conditional <$> procs st' !! r = conditional <$> procs st !! r) /\
  evals st' = evals st.

(** A move of the store under which the bindings of conditional process
    [c] are sticky: a bound agent stays bound to the same branch, and the
    predicate is evaluated only for agents that were not bound. *)
Definition sticky (c : ProcRef) (st st' : Store) : Prop :=
  (forall id b, bound st c id = Some b -> bound st' c id = Some b) /\
  exists l, evals st' = evals st ++ l /\
            Forall (fun e => e.1 = c /\ bound st c e.2 = None) l.

Definition ranked_sticky (rk : ProcRef -> nat) (c : ProcRef) (st st' : Store)
  : Prop :=
  ranked rk st -> ranked rk st' /\ sticky c st st'.

(** A run of conditional process [c]: one [executeConditionalStep] per
    round, each with the agents of that round. *)
Definition conditionalRun (c : ProcRef) (rounds : list (list AgentRef))
  : M Store unit :=
  forM rounds tt (fun ags _ => executeConditionalStep c ags ;; ret tt).

(** *** The branching scenario: a predicate on [height] *)

(** The predicate [height ∈ [150, 200]]. *)
Definition height_in_range (a : MogiAgentState) : bool :=
  match attributes a !! "height" with
  | Some (VNum h) => (150 <=? h)%Z && (h <=? 200)%Z
  | _ => false
  end.

(** Agent [a] is live, has id [id] and [k] history entries. *)
Definition agent_at (st : Store) (a : AgentRef) (id : MogiAgentID) (k : nat)
  : Prop :=
  exists x, agts st !! a = Some x /\ agent_id x = id /\ length (history x) = k.

(** [r] is a plain process with nodes [ns] and its cursor at [i]. *)
Definition proc_at (st : Store) (r : ProcRef) (ns : list MogiNode) (i : nat)
  : Prop :=
  exists p, procs st !! r = Some p /\ nodes p = ns /\
            currentNodeIndex p = i /\ conditional p = None.

(** [c] is a conditional process on the predicate [cond] with prefix
    [ns], cursor [i], branches [t] and [f] and branch states [m]. *)
Definition cond_at (st : Store) (c : ProcRef) (cond : MogiAgentState -> bool)
  (ns : list MogiNode) (i : nat) (t f : ProcRef)
  (m : gmap MogiAgentID BranchState) : Prop :=
  exists p cnd, procs st !! c = Some p /\ nodes p = ns /\
    currentNodeIndex p = i /\ conditional p = Some cnd /\
    condition cnd = cond /\ trueBranch cnd = t /\
    falseBranch cnd = f /\ branchStates cnd = m.

(** The number of history entries of agent [a]. *)
Definition history_length (st : Store) (a : AgentRef) : nat :=
  match agts st !! a with
  | Some x => length (history x)
  | None => 0
  end.

(** The cursor of process [r]. *)
Definition cursor_of (st : Store) (r : ProcRef) : option nat :=
  currentNodeIndex <$> procs st !! r.

(** A point of the scenario: the cursors of [c], [t] and [f], the branch
    states of the two agents and the lengths of their histories. *)
Definition scenario_at (c t f : ProcRef) (a b : AgentRef)
  (idA idB : MogiAgentID) (cond : MogiAgentState -> bool)
  (p0 t0 t1 f0 : MogiNode)
  (ic : nat) (bA bB : option BranchState) (it jf kA kB : nat) (st : Store)
  : Prop :=
  exists m, cond_at st c cond [p0] ic t f m /\ m !! idA = bA /\ m !! idB = bB /\
    proc_at st t [t0; t1] it /\ proc_at st f [f0] jf /\
    agent_at st a idA kA /\ agent_at st b idB kB.

(** The start of the scenario: conditional process [c] on the predicate
    [cond], with a prefix of one node, a true branch [t] of two nodes and
    a false branch [f] of one node, not yet run; agents [a] and [b] are
    the registered agents. *)
Definition scenario_start (w : World) (c t f : ProcRef) (a b : AgentRef)
  (idA idB : MogiAgentID) (cond : MogiAgentState -> bool)
  (p0 t0 t1 f0 : MogiNode) : Prop :=
  c <> t /\ c <> f /\ t <> f /\ a <> b /\ idA <> idB /\
  cond_at (store w) c cond [p0] 0 t f ∅ /\
  (exists i, proc_at (store w) t [t0; t1] i) /\
  (exists i, proc_at (store w) f [f0] i) /\
  agents (sim w) = [(idA, a); (idB, b)] /\
  (exists k, agent_at (store w) a idA k) /\
  (exists k, agent_at (store w) b idB k) /\
  (exists pc, procs (store w) !! c = Some pc /\
              id_unique (store w) c pc (processes (sim w))).

(** *** The requests of a run *)

(** The store after node [n] has run for agent [a]. *)
Definition ran (n : MogiNode) (a : AgentRef) (st : Store) : Store :=
  snd (MogiNode_execute n a st).

(** The request of node [n] for agent [a], made in store [st], returns a
    change set: no capability call of it fails. *)
Definition answers (n : MogiNode) (a : AgentRef) (st : Store) : Prop :=
  exists chg st1, handler n a st = (Ok chg, st1).

(** A sequence of requests, each made in the store the ones before it
    have left, is answered throughout; and the store after them. *)
Fixpoint answered (calls : list (MogiNode * AgentRef)) (st : Store) : Prop :=
  match calls with
  | [] => True
  | (n, a) :: rest => answers n a st /\ answered rest (ran n a st)
  end.

Definition after_calls (calls : list (MogiNode * AgentRef)) (st : Store) : Store :=
  foldl (fun s call => ran call.1 call.2 s) st calls.

(** Agent [a] is live in [st], and the predicate [cond] gives [v] on it. *)
Definition satisfies (cond : MogiAgentState -> bool) (a : AgentRef) (v : bool)
  (st : Store) : Prop :=
  exists x, agts st !! a = Some x /\ cond x = v.

(** Two stores with the same agents and the same capability side: all
    that the request of a node reads and writes. *)
Definition same_minds (s st : Store) : Prop :=
  agts st = agts s /\ ai st = ai s.

(** The bookkeeping behind [getAIUsage]: the simulation's own aggregate
    holds zeros and no capability instance is tracked twice. *)
Definition usage_inv (s : MogiSimulation) : Prop :=
  globalUsage s = zeroUsage /\ NoDup (aiServices s).

Definition keeps_usage_inv (w w' : World) : Prop :=
  usage_inv (sim w) -> usage_inv (sim w').

End Vocabulary.

(** * Concrete hosts and worlds, for running the engine on examples *)

Module Demo.

(** One call of capability [svc]: its counters move, and so does the world
    outside. *)
Definition bump (svc : ServiceRef) (w : AIWorld nat) : AIWorld nat :=
  {| usage := fun r =>
       if decide (r = svc)
       then addUsage (usage w r)
              {| totalCalls := 1; totalInputTokens := 10;
                 totalOutputTokens := 5; estimatedCost := 0.25%float |}
       else usage w r;
     ext := S (ext w) |}.

(** A capability that answers with the node's instructions and never
    fails. *)
Definition steady_prompt (svc : ServiceRef) (system content instruction : string)
  (sch : Schema) : M (AIWorld nat) AIPromptResponse :=
  fun w => (Ok (RString system), bump svc w).

(** A capability that fails when the instructions are ["fail"] or the
    serialized agent is ["bad"], and otherwise answers like the steady one. *)
Definition flaky_prompt (svc : ServiceRef) (system content instruction : string)
  (sch : Schema) : M (AIWorld nat) AIPromptResponse :=
  fun w =>
    if decide (system = "fail") then (Throw (Rejected "network"), w)
    else if decide (content = "bad") then (Throw (Rejected "capability"), w)
    else steady_prompt svc system content instruction sch w.

(** Chain of thought: the answer, then a second call for the reasoning. *)
Definition thinking (ask : ServiceRef -> string -> string -> string -> Schema ->
                           M (AIWorld nat) AIPromptResponse)
  (svc : ServiceRef) (system content instruction : string) (sch : Schema)
  : M (AIWorld nat) AIPromptResponse :=
  fun w =>
    match ask svc system content instruction sch w with
    | (Ok (RString s), w') => (Ok (RArray [s; "because"]), bump svc w')
    | (Ok (RArray l), w') => (Ok (RArray (l ++ ["because"])), bump svc w')
    | (Throw e, w') => (Throw e, w')
    end.

(** A parser for the handful of replies the examples use. *)
Definition demo_parse (s : string) : Result JSValue :=
  if decide (s = "{}") then Ok (VObj [])
  else if decide (s = "[true]") then Ok (VArr [VBool true])
  else if decide (s = "null") then Ok VNull
  else Throw SyntaxError.

(** The serialization shows the [name] attribute only. *)
Definition demo_stringify (r : JSRecord) : string :=
  match r !! "name" with
  | Some (VStr s) => s
  | _ => ""
  end.

Definition steady_host : Host := {|
  Env := nat;
  createSchema := fun _ _ => ret (VObj []);
  prompt := steady_prompt;
  promptThinking := thinking steady_prompt;
  JSON_parse := demo_parse;
  JSON_stringify := demo_stringify;
  stack_limit := 64
|}.

Definition flaky_host : Host := {|
  Env := nat;
  createSchema := fun _ _ => ret (VObj []);
  prompt := flaky_prompt;
  promptThinking := thinking flaky_prompt;
  JSON_parse := demo_parse;
  JSON_stringify := demo_stringify;
  stack_limit := 64
|}.

Definition demo_node (id : string) (reply : string) : MogiNode :=
  {| node_id := id;
     node_config := {| aiService := 0; instructions := reply;
                       appendMessage := None; schema := None;
                       useChainOfThought := false |} |}.

(** A node on capability instance [svc]. *)
Definition service_node (id : string) (svc : ServiceRef) : MogiNode :=
  {| node_id := id;
     node_config := {| aiService := svc; instructions := "{}";
                       appendMessage := None; schema := None;
                       useChainOfThought := false |} |}.

(** The counters of three instances with one call each. *)
#[warnings="-inexact-float"]
Definition priced_usage (r : ServiceRef) : AIUsageStats :=
  {| totalCalls := 1; totalInputTokens := 10; totalOutputTokens := 5;
     estimatedCost := match r with
                      | 0 => 0.1%float
                      | 1 => 0.2%float
                      | _ => 0.3%float
                      end |}.

Section Worlds.
Context `{host : Host}.
Variable env0 : Env.

Definition empty_store : Store :=
  {| procs := ∅; agts := ∅;
     ai := {| usage := fun _ => zeroUsage; ext := env0 |}; evals := [] |}.

(** The store after the program has built its processes. *)
Definition built (build : M Store unit) : Store := snd (build empty_store).

(** A fresh simulation over a store. *)
Definition new_world (st : Store) : World :=
  {| sim := new_MogiSimulation (defaultConfig "sim"); store := st |}.

Definition run_on {A} (m : M World A) (w : World) : World := snd (m w).

(** The branching scenario: processes [T] (0), [F] (1) and the conditional
    [C] (2); agents [A] (0) and [B] (1). *)
Definition build_branching : M Store unit :=
  let* t := new_MogiProcess "T" defaultProcessConfig in
  addNode t (demo_node "t0" "{}") ;;
  addNode t (demo_node "t1" "{}") ;;
  let* f := new_MogiProcess "F" defaultProcessConfig in
  addNode f (demo_node "f0" "{}") ;;
  new_MogiConditionalProcess "C" height_in_range t f
    [demo_node "p0" "{}"] defaultProcessConfig ;;
  ret tt.

Definition branching_world (heightA heightB : Z) : World :=
  run_on (addAgent {[ "height" := VNum heightB ]} "B")
    (run_on (addAgent {[ "height" := VNum heightA ]} "A")
       (new_world (built build_branching))).

Definition scenario_world : World := branching_world 160 100.

(** The scenario with both agents in range, hence on the same branch. *)
Definition shared_world : World := branching_world 160 170.

(** The scenario driven to its end: [initializeProcess], then four steps. *)
Definition finished_world : World :=
  stepN 4 (run_on (initializeProcess 2) scenario_world).

(** A linear process [L] (0) of one node; agent [A] (0) serializes to
    ["bad"], agent [B] (1) to ["ok"]. *)
Definition build_linear (reply : string) : M Store unit :=
  let* l := new_MogiProcess "L" defaultProcessConfig in
  addNode l (demo_node "n0" reply).

Definition linear_world (reply : string) : World :=
  run_on (initializeProcess 0)
    (run_on (addAgent {[ "name" := VStr "ok" ]} "B")
       (run_on (addAgent {[ "name" := VStr "bad" ]} "A")
          (new_world (built (build_linear reply))))).

(** A linear process without nodes, initialized with one agent. *)
Definition build_empty : M Store unit :=
  new_MogiProcess "E" defaultProcessConfig ;; ret tt.

Definition empty_process_world : World :=
  run_on (initializeProcess 0)
    (run_on (addAgent ∅ "A") (new_world (built build_empty))).

(** A conditional process (1) made its own true branch: its capabilities
    cannot be enumerated, and [initializeProcess] throws before the
    process is registered. *)
Definition build_cyclic : M Store unit :=
  let* f := new_MogiProcess "F" defaultProcessConfig in
  let* c := new_MogiConditionalProcess "C" height_in_range f f []
              defaultProcessConfig in
  updateBranches c (Some c) None.

Definition unbound_world : World :=
  run_on (initializeProcess 1) (new_world (built build_cyclic)).

(** Two linear processes over the same three capability instances: [U]
    (0) uses them in the order 0, 1, 2 and [D] (1) in the order 2, 1, 0.
    The instances have been used before: their costs so far are 0.1, 0.2
    and 0.3. *)
Definition build_priced : M Store unit :=
  let* u := new_MogiProcess "U" defaultProcessConfig in
  addNode u (service_node "u0" 0) ;;
  addNode u (service_node "u1" 1) ;;
  addNode u (service_node "u2" 2) ;;
  let* d := new_MogiProcess "D" defaultProcessConfig in
  addNode d (service_node "d0" 2) ;;
  addNode d (service_node "d1" 1) ;;
  addNode d (service_node "d2" 0).

Definition priced_store : Store :=
  set_ai {| usage := priced_usage; ext := env0 |} (built build_priced).

Definition priced_world (p : ProcRef) : World :=
  run_on (initializeProcess p) (new_world priced_store).

End Worlds.

End Demo.

(** * More vocabulary: what the engine does to agents, processes and runs *)

Section MoreVocabulary.
Context `{host : Host}.

(** What node execution does to an agent. *)
Definition merge_changes (attrs : JSRecord) (new : list MogiAgentHistory) : JSRecord :=
  foldl (fun acc h => changes h ∪ acc) attrs new.

Definition node_entry (h : MogiAgentHistory) : Prop :=
  processId h = None /\ is_Some (nodeId h) /\
  reasoning h = default VUndefined (changes h !! "_reasoning").

Definition agent_extends (x x' : MogiAgentState) : Prop :=
  agent_id x' = agent_id x /\
  exists new, history x' = history x ++ new /\
    Forall node_entry new /\
    attributes x' = merge_changes (attributes x) new.

Definition agents_extend (st st' : Store) : Prop :=
  forall a x, agts st !! a = Some x ->
    exists x', agts st' !! a = Some x' /\ agent_extends x x'.

Definition only_touches (X : list AgentRef) (st st' : Store) : Prop :=
  forall a, a ∉ X -> agts st' !! a = agts st !! a.

Definition keeps_agents (st st' : Store) : Prop := agts st' = agts st.

(** What a step may change in the simulation object itself. *)
Definition run_state_moves (s s' : MogiSimulation) : Prop :=
  aiServices s' = aiServices s /\
  globalUsage s' = globalUsage s /\
  executionQueue s' = executionQueue s /\
  agents s' = agents s /\
  processes s' = processes s /\
  config s' = config s /\
  currentProcessId (currentState s') = currentProcessId (currentState s) /\
  activeAgents (currentState s') = activeAgents (currentState s) /\
  nodeIndex (currentState s) <= nodeIndex (currentState s') /\
  (isComplete (currentState s) = true -> isComplete (currentState s') = true).

(** The agent objects the run works on: those the active ids name. *)
Definition active_refs (s : MogiSimulation) : list AgentRef :=
  omap (fun id => Map_get id (agents s)) (activeAgents (currentState s)).

(** The node ids a run through [ns] leaves in a history, in order. *)
Definition node_ids (ns : list MogiNode) : list (option MogiNodeID) :=
  (fun n => Some (node_id n)) <$> ns.

(** The processes below [c] in the process graph: [c] itself, and what is
    below the branches of a conditional process. *)
Inductive descends (st : Store) : ProcRef -> ProcRef -> Prop :=
  | descends_here r : descends st r r
  | descends_true c p cnd r :
      procs st !! c = Some p -> conditional p = Some cnd ->
      descends st (trueBranch cnd) r -> descends st c r
  | descends_false c p cnd r :
      procs st !! c = Some p -> conditional p = Some cnd ->
      descends st (falseBranch cnd) r -> descends st c r.

(** A process as [resetExecution] leaves it: cursor at the start, and no
    agent bound. *)
Definition rewound (st : Store) (r : ProcRef) : Prop :=
  exists p, procs st !! r = Some p /\ currentNodeIndex p = 0 /\
    forall cnd, conditional p = Some cnd -> branchStates cnd = ∅.

(** A move of the store in which no predicate but that of [c] is
    evaluated and no other conditional process gains a binding. *)
Definition own_predicate_only (c : ProcRef) (st st' : Store) : Prop :=
  (exists l, evals st' = evals st ++ l /\ Forall (fun e => e.1 = c) l) /\
  (forall r id b, r <> c -> bound st' r id = Some b -> bound st r id = Some b).

(** A move of the store that evaluates no predicate and binds no agent. *)
Definition only_unbinds (st st' : Store) : Prop :=
  evals st' = evals st /\
  forall r id b, bound st' r id = Some b -> bound st r id = Some b.

(** The nodes a process has, and those it has left. *)
Definition node_count (st : Store) (r : ProcRef) : nat :=
  match procs st !! r with
  | Some p => length (nodes p)
  | None => 0
  end.

Definition remaining (st : Store) (r : ProcRef) : nat :=
  match procs st !! r with
  | Some p => length (nodes p) - currentNodeIndex p
  | None => 0
  end.

(** A conditional process [c] over two plain processes [t] and [f]; the
    bindings it holds, if any, are to these. *)
Definition plain_branches (c t f : ProcRef) (st : Store) : Prop :=
  exists pc cnd pt pf,
    procs st !! c = Some pc /\ conditional pc = Some cnd /\
    trueBranch cnd = t /\ falseBranch cnd = f /\
    (forall id bs, branchStates cnd !! id = Some bs ->
       branch bs = t \/ branch bs = f) /\
    procs st !! t = Some pt /\ conditional pt = None /\
    procs st !! f = Some pf /\ conditional pf = None.

(** Agent [a] is live and its id is bound in [c]. *)
Definition bound_in (c : ProcRef) (st : Store) (a : AgentRef) : Prop :=
  exists x, agts st !! a = Some x /\ is_Some (bound st c (agent_id x)).

(** Agent [a] is live and its branch in [c] is marked completed. *)
Definition completed_in (c : ProcRef) (st : Store) (a : AgentRef) : Prop :=
  exists x pc cnd bs, agts st !! a = Some x /\ procs st !! c = Some pc /\
    conditional pc = Some cnd /\ branchStates cnd !! agent_id x = Some bs /\
    completed bs = true.

(** The simulation is in a run of conditional process [c] over live
    agents. *)
Definition in_run_of (c : ProcRef) (w : World) : Prop :=
  isComplete (currentState (sim w)) = false /\
  fst (findProcess (currentProcessId (currentState (sim w)))
         (processes (sim w)) (store w)) = Ok (Some c) /\
  (forall id, id ∈ activeAgents (currentState (sim w)) ->
     id ∈ (fst <$> agents (sim w))) /\
  Forall (fun a => is_Some (agts (store w) !! a)) (active_refs (sim w)).

(** Every id of the active-agent snapshot is registered. *)
Definition active_registered (s : MogiSimulation) : Prop :=
  forall id, id ∈ activeAgents (currentState s) -> id ∈ (fst <$> agents s).

Definition keeps_active_registered (w w' : World) : Prop :=
  active_registered (sim w) -> active_registered (sim w').

(** The exceptions a computation can raise. *)
Definition raises_only {S A} (E : Exn -> Prop) (m : M S A) : Prop :=
  forall s e, fst (m s) = Throw e -> E e.

(** What the engine itself raises: a member access on [undefined], or an
    exhausted call stack. *)
Definition engine_error (e : Exn) : Prop := e = TypeError \/ e = RangeError.

(** Every branch of a conditional process of the store is a process of
    the store. *)
Definition branches_live (st : Store) : Prop :=
  map_Forall (fun _ p =>
    match conditional p with
    | Some cnd => bool_decide (is_Some (procs st !! trueBranch cnd)) &&
                  bool_decide (is_Some (procs st !! falseBranch cnd))
    | None => true
    end = true) (procs st).

End MoreVocabulary.

(** * [createMogiNode] ([mogi.ts], lines 327-344) *)

(** The optional last argument: a node configuration without [schema],
    [aiService] and [instructions]. *)
Record MogiNodeOptions := {
  opt_appendMessage : option string;
  opt_useChainOfThought : bool
}.

(** [uuid] is the value [crypto.randomUUID()] yields in the body.  The
    parameter [id] is bound and never read. *)
Definition createMogiNode (id uuid : string) (ai : ServiceRef)
  (instructions : string) (schemas : option (list (string * Schema)))
  (config : option MogiNodeOptions) : MogiNode :=
  {| node_id := uuid;
     node_config :=
       {| aiService := ai;
          instructions := instructions;
          appendMessage := config ≫= opt_appendMessage;
          schema := encapsulateSchema <$> schemas;
          useChainOfThought :=
            match config with
            | Some cfg => opt_useChainOfThought cfg
            | None => false
            end |} |}.

(** * [GoogleAIService] ([ai/gemini.ts]) *)

Module Gemini.

(** ** Schemas inferred from a value (lines 80-107) *)

Definition schemaOf (type : string) : Schema := VObj [("type", VStr type)].

Fixpoint inferSchema (value : JSValue) : Schema :=
  match value with
  | VStr _ => schemaOf "STRING"
  | VNum _ => schemaOf "NUMBER"
  | VBool _ => schemaOf "BOOLEAN"
  | VArr l =>
      VObj [("type", VStr "ARRAY");
            ("items", match l with
                      | x :: _ => inferSchema x
                      | [] => schemaOf "STRING"
                      end)]
  | VObj kv =>
      VObj [("type", VStr "OBJECT");
            ("properties", VObj (map (fun p => (fst p, inferSchema (snd p))) kv));
            ("nullable", VBool false)]
  | VNull => schemaOf "OBJECT"
  | VUndefined => schemaOf "STRING"
  end.

(** [createSchema(obj)]: one property per entry of the object. *)
Definition objectSchema (entries : list (string * JSValue)) : Schema :=
  VObj [("type", VStr "OBJECT");
        ("properties", VObj (map (fun p => (fst p, inferSchema (snd p))) entries));
        ("nullable", VBool false)].

(** ** The generative-AI library, as far as the service uses it *)

(** [GenerationConfig]: numeric settings by name. *)
Definition DEFAULT_CONFIG : gmap string Q :=
  {[ "temperature" := (1 # 10)%Q; "topP" := 1%Q; "topK" := 1%Q;
     "frequencyPenalty" := (1 # 2)%Q ]}.

(** The argument of [getGenerativeModel] (the safety settings are the
    same constant in every call). *)
Record ModelParams := {
  mp_model : string;
  mp_generationConfig : gmap string Q
}.

(** The two shapes of request the service sends: role-tagged contents
    with a response schema, or a list of plain texts. *)
Inductive GenerateRequest : Type :=
  | Contents (contents : list (string * string)) (responseSchema : Schema)
  | Texts (parts : list string).

(** [result.response]: [text()] may throw; [usageMetadata] may be absent
    and otherwise holds [promptTokenCount] and [candidatesTokenCount]. *)
Record GenerateContentResponse := {
  text : Result string;
  usageMetadata : option (Z * Z)
}.

(** The library and the network behind it, for a client made with
    [apiKey]: [getGenerativeModel(params)] yields a model object, and
    [generateContent(request)] is called on a model.  Each of the two may
    throw and may move the network. *)
Class GenAI := {
  Net : Type;
  GenerativeModel : Type;
  getGenerativeModel : string -> ModelParams -> M Net GenerativeModel;
  generateContent : GenerativeModel -> GenerateRequest ->
                    M Net GenerateContentResponse
}.

(** [getGenerativeModel(params).generateContent(request)]: the two calls
    one after the other. *)
Definition request `{backend : GenAI} (key : string) (params : ModelParams)
  (req : GenerateRequest) : M Net GenerateContentResponse :=
  let* model := getGenerativeModel key params in
  generateContent model req.

(** ** The service object *)

(** The fields of the instance ([usageStats] is kept with the other
    capability counters). *)
Record Service := {
  apiKey : string;
  primary : string;
  utility : string;
  genConfig : gmap string Q;
  inputCostPerMToken : float;
  outputCostPerMToken : float
}.

Section Service.
Context `{backend : GenAI}.

(** [GoogleAIService.instance], and the network. *)
Record GeminiEnv := {
  instance : option (ServiceRef * Service);
  net : Net
}.

Definition set_instance (i : option (ServiceRef * Service)) (e : GeminiEnv)
  : GeminiEnv := {| instance := i; net := net e |}.

Definition set_net (n : Net) (e : GeminiEnv) : GeminiEnv :=
  {| instance := instance e; net := n |}.

Definition set_ext (e : GeminiEnv) (w : AIWorld GeminiEnv) : AIWorld GeminiEnv :=
  {| usage := usage w; ext := e |}.

Definition set_usage (svc : ServiceRef) (u : AIUsageStats) (w : AIWorld GeminiEnv)
  : AIWorld GeminiEnv :=
  {| usage := fun r => if decide (r = svc) then u else usage w r; ext := ext w |}.

(** [new GoogleAIService(apiKey, model, subModel)]; [this] names the
    object the [new] expression allocates.  When an instance exists the
    constructor returns it and the new object is dropped.  The prices
    are the binary64 values of the literals [0.15] and [0.60]. *)
#[warnings="-inexact-float"]
Definition new_GoogleAIService (this : ServiceRef) (key model : string)
  (subModel : option string) : M (AIWorld GeminiEnv) ServiceRef :=
  fun w =>
    match instance (ext w) with
    | Some (r, _) => (Ok r, w)
    | None =>
        let s := {| apiKey := key;
                    primary := model;
                    utility := match subModel with
                               | Some sub => if decide (sub = "") then model else sub
                               | None => model
                               end;
                    genConfig := DEFAULT_CONFIG;
                    inputCostPerMToken := 0.15%float;
                    outputCostPerMToken := 0.60%float |} in
        (Ok this, set_ext (set_instance (Some (this, s)) (ext w))
                    (set_usage this zeroUsage w))
    end.

(** The fields of [this] in a method call. *)
Definition getService : M (AIWorld GeminiEnv) Service :=
  fun w => match instance (ext w) with
           | Some (_, s) => (Ok s, w)
           | None => (Throw TypeError, w)
           end.

Definition modifyService (g : Service -> Service) : M (AIWorld GeminiEnv) unit :=
  fun w => match instance (ext w) with
           | Some (r, s) => (Ok tt, set_ext (set_instance (Some (r, g s)) (ext w)) w)
           | None => (Throw TypeError, w)
           end.

Definition setPrimaryModel (model : string) : M (AIWorld GeminiEnv) unit :=
  modifyService (fun s =>
    {| apiKey := apiKey s; primary := model; utility := utility s;
       genConfig := genConfig s; inputCostPerMToken := inputCostPerMToken s;
       outputCostPerMToken := outputCostPerMToken s |}).

Definition setUtilityModel (model : string) : M (AIWorld GeminiEnv) unit :=
  modifyService (fun s =>
    {| apiKey := apiKey s; primary := primary s; utility := model;
       genConfig := genConfig s; inputCostPerMToken := inputCostPerMToken s;
       outputCostPerMToken := outputCostPerMToken s |}).

Definition setGenerationConfig (cfg : gmap string Q) : M (AIWorld GeminiEnv) unit :=
  modifyService (fun s =>
    {| apiKey := apiKey s; primary := primary s; utility := utility s;
       genConfig := cfg; inputCostPerMToken := inputCostPerMToken s;
       outputCostPerMToken := outputCostPerMToken s |}).

Definition setPricing (input output : float) : M (AIWorld GeminiEnv) unit :=
  modifyService (fun s =>
    {| apiKey := apiKey s; primary := primary s; utility := utility s;
       genConfig := genConfig s; inputCostPerMToken := input;
       outputCostPerMToken := output |}).

(** A token count as a JavaScript number: the binary64 value of an
    integer (exact below 2^53; the counts are far below). *)
Definition number (z : Z) : float :=
  match z with
  | Z0 => 0%float
  | Zpos p => of_uint63 (Uint63.of_pos p)
  | Zneg p => (- of_uint63 (Uint63.of_pos p))%float
  end.

(** [calculateCost] (lines 208-213), in binary64 as the code computes it. *)
Definition calculateCost (s : Service) (inputTokens outputTokens : Z) : float :=
  (number inputTokens / 1000000 * inputCostPerMToken s +
   number outputTokens / 1000000 * outputCostPerMToken s)%float.

(** The counters after one more call with the given token counts. *)
Definition counted (s : Service) (tokens : Z * Z) (u : AIUsageStats)
  : AIUsageStats :=
  {| totalCalls := totalCalls u + 1;
     totalInputTokens := totalInputTokens u + fst tokens;
     totalOutputTokens := totalOutputTokens u + snd tokens;
     estimatedCost :=
       (estimatedCost u + calculateCost s (fst tokens) (snd tokens))%float |}.

Definition updateUsage (svc : ServiceRef) (response : GenerateContentResponse)
  : M (AIWorld GeminiEnv) unit :=
  let* s := getService in
  modify (fun w =>
    set_usage svc
      (counted s (default (0, 0)%Z (usageMetadata response)) (usage w svc)) w).

Definition liftNet {A} (m : M Net A) : M (AIWorld GeminiEnv) A :=
  fun w => let '(r, n) := m (net (ext w)) in (r, set_ext (set_net n (ext w)) w).

Definition liftResult {S A} (r : Result A) : M S A := fun s => (r, s).

Definition errorReply : JSRecord := {[ "error" := VStr "AI processing failed" ]}.

Section Methods.
Variable stringify : JSRecord -> string.

(** What [prompt] passes to the library. *)
Definition promptParams (s : Service) : ModelParams :=
  {| mp_model := primary s; mp_generationConfig := DEFAULT_CONFIG |}.

Definition promptRequest (system content instruction : string) (schema : Schema)
  : GenerateRequest :=
  Contents [("model", system); ("user", content); ("user", instruction)] schema.

(** [prompt] (lines 109-142): the model is obtained before the [try]
    block, the request is sent inside it. *)
Definition prompt (svc : ServiceRef) (system content instruction : string)
  (schema : Schema) : M (AIWorld GeminiEnv) AIPromptResponse :=
  let* s := getService in
  let* model := liftNet (getGenerativeModel (apiKey s) (promptParams s)) in
  try_catch
    (let* response :=
       liftNet (generateContent model
                  (promptRequest system content instruction schema)) in
     updateUsage svc response ;;
     let* reply := liftResult (text response) in
     ret (RString reply))
    (fun _ => ret (RString (stringify errorReply))).

Definition newline : string := String (Ascii.ascii_of_nat 10) "".

(** What [generateReasoning] passes to the library. *)
Definition reasoningParams (s : Service) : ModelParams :=
  {| mp_model := utility s;
     mp_generationConfig :=
       <["maxOutputTokens" := 60%Q]> (genConfig s ∪ DEFAULT_CONFIG) |}.

Definition reasoningRequest (system content : string) : GenerateRequest :=
  Texts ["ROLE: " +:+ system +:+ newline +:+ newline +:+ " " +:+ content;
         "In natural language and in character, generate a very short statement that contextualizes the change made."].

(** [generateReasoning] (lines 157-172) *)
Definition generateReasoning (svc : ServiceRef) (system content : string)
  : M (AIWorld GeminiEnv) string :=
  let* s := getService in
  let* model := liftNet (getGenerativeModel (apiKey s) (reasoningParams s)) in
  let* response :=
    liftNet (generateContent model (reasoningRequest system content)) in
  updateUsage svc response ;;
  liftResult (text response).

(** A reply inside a template literal: an array is joined with commas. *)
Definition interpolate (r : AIPromptResponse) : string :=
  match r with
  | RString s => s
  | RArray l => String.concat "," l
  end.

(** The text [promptThinking] asks the reasoning about. *)
Definition added (result : AIPromptResponse) (content : string) : string :=
  "You added: " +:+ interpolate result +:+ " to " +:+ content.

(** [promptThinking] (lines 144-155) *)
Definition promptThinking (svc : ServiceRef) (system content instruction : string)
  (schema : Schema) : M (AIWorld GeminiEnv) AIPromptResponse :=
  let* result := prompt svc system content instruction schema in
  let* reasoning := generateReasoning svc system (added result content) in
  ret (match result with
       | RString s => RArray [s; reasoning]
       | RArray l => RArray (l ++ [reasoning])
       end).

(** [createSchema] on the attributes of an agent. *)
Definition createSchema (svc : ServiceRef) (obj : JSRecord)
  : M (AIWorld GeminiEnv) Schema :=
  ret (objectSchema (map_to_list obj)).

Variable parse : string -> Result JSValue.
Variable depth : nat.

(** The engine over this service. *)
Definition gemini_host : Host :=
  Build_Host GeminiEnv createSchema prompt promptThinking parse stringify depth.

End Methods.
End Service.

End Gemini.

(** * More worlds, and a stub of the generative-AI library *)

Module Cases.
Import Demo.

Section Worlds.
Context `{host : Host}.
Variable env0 : Env.

(** The object a reference names in a store (a blank one when it names
    none), and the branch state of an agent id. *)
Definition agent_in (st : Store) (a : AgentRef) : MogiAgentState :=
  default {| agent_id := "none"; attributes := ∅; history := [] |} (agts st !! a).

Definition process_in (st : Store) (r : ProcRef) : MogiProcess :=
  default {| proc_id := "none"; proc_config := defaultProcessConfig; nodes := [];
             currentNodeIndex := 0; conditional := None |} (procs st !! r).

Definition conditional_in (st : Store) (r : ProcRef) : Conditional :=
  default {| condition := fun _ => true; trueBranch := r; falseBranch := r;
             branchStates := ∅ |} (conditional (process_in st r)).

Definition binding_in (st : Store) (c : ProcRef) (id : MogiAgentID) : BranchState :=
  default {| branch := c; completed := true |}
    (branchStates (conditional_in st c) !! id).

(** The value of a computation that returns. *)
Definition value_of {A} (d : A) (r : Result A) : A :=
  match r with
  | Ok a => a
  | Throw _ => d
  end.

(** Agents [A] (0) and [B] (1) registered over the linear process [L] (0)
    of one node; no run has been initialized. *)
Definition registered_world (reply : string) : World :=
  run_on (addAgent {[ "name" := VStr "ok" ]} "B")
    (run_on (addAgent {[ "name" := VStr "bad" ]} "A")
       (new_world (built env0 (build_linear reply)))).

(** The linear run with a third agent (2) registered after
    [initializeProcess]. *)
Definition latecomer_world : World :=
  run_on (addAgent ∅ "late") (linear_world env0 "{}").

(** Two linear processes that carry the same id: [L] (0) of one node and
    [L] (1) of two.  The first has run to its end with agent [A] (0). *)
Definition build_twins : M Store unit :=
  let* l1 := new_MogiProcess "L" defaultProcessConfig in
  addNode l1 (demo_node "n0" "{}") ;;
  let* l2 := new_MogiProcess "L" defaultProcessConfig in
  addNode l2 (demo_node "m0" "{}") ;;
  addNode l2 (demo_node "m1" "{}").

Definition twins_world : World :=
  stepN 1 (run_on (initializeProcess 0)
             (run_on (addAgent ∅ "A") (new_world (built env0 build_twins)))).

(** The linear run after the program has pushed an id that is not
    registered onto the [activeAgents] array that [getSimulationState]
    handed out. *)
Definition ghost_world : World :=
  let w := linear_world env0 "{}" in
  {| sim := set_currentState
              {| currentProcessId := currentProcessId (currentState (sim w));
                 activeAgents := activeAgents (currentState (sim w)) ++ ["ghost"];
                 nodeIndex := nodeIndex (currentState (sim w));
                 isComplete := isComplete (currentState (sim w)) |} (sim w);
     store := store w |}.

(** The branching scenario after its prefix step and one branch step:
    [A] is bound to [T], whose cursor is at 1. *)
Definition midway_world : World :=
  stepN 2 (run_on (initializeProcess 2) (scenario_world env0)).

End Worlds.

(** A library stub.  There is no model named ["none"]:
    [getGenerativeModel] throws for it.  The model named ["down"] cannot
    be reached; any other model answers [{}] to a prompt and ["because"]
    to a request for reasoning, and reports 10 and 5 tokens. *)
Definition stub_getGenerativeModel (key : string) (params : Gemini.ModelParams)
  : M nat Gemini.ModelParams :=
  fun n =>
    if decide (Gemini.mp_model params = "none")
    then (Throw (Rejected "model"), n)
    else (Ok params, n).

Definition stub_generateContent (params : Gemini.ModelParams)
  (req : Gemini.GenerateRequest) : M nat Gemini.GenerateContentResponse :=
  fun n =>
    if decide (Gemini.mp_model params = "down")
    then (Throw (Rejected "network"), n)
    else (Ok {| Gemini.text := Ok (match req with
                                   | Gemini.Contents _ _ => "{}"
                                   | Gemini.Texts _ => "because"
                                   end);
                Gemini.usageMetadata := Some (10, 5)%Z |}, S n).

Definition stub : Gemini.GenAI :=
  {| Gemini.Net := nat;
     Gemini.GenerativeModel := Gemini.ModelParams;
     Gemini.getGenerativeModel := stub_getGenerativeModel;
     Gemini.generateContent := stub_generateContent |}.

(** Serialization that also shows an [error] attribute, and a parser that
    reads it back. *)
Definition stub_stringify (r : JSRecord) : string :=
  match r !! "error" with
  | Some (VStr s) => "error: " +:+ s
  | _ => demo_stringify r
  end.

Definition stub_parse (s : string) : Result JSValue :=
  if decide (s = "error: AI processing failed")
  then Ok (VObj [("error", VStr "AI processing failed")])
  else demo_parse s.

Definition gemini : Host := @Gemini.gemini_host stub stub_stringify stub_parse 64.

(** The capability side of the world before any service is made, and
    after [new GoogleAIService("key", primary, utility)] has made object 0. *)
Definition no_service : AIWorld (@Gemini.GeminiEnv stub) :=
  {| usage := fun _ => zeroUsage; ext := @Gemini.Build_GeminiEnv stub None 0 |}.

Definition gemini_ai (primary utility : string) : AIWorld (@Gemini.GeminiEnv stub) :=
  snd (@Gemini.new_GoogleAIService stub 0 "key" primary (Some utility) no_service).

(** A store with one agent, [A] (0), over that service. *)
Definition gemini_store (primary utility : string) : @Store gemini :=
  @Build_Store gemini ∅
    {[ 0 := {| agent_id := "A";
               attributes := {[ "name" := VStr "Ann" ]};
               history := [] |} ]}
    (gemini_ai primary utility) [].

Definition gemini_node (chainOfThought : bool) : MogiNode :=
  createMogiNode "g" "g0" 0 "grow" None
    (Some {| opt_appendMessage := None;
             opt_useChainOfThought := chainOfThought |}).

End Cases.

(** * Properties *)

(** ** Running the monad *)

Lemma bind_ok {S A B} (m : M S A) (k : A -> M S B) s a s' :
  m s = (Ok a, s') -> bind m k s = k a s'.
Proof. unfold bind. by intros ->. Qed.

Lemma bind_throw {S A B} (m : M S A) (k : A -> M S B) s e s' :
  m s = (Throw e, s') -> bind m k s = (Throw e, s').
Proof. unfold bind. by intros ->. Qed.

Lemma pure_run {S A} (m : M S A) s : pure m -> m s = (fst (m s), s).
Proof. intros Hm. specialize (Hm s). destruct (m s). simpl in *. by subst. Qed.

(** Run the head of a [bind] with a known outcome. *)
Ltac mrun H :=
  first [ erewrite bind_ok by exact H | erewrite bind_throw by exact H ].

(** ** Node execution *)

Section NodeFacts.
Context `{host : Host}.

(** Unfold one layer of the monad. *)
Ltac munfold :=
  unfold bind, ret, throw, modify, put, get, try_catch, liftAI,
    getProc, getAgent, putProc, putAgent in *.

(** The request to the capability touches only the capability side. *)
Lemma promptResponse_frame n a st :
  exists w, snd (promptResponse n a st) = set_ai w st.
Proof.
  destruct st as [ps ags w0 ev].
  unfold promptResponse, set_ai. munfold. simpl.
  repeat (case_match; simplify_eq/=); eexists; reflexivity.
Qed.

(** [execute] in terms of the outcome of the request. *)
Lemma MogiNode_execute_eq n a st :
  MogiNode_execute n a st =
  match promptResponse n a st with
  | (Ok response, st1) =>
      match agts st1 !! a with
      | Some x =>
          (Ok tt, set_agts (insert a (applied n (parseAIReponse response) x)) st1)
      | None => (Ok tt, st1)
      end
  | (Throw _, st1) => (Ok tt, st1)
  end.
Proof.
  unfold MogiNode_execute, handler, applyChanges. munfold.
  destruct (promptResponse n a st) as [[r|e] st1]; simpl; [|done].
  by destruct (agts st1 !! a).
Qed.

(** [execute] never throws; it leaves the store as it was up to the
    capability side, or applies one change set to the agent. *)
Lemma MogiNode_execute_cases n a st :
  exists w,
    MogiNode_execute n a st = (Ok tt, set_ai w st) \/
    exists x response,
      agts st !! a = Some x /\
      MogiNode_execute n a st =
        (Ok tt, set_agts (insert a (applied n (parseAIReponse response) x))
                  (set_ai w st)).
Proof.
  rewrite MogiNode_execute_eq.
  destruct (promptResponse_frame n a st) as [w Hw].
  destruct (promptResponse n a st) as [[r|e] st1]; simpl in Hw; subst st1.
  - exists w. simpl. destruct (agts st !! a) as [x|] eqn:E.
    + right. by exists x, r.
    + by left.
  - exists w. by left.
Qed.

Lemma MogiNode_execute_run n a st :
  MogiNode_execute n a st = (Ok tt, snd (MogiNode_execute n a st)) /\
  procs (snd (MogiNode_execute n a st)) = procs st /\
  evals (snd (MogiNode_execute n a st)) = evals st.
Proof.
  destruct (MogiNode_execute_cases n a st) as [w [E|(x & r & _ & E)]];
    by rewrite E.
Qed.

Lemma linearRound_procs n ags st :
  procs (linearRound n ags st) = procs st /\
  evals (linearRound n ags st) = evals st.
Proof.
  unfold linearRound. revert st. induction ags as [|a ags IH]; intros st; [done|].
  simpl. destruct (MogiNode_execute_run n a st) as (E & Hp & He).
  erewrite bind_ok by exact E.
  destruct (IH (snd (MogiNode_execute n a st))) as [-> ->]. done.
Qed.

(** A failed request is swallowed: nothing but the capability side moves. *)
Lemma MogiNode_execute_failed n a st e st1 :
  handler n a st = (Throw e, st1) ->
  MogiNode_execute n a st = (Ok tt, st1) /\
  agts st1 = agts st /\ procs st1 = procs st /\ evals st1 = evals st.
Proof.
  intros Hh. rewrite MogiNode_execute_eq.
  unfold handler, bind, ret in Hh.
  destruct (promptResponse_frame n a st) as [w Hw].
  destruct (promptResponse n a st) as [[r|e'] st']; simpl in *; [done|].
  simplify_eq. done.
Qed.

(** A successful request applies its change set to a live agent. *)
Lemma MogiNode_execute_applied n a st chg st1 x :
  handler n a st = (Ok chg, st1) ->
  agts st !! a = Some x ->
  MogiNode_execute n a st = (Ok tt, set_agts (insert a (applied n chg x)) st1) /\
  agts st1 = agts st /\ procs st1 = procs st /\ evals st1 = evals st.
Proof.
  intros Hh Hx. rewrite MogiNode_execute_eq.
  unfold handler, bind, ret in Hh.
  destruct (promptResponse_frame n a st) as [w Hw].
  destruct (promptResponse n a st) as [[r|e'] st']; simpl in *; [|done].
  simplify_eq. simpl. by rewrite Hx.
Qed.

(** The loop of a linear step never throws and touches no process. *)
Lemma linear_round_ok n ags w :
  exists st',
    forM ags tt (fun a _ => liftStore (MogiNode_execute n a)) w =
      (Ok tt, {| sim := sim w; store := st' |}) /\
    procs st' = procs (store w) /\ evals st' = evals (store w).
Proof.
  revert w. induction ags as [|a ags IH]; intros w.
  { exists (store w). by destruct w. }
  simpl. unfold bind at 1. unfold liftStore at 1.
  destruct (MogiNode_execute_cases n a (store w)) as [w' [E|(x & r & _ & E)]];
    rewrite E; simpl;
    match goal with |- context [forM ags tt _ ?w1] =>
      destruct (IH w1) as (st' & -> & Hp & He) end;
    exists st'; simpl in *; by rewrite Hp, He.
Qed.

End NodeFacts.

(** ** How process execution moves the store *)

Section Frames.
Context `{host : Host}.

Lemma same_shape_eq st st' : procs st' = procs st -> same_shape st st'.
Proof. intros E r. by rewrite E. Qed.

Lemma same_shape_refl st : same_shape st st.
Proof. by apply same_shape_eq. Qed.

Lemma same_shape_trans st1 st2 st3 :
  same_shape st1 st2 -> same_shape st2 st3 -> same_shape st1 st3.
Proof. intros H1 H2 r. by rewrite H2, H1. Qed.

Lemma shape_conditional p p' cnd :
  shape p' = shape p -> conditional p = Some cnd ->
  exists cnd', conditional p' = Some cnd' /\
    trueBranch cnd' = trueBranch cnd /\ falseBranch cnd' = falseBranch cnd /\
    condition cnd' = condition cnd.
Proof.
  unfold shape. intros Hs Hc. rewrite Hc in Hs.
  destruct (conditional p') as [cnd'|]; simplify_eq/=. by exists cnd'.
Qed.

Lemma shape_linear p p' :
  shape p' = shape p -> conditional p = None -> conditional p' = None.
Proof.
  unfold shape. intros Hs Hc. rewrite Hc in Hs.
  by destruct (conditional p'); simplify_eq/=.
Qed.

Lemma agents_grow_eq st st' : agts st' = agts st -> agents_grow st st'.
Proof. intros E a x Hx. exists x. by rewrite E. Qed.

Lemma agents_grow_refl st : agents_grow st st.
Proof. by apply agents_grow_eq. Qed.

Lemma agents_grow_trans st1 st2 st3 :
  agents_grow st1 st2 -> agents_grow st2 st3 -> agents_grow st1 st3.
Proof.
  intros H1 H2 a x Hx.
  destruct (H1 a x Hx) as (x2 & Hx2 & Hid2 & Hh2).
  destruct (H2 a x2 Hx2) as (x3 & Hx3 & Hid3 & Hh3).
  exists x3. split_and!; [done|congruence|by etrans].
Qed.

#[global] Instance evolves_preorder : PreOrder evolves.
Proof.
  split.
  - intros st. split_and!; [apply same_shape_refl|apply agents_grow_refl|done].
  - intros st1 st2 st3 (S1 & A1 & E1) (S2 & A2 & E2). split_and!.
    + by eapply same_shape_trans.
    + by eapply agents_grow_trans.
    + by etrans.
Qed.

(** *** Composition rules *)

Section Rules.
Context {S : Type} (P : S -> S -> Prop) `{!PreOrder P}.

Lemma preserves_ret {A} (a : A) : preserves P (ret a).
Proof. intros st. simpl. reflexivity. Qed.

Lemma preserves_throw {A} e : preserves P (@throw S A e).
Proof. intros st. simpl. reflexivity. Qed.

Lemma preserves_pure {A} (m : M S A) : pure m -> preserves P m.
Proof. intros Hm st. rewrite Hm. reflexivity. Qed.

Lemma preserves_bind {A B} (m : M S A) (k : A -> M S B) :
  preserves P m -> (forall a, preserves P (k a)) -> preserves P (bind m k).
Proof.
  intros Hm Hk st. unfold bind. specialize (Hm st).
  destruct (m st) as [[a|e] st1]; simpl in *; [|done].
  etrans; [exact Hm|apply Hk].
Qed.

Lemma preserves_forM {A B} (l : list A) (acc : B) (body : A -> B -> M S B) :
  (forall x b, preserves P (body x b)) -> preserves P (forM l acc body).
Proof.
  intros Hb. revert acc. induction l as [|x l IH]; intros acc; simpl.
  - apply preserves_ret.
  - apply preserves_bind; [apply Hb|apply IH].
Qed.

End Rules.

(** *** Primitive moves *)

Lemma getProc_pure r : pure (getProc r).
Proof. intros st. unfold getProc. by destruct (procs st !! r). Qed.

Lemma getAgent_pure a : pure (getAgent a).
Proof. intros st. unfold getAgent. by destruct (agts st !! a). Qed.

Lemma getCond_pure c : pure (getCond c).
Proof.
  intros st. unfold getCond, bind, getProc, ret, throw.
  destruct (procs st !! c) as [p|]; [|done]. by destruct (conditional p).
Qed.

(** Rewriting a process object without touching its shape. *)
Lemma update_evolves st r p p' :
  procs st !! r = Some p -> shape p' = shape p ->
  evolves st (set_procs (insert r p') st).
Proof.
  intros Hr Hs. split_and!; [|by apply agents_grow_eq|done].
  intros r'. simpl. destruct (decide (r = r')) as [<-|Hne].
  - rewrite lookup_insert_eq, Hr. simpl. by rewrite Hs.
  - by rewrite lookup_insert_ne.
Qed.

Lemma MogiProcess_resetExecution_evolves r :
  preserves evolves (MogiProcess_resetExecution r).
Proof.
  intros st. unfold MogiProcess_resetExecution, bind, getProc, putProc, modify.
  destruct (procs st !! r) as [p|] eqn:E; simpl; [|reflexivity].
  by eapply update_evolves.
Qed.

Lemma putCond_evolves c f :
  (forall cnd, trueBranch (f cnd) = trueBranch cnd /\
               falseBranch (f cnd) = falseBranch cnd /\
               condition (f cnd) = condition cnd) ->
  preserves evolves (putCond c f).
Proof.
  intros Hf st. unfold putCond, bind, getProc, putProc, modify, throw.
  destruct (procs st !! c) as [p|] eqn:E; simpl; [|reflexivity].
  destruct (conditional p) as [cnd|] eqn:Ec; simpl; [|reflexivity].
  eapply update_evolves; [done|].
  unfold shape. simpl. rewrite Ec. simpl.
  destruct (Hf cnd) as (-> & -> & ->). done.
Qed.

Lemma MogiNode_execute_evolves n a : preserves evolves (MogiNode_execute n a).
Proof.
  intros st.
  destruct (MogiNode_execute_cases n a st) as [w [E|(x & r & Hx & E)]];
    rewrite E; simpl.
  - split_and!; [by apply same_shape_eq|by apply agents_grow_eq|done].
  - split_and!; [by apply same_shape_eq| |done].
    intros a' x' Hx'. simpl. destruct (decide (a = a')) as [<-|Hne].
    + rewrite lookup_insert_eq. eexists. split; [done|].
      simplify_eq. simpl. split; [done|]. by apply prefix_app_r.
    + rewrite lookup_insert_ne by done. by exists x'.
Qed.

Lemma log_eval_evolves c id : preserves evolves (modify (log_eval c id)).
Proof.
  intros st. simpl.
  split_and!; [by apply same_shape_eq|by apply agents_grow_eq|].
  simpl. by apply prefix_app_r.
Qed.

(** *** The methods of a process *)

Ltac frame_step :=
  first
    [ apply preserves_ret; tc_solve
    | apply preserves_throw; tc_solve
    | apply preserves_pure; [tc_solve|first [apply getProc_pure|apply getAgent_pure|apply getCond_pure]]
    | apply MogiNode_execute_evolves
    | apply MogiProcess_resetExecution_evolves
    | apply log_eval_evolves
    | apply putCond_evolves; intros; done
    | apply preserves_bind; [tc_solve| |intros]
    | apply preserves_forM; [tc_solve|intros]
    | progress case_match ].

Lemma putProc_index_evolves r i :
  preserves evolves (let* this := getProc r in putProc r (set_index i this)).
Proof.
  intros st. unfold bind, getProc, putProc, modify.
  destruct (procs st !! r) as [p|] eqn:E; simpl; [|reflexivity].
  by eapply update_evolves.
Qed.

Lemma bump_index_evolves r :
  preserves evolves
    (let* this := getProc r in putProc r (set_index (S (currentNodeIndex this)) this)).
Proof.
  intros st. unfold bind, getProc, putProc, modify.
  destruct (procs st !! r) as [p|] eqn:E; simpl; [|reflexivity].
  by eapply update_evolves.
Qed.

Lemma executeAgentStep_evolves r a : preserves evolves (executeAgentStep r a).
Proof.
  unfold executeAgentStep.
  apply preserves_bind; [tc_solve|apply preserves_pure, getProc_pure; tc_solve|].
  intros this. repeat case_match; try (repeat frame_step; fail).
  apply preserves_bind; [tc_solve|apply MogiNode_execute_evolves|intros _].
  intros st. unfold bind, getProc, putProc, modify, ret.
  destruct (procs st !! r) as [p|] eqn:E; simpl; [|reflexivity].
  by eapply update_evolves.
Qed.

Lemma resetExecution_at_evolves d r : preserves evolves (resetExecution_at d r).
Proof.
  revert r. induction d as [|d IH]; intros r; simpl.
  - apply preserves_throw; tc_solve.
  - repeat frame_step; apply IH.
Qed.

Lemma conditionalAgentStep_evolves c a hm :
  preserves evolves (conditionalAgentStep c a hm).
Proof.
  unfold conditionalAgentStep.
  repeat first
    [ apply resetExecution_at_evolves
    | apply executeAgentStep_evolves
    | frame_step ].
Qed.

Lemma executeConditionalStep_evolves c ags :
  preserves evolves (executeConditionalStep c ags).
Proof.
  unfold executeConditionalStep.
  apply preserves_bind; [tc_solve| |intros hm].
  { apply preserves_forM; [tc_solve|]. intros. apply conditionalAgentStep_evolves. }
  intros st. unfold bind, getProc, putProc, modify, ret.
  destruct (procs st !! c) as [p|] eqn:E; simpl; [|reflexivity].
  case_match; simpl; [|reflexivity]. by eapply update_evolves.
Qed.

End Frames.

(** ** The orchestrator *)

Section SimFacts.
Context `{host : Host}.

Lemma findProcess_pure pid l : pure (findProcess pid l).
Proof.
  intros st. induction l as [|r l IH]; simpl; [done|].
  unfold bind, getProc. destruct (procs st !! r) as [p|]; [|done].
  by case_decide.
Qed.

(** Which process [find] returns depends on the shapes only. *)
Lemma findProcess_shape pid l st st' :
  same_shape st st' -> fst (findProcess pid l st') = fst (findProcess pid l st).
Proof.
  intros Hs. induction l as [|r l IH]; simpl; [done|].
  unfold bind, getProc. specialize (Hs r).
  destruct (procs st !! r) as [p|], (procs st' !! r) as [p'|];
    simpl in Hs; try done.
  assert (proc_id p' = proc_id p) as -> by (unfold shape in Hs; congruence).
  case_decide; [done|].
  pose proof (findProcess_pure pid l st) as E1.
  pose proof (findProcess_pure pid l st') as E2.
  destruct (findProcess pid l st), (findProcess pid l st'). by simplify_eq/=.
Qed.

Lemma getAgentState_pure id : pure (getAgentState id).
Proof.
  intros w. unfold getAgentState, bind, getSim.
  by destruct (Map_get id (agents (sim w))).
Qed.

Lemma mapM_getAgentState_pure ids : pure (mapM getAgentState ids).
Proof.
  intros w. induction ids as [|id ids IH]; simpl; [done|].
  unfold bind. pose proof (getAgentState_pure id w) as E.
  destruct (getAgentState id w) as [[a|e] w1]; simpl in E; subst w1; [|done].
  destruct (mapM getAgentState ids w) as [[l|e] w1]; simpl in IH; by subst w1.
Qed.

(** The agents a step works on are read off the simulation's own fields. *)
Lemma mapM_getAgentState_sim ids w w' :
  sim w' = sim w ->
  fst (mapM getAgentState ids w') = fst (mapM getAgentState ids w).
Proof.
  intros Es. induction ids as [|id ids IH]; simpl; [done|].
  unfold bind.
  pose proof (getAgentState_pure id w) as E1.
  pose proof (getAgentState_pure id w') as E2.
  assert (fst (getAgentState id w') = fst (getAgentState id w)) as E3.
  { unfold getAgentState, bind, getSim. rewrite Es.
    by destruct (Map_get id (agents (sim w))). }
  destruct (getAgentState id w) as [[a|e] w1],
           (getAgentState id w') as [[a'|e'] w1']; simplify_eq/=; [|done].
  pose proof (mapM_getAgentState_pure ids w) as E4.
  pose proof (mapM_getAgentState_pure ids w') as E5.
  destruct (mapM getAgentState ids w) as [[l|e] w1],
           (mapM getAgentState ids w') as [[l'|e'] w1']; by simplify_eq/=.
Qed.

Lemma getAIServices_at_pure d r : pure (getAIServices_at d r).
Proof.
  revert r. induction d as [|d IH]; intros r st; simpl; [done|].
  unfold bind, getProc. destruct (procs st !! r) as [p|]; [|done].
  destruct (conditional p) as [cnd|]; [|done].
  pose proof (IH (trueBranch cnd) st) as E1.
  destruct (getAIServices_at d (trueBranch cnd) st) as [[t|e] st1];
    simpl in E1; subst st1; [|done].
  pose proof (IH (falseBranch cnd) st) as E2.
  destruct (getAIServices_at d (falseBranch cnd) st) as [[f|e] st1];
    simpl in E2; by subst st1.
Qed.

(** A step on a completed run does nothing. *)
Lemma executeStep_complete w :
  isComplete (currentState (sim w)) = true -> executeStep w = (Ok false, w).
Proof. intros Hc. unfold executeStep, bind, getSim. by rewrite Hc. Qed.

(** A step whose current process is conditional is the conditional step:
    the simulation's own fields stay as they are. *)
Lemma executeStep_conditional w r p cnd :
  fst (findProcess (currentProcessId (currentState (sim w)))
         (processes (sim w)) (store w)) = Ok (Some r) ->
  procs (store w) !! r = Some p ->
  conditional p = Some cnd ->
  exists ags_or_err,
    fst (mapM getAgentState (activeAgents (currentState (sim w))) w) = ags_or_err /\
    executeStep w =
      if isComplete (currentState (sim w)) then (Ok false, w)
      else match ags_or_err with
           | Ok ags =>
               let '(res, st') := executeConditionalStep r ags (store w) in
               (res, {| sim := sim w; store := st' |})
           | Throw e => (Throw e, w)
           end.
Proof.
  intros Hf Hr Hc. eexists. split; [reflexivity|].
  destruct (isComplete (currentState (sim w))) eqn:Hic.
  { by rewrite executeStep_complete. }
  assert (forall A (m : M Store A) st, pure m ->
            liftStore m {| sim := sim w; store := st |} =
              (fst (m st), {| sim := sim w; store := st |})) as Hlift.
  { intros A m st Hm. unfold liftStore. simpl. rewrite (pure_run m st Hm). done. }
  destruct w as [sm st]. simpl in *.
  unfold executeStep.
  erewrite bind_ok by reflexivity. simpl. rewrite Hic.
  erewrite bind_ok; [|rewrite Hlift by apply findProcess_pure; by rewrite Hf].
  cbv beta iota.
  erewrite bind_ok; [|rewrite Hlift by apply getProc_pure;
                      unfold getProc; by rewrite Hr].
  cbv beta iota. rewrite Hc.
  pose proof (pure_run _ {| sim := sm; store := st |}
    (mapM_getAgentState_pure (activeAgents (currentState sm)))) as Ea.
  destruct (fst (mapM getAgentState _ _)) as [ags|e].
  - erewrite bind_ok by exact Ea. done.
  - erewrite bind_throw by exact Ea. done.
Qed.

#[global] Instance same_store_preorder : PreOrder same_store.
Proof.
  split; [by intros w|]. intros w1 w2 w3. unfold same_store. congruence.
Qed.

Lemma modifySim_same_store f : preserves same_store (modifySim f).
Proof. by intros w. Qed.

Lemma liftStore_same_store {A} (m : M Store A) :
  pure m -> preserves same_store (liftStore m).
Proof.
  intros Hm w. unfold same_store, liftStore.
  specialize (Hm (store w)). by destruct (m (store w)).
Qed.

(** [initializeProcess] only reads the store. *)
Lemma initializeProcess_store process w :
  store (snd (initializeProcess process w)) = store w.
Proof.
  revert w. change (preserves same_store (initializeProcess process)).
  unfold initializeProcess, trackAIService.
  repeat first
    [ apply modifySim_same_store
    | apply liftStore_same_store;
        first [apply getProc_pure|apply getAIServices_at_pure]
    | apply preserves_pure; [tc_solve|by intros w]
    | apply preserves_bind; [tc_solve| |intros]
    | apply preserves_forM; [tc_solve|intros] ].
Qed.

Lemma forM_modifySim {A} (g : MogiSimulation -> A -> MogiSimulation) l w :
  forM l tt (fun x _ => modifySim (fun s => g s x)) w =
    (Ok tt, {| sim := foldl g (sim w) l; store := store w |}).
Proof.
  revert w. induction l as [|x l IH]; intros w; simpl.
  - by destruct w.
  - erewrite bind_ok by reflexivity. by rewrite IH.
Qed.

Lemma foldl_track_fields s l :
  currentState (foldl track s l) = currentState s /\
  agents (foldl track s l) = agents s /\
  processes (foldl track s l) = processes s /\
  globalUsage (foldl track s l) = globalUsage s /\
  executionQueue (foldl track s l) = executionQueue s.
Proof.
  revert s. induction l as [|x l IH]; intros s; simpl; [done|].
  destruct (IH (track s x)) as (-> & -> & -> & -> & ->).
  unfold track. by case_decide.
Qed.

Lemma foldl_enqueue_fields pid s l :
  currentState (foldl (enqueue pid) s l) = currentState s /\
  agents (foldl (enqueue pid) s l) = agents s /\
  processes (foldl (enqueue pid) s l) = processes s /\
  globalUsage (foldl (enqueue pid) s l) = globalUsage s /\
  aiServices (foldl (enqueue pid) s l) = aiServices s.
Proof.
  revert s. induction l as [|x l IH]; intros s; simpl; [done|].
  by destruct (IH (enqueue pid s x)) as (-> & -> & -> & -> & ->).
Qed.

(** [initializeProcess] on a live process whose capabilities can be
    enumerated. *)
Lemma initializeProcess_eq process w p services :
  procs (store w) !! process = Some p ->
  fst (getAIServices process (store w)) = Ok services ->
  initializeProcess process w =
    (Ok tt, {| sim := initialized process (proc_id p) services (sim w);
               store := store w |}).
Proof.
  intros Hp Hs. destruct w as [sm st]. simpl in *.
  unfold initializeProcess.
  erewrite bind_ok; [|unfold liftStore, getProc; simpl; by rewrite Hp].
  cbv beta iota.
  erewrite bind_ok by reflexivity.
  erewrite bind_ok by reflexivity.
  erewrite bind_ok.
  2: { unfold liftStore, getAIServices in *. simpl.
       rewrite (pure_run _ st (getAIServices_at_pure stack_limit process)).
       by rewrite Hs. }
  cbv beta iota.
  erewrite bind_ok.
  2: { unfold trackAIService.
       apply (forM_modifySim (fun s x => if decide (x ∈ aiServices s) then s
                else set_aiServices (aiServices s ++ [x]) s)). }
  erewrite bind_ok by reflexivity.
  erewrite bind_ok by reflexivity.
  cbv beta iota.
  rewrite (forM_modifySim (enqueue (proc_id p))). simpl.
  unfold initialized. simpl.
  change (fun (s : MogiSimulation) (x : ServiceRef) =>
            if decide (x ∈ aiServices s) then s
            else set_aiServices (aiServices s ++ [x]) s) with track.
  by destruct (foldl_track_fields
    (set_executionQueue [] (set_currentState
       {| currentProcessId := Some (proc_id p); activeAgents := (agents sm).*1;
          nodeIndex := 0; isComplete := false |} sm)) services) as (-> & _).
Qed.

Lemma initializeProcess_inv process w0 w :
  initializeProcess process w0 = (Ok tt, w) ->
  exists p services,
    procs (store w0) !! process = Some p /\
    fst (getAIServices process (store w0)) = Ok services /\
    w = {| sim := initialized process (proc_id p) services (sim w0);
           store := store w0 |}.
Proof.
  intros Hi.
  destruct (procs (store w0) !! process) as [p|] eqn:Hp.
  2: { unfold initializeProcess in Hi.
       erewrite bind_throw in Hi; [done|].
       unfold liftStore, getProc. by rewrite Hp. }
  destruct (fst (getAIServices process (store w0))) as [services|e] eqn:Hs.
  - exists p, services. rewrite (initializeProcess_eq _ _ p services) in Hi by done.
    by simplify_eq.
  - unfold initializeProcess in Hi.
    erewrite bind_ok in Hi; [|unfold liftStore, getProc; by rewrite Hp].
    cbv beta iota in Hi.
    erewrite bind_ok in Hi by reflexivity.
    erewrite bind_ok in Hi by reflexivity.
    erewrite bind_throw in Hi; [done|].
    unfold liftStore, getAIServices in *. simpl.
    rewrite (pure_run _ (store w0) (getAIServices_at_pure stack_limit process)).
    by rewrite Hs.
Qed.

Lemma initialized_currentState process pid services s :
  currentState (initialized process pid services s) =
    {| currentProcessId := Some pid; activeAgents := fst <$> agents s;
       nodeIndex := 0; isComplete := false |}.
Proof.
  unfold initialized.
  destruct (foldl_enqueue_fields pid
    (set_processes
       (processes (foldl track (set_executionQueue [] (set_currentState
          {| currentProcessId := Some pid; activeAgents := (agents s).*1;
             nodeIndex := 0; isComplete := false |} s)) services) ++ [process])
       (foldl track (set_executionQueue [] (set_currentState
          {| currentProcessId := Some pid; activeAgents := (agents s).*1;
             nodeIndex := 0; isComplete := false |} s)) services))
    (fst <$> agents s)) as (E & _).
  simpl in *. rewrite E.
  by destruct (foldl_track_fields (set_executionQueue [] (set_currentState
          {| currentProcessId := Some pid; activeAgents := (agents s).*1;
             nodeIndex := 0; isComplete := false |} s)) services) as (-> & _).
Qed.

Lemma executeStep_conditional_frame w r p cnd :
  fst (findProcess (currentProcessId (currentState (sim w)))
         (processes (sim w)) (store w)) = Ok (Some r) ->
  procs (store w) !! r = Some p ->
  conditional p = Some cnd ->
  sim (snd (executeStep w)) = sim w /\
  evolves (store w) (store (snd (executeStep w))).
Proof.
  intros Hf Hr Hc.
  destruct (executeStep_conditional w r p cnd Hf Hr Hc) as (x & _ & ->).
  destruct (isComplete (currentState (sim w))); [split; [done|reflexivity]|].
  destruct x as [ags|e]; [|split; [done|reflexivity]].
  pose proof (executeConditionalStep_evolves r ags (store w)) as He.
  by destruct (executeConditionalStep r ags (store w)).
Qed.

Lemma findProcess_none pid l st :
  Forall (fun r => exists p, procs st !! r = Some p /\ Some (proc_id p) <> pid) l ->
  findProcess pid l st = (Ok None, st).
Proof.
  induction 1 as [|r l (p & Hp & Hne) _ IH]; simpl; [done|].
  erewrite bind_ok; [|unfold getProc; by rewrite Hp].
  by rewrite decide_False.
Qed.

Lemma linearRound_eq n ags w :
  forM ags tt (fun a _ => liftStore (MogiNode_execute n a)) w =
    (Ok tt, {| sim := sim w; store := linearRound n ags (store w) |}).
Proof.
  unfold linearRound. revert w. induction ags as [|a ags IH]; intros w; simpl.
  { by destruct w. }
  destruct (MogiNode_execute_run n a (store w)) as (E & _).
  erewrite bind_ok; [|unfold liftStore; by rewrite E].
  erewrite (bind_ok _ _ (store w)) by exact E.
  by rewrite IH.
Qed.

(** A step on a linear process that has a node at the run cursor. *)
Lemma executeStep_linear w r p n ags :
  isComplete (currentState (sim w)) = false ->
  fst (findProcess (currentProcessId (currentState (sim w)))
         (processes (sim w)) (store w)) = Ok (Some r) ->
  procs (store w) !! r = Some p ->
  conditional p = None ->
  nodes p !! nodeIndex (currentState (sim w)) = Some n ->
  fst (mapM getAgentState (activeAgents (currentState (sim w))) w) = Ok ags ->
  executeStep w =
    (Ok (S (nodeIndex (currentState (sim w))) <? length (nodes p)),
     {| sim := set_currentState
                 (advanced (length (nodes p)) (currentState (sim w))) (sim w);
        store := linearRound n ags (store w) |}).
Proof.
  intros Hic Hf Hr Hc Hn Ha.
  assert (forall A (m : M Store A) sm st, pure m ->
            liftStore m {| sim := sm; store := st |} =
              (fst (m st), {| sim := sm; store := st |})) as Hlift.
  { intros A m sm st Hm. unfold liftStore. simpl. rewrite (pure_run m st Hm). done. }
  destruct w as [sm st]. simpl in *.
  unfold executeStep.
  erewrite bind_ok by reflexivity. simpl. rewrite Hic.
  erewrite bind_ok; [|rewrite Hlift by apply findProcess_pure; by rewrite Hf].
  cbv beta iota.
  erewrite bind_ok; [|rewrite Hlift by apply getProc_pure;
                      unfold getProc; by rewrite Hr].
  cbv beta iota. rewrite Hc, Hn.
  erewrite bind_ok.
  2: { rewrite (pure_run _ _ (mapM_getAgentState_pure _)). by rewrite Ha. }
  erewrite bind_ok by apply linearRound_eq.
  erewrite bind_ok by reflexivity.
  erewrite bind_ok by reflexivity. simpl.
  erewrite bind_ok.
  2: { rewrite Hlift by apply getProc_pure. unfold getProc.
       destruct (linearRound_procs n ags st) as [-> _]. by rewrite Hr. }
  unfold advanced. simpl.
  destruct (length (nodes p) <=? S (nodeIndex (currentState sm))) eqn:Hle.
  - erewrite bind_ok by reflexivity. erewrite bind_ok by reflexivity. simpl.
    apply Nat.leb_le in Hle. rewrite (proj2 (Nat.ltb_ge _ _) Hle). done.
  - erewrite bind_ok by reflexivity. erewrite bind_ok by reflexivity. simpl.
    apply Nat.leb_gt in Hle. rewrite (proj2 (Nat.ltb_lt _ _) Hle).
    unfold ret, set_nodeIndex. by rewrite Hic.
Qed.

(** C3, where the code departs from it: on a linear process without
    nodes the step reads [nodes[0]], which is [undefined].  With a
    registered agent the call throws a [TypeError] instead of returning
    [false]; without agents it returns [false] with the run cursor moved
    past the node count. *)
Theorem executeStep_on_empty_process w r p ags :
  isComplete (currentState (sim w)) = false ->
  fst (findProcess (currentProcessId (currentState (sim w)))
         (processes (sim w)) (store w)) = Ok (Some r) ->
  procs (store w) !! r = Some p ->
  conditional p = None ->
  nodes p = [] ->
  fst (mapM getAgentState (activeAgents (currentState (sim w))) w) = Ok ags ->
  match ags with
  | _ :: _ => executeStep w = (Throw TypeError, w)
  | [] =>
      exists w', executeStep w = (Ok false, w') /\
        isComplete (currentState (sim w')) = true /\
        nodeIndex (currentState (sim w')) = S (nodeIndex (currentState (sim w))) /\
        length (nodes p) < nodeIndex (currentState (sim w'))
  end.
Proof.
  intros Hic Hf Hr Hc Hn Ha.
  assert (forall A (m : M Store A) sm st, pure m ->
            liftStore m {| sim := sm; store := st |} =
              (fst (m st), {| sim := sm; store := st |})) as Hlift.
  { intros A m sm st Hm. unfold liftStore. simpl. rewrite (pure_run m st Hm). done. }
  destruct w as [sm st]. simpl in *.
  unfold executeStep.
  erewrite bind_ok by reflexivity. cbn [sim]. rewrite Hic.
  erewrite bind_ok; [|rewrite Hlift by apply findProcess_pure; by rewrite Hf].
  cbv beta iota.
  erewrite bind_ok; [|rewrite Hlift by apply getProc_pure;
                      unfold getProc; by rewrite Hr].
  cbv beta iota. rewrite Hc, Hn, lookup_nil.
  erewrite bind_ok.
  2: { rewrite (pure_run _ _ (mapM_getAgentState_pure _)). by rewrite Ha. }
  destruct ags as [|a ags]; cbn [forM].
  - eexists. split.
    { erewrite bind_ok by reflexivity.
      erewrite bind_ok by reflexivity.
      erewrite bind_ok by reflexivity. cbn [sim store].
      erewrite bind_ok; [|rewrite Hlift by apply getProc_pure;
                          unfold getProc; by rewrite Hr].
      cbv beta iota. rewrite Hn. cbn [length Nat.leb].
      erewrite bind_ok by reflexivity.
      erewrite bind_ok by reflexivity. reflexivity. }
    simpl. split_and!; [done|done|lia].
  - erewrite bind_throw; [reflexivity|].
    erewrite bind_throw; reflexivity.
Qed.

(** C8: a call of [executeStep] on a run that is already complete, or for
    which no registered process carries the current process id, returns
    [false] and throws nothing; it leaves the store alone and the run
    marked complete. *)
Theorem executeStep_invalid_state_no_work w :
  isComplete (currentState (sim w)) = true \/
  Forall (fun r => exists p, procs (store w) !! r = Some p /\
                     Some (proc_id p) <> currentProcessId (currentState (sim w)))
    (processes (sim w)) ->
  exists w', executeStep w = (Ok false, w') /\
             store w' = store w /\
             isComplete (currentState (sim w')) = true.
Proof.
  intros Hcase.
  destruct (isComplete (currentState (sim w))) eqn:Hic.
  { exists w. by rewrite executeStep_complete. }
  destruct Hcase as [?|Hnone]; [done|].
  unfold executeStep.
  erewrite bind_ok by reflexivity. rewrite Hic.
  erewrite bind_ok; [|unfold liftStore; by rewrite (findProcess_none _ _ _ Hnone)].
  cbv beta iota.
  erewrite bind_ok by reflexivity.
  eexists. split; [reflexivity|]. done.
Qed.

(** C9: when the current process is a [MogiConditionalProcess], no call of
    [executeStep] touches the simulation's run state: after
    [initializeProcess] and any number of steps -- also past the one that
    returns [false] -- [nodeIndex] is still 0 and [isComplete] still
    [false]. *)
Theorem conditional_run_leaves_run_state process w0 w r p cnd k :
  initializeProcess process w0 = (Ok tt, w) ->
  fst (findProcess (currentProcessId (currentState (sim w)))
         (processes (sim w)) (store w)) = Ok (Some r) ->
  procs (store w) !! r = Some p ->
  conditional p = Some cnd ->
  sim (stepN k w) = sim w /\
  nodeIndex (currentState (sim (stepN k w))) = 0 /\
  isComplete (currentState (sim (stepN k w))) = false.
Proof.
  intros Hi Hf Hr Hc.
  assert (sim (stepN k w) = sim w /\ same_shape (store w) (store (stepN k w)))
    as [Hs _].
  { induction k as [|k [IHs IHe]]; [split; [done|apply same_shape_refl]|].
    unfold stepN in *. simpl.
    set (wk := Nat.iter k (fun w => snd (executeStep w)) w) in *.
    pose proof (IHe r) as Hrk. rewrite Hr in Hrk.
    destruct (procs (store wk) !! r) as [pk|] eqn:Hpk; [|done].
    destruct (shape_conditional p pk cnd) as (cndk & Hck & _);
      [change (Some (shape pk) = Some (shape p)) in Hrk; congruence|done|].
    destruct (executeStep_conditional_frame wk r pk cndk) as [E1 (E2 & _)];
      [|done|done|].
    { rewrite IHs. by rewrite (findProcess_shape _ _ _ _ IHe). }
    split; [congruence|]. by eapply same_shape_trans. }
  rewrite Hs. split; [done|].
  destruct (initializeProcess_inv _ _ _ Hi) as (p0 & svcs & _ & _ & ->).
  simpl. by rewrite initialized_currentState.
Qed.

(** Frame of [initializeProcess]: it never writes to the store, so
    the cursor of every process and the branch bindings of every
    conditional process are after it what they were before it. *)
Lemma initializeProcess_keeps_processes process w c :
  procs (store (snd (initializeProcess process w))) !! c = procs (store w) !! c /\
  (forall id, bound (store (snd (initializeProcess process w))) c id =
              bound (store w) c id).
Proof. by rewrite initializeProcess_store. Qed.

End SimFacts.

(** ** Usage statistics *)

Section UsageFacts.
Context `{host : Host}.

(** What every reachable simulation satisfies: the aggregate of its own
    is never written to except with zeros, and a capability instance is
    tracked at most once. *)
Lemma usage_inv_track s service :
  globalUsage s = zeroUsage /\ NoDup (aiServices s) ->
  globalUsage (track s service) = zeroUsage /\ NoDup (aiServices (track s service)).
Proof.
  intros [Hg Hn]. unfold track. case_decide; [done|]. simpl. split; [done|].
  apply NoDup_app. split_and!; [done| |apply NoDup_singleton].
  intros x Hx Hx'. apply list_elem_of_singleton in Hx'. by subst.
Qed.

Lemma getAIUsage_eq w :
  getAIUsage w =
    (Ok (foldl (fun acc service => addUsage acc (usage (ai (store w)) service))
           (globalUsage (sim w)) (aiServices (sim w))), w).
Proof.
  unfold getAIUsage. erewrite bind_ok by reflexivity.
  generalize (globalUsage (sim w)).
  induction (aiServices (sim w)) as [|x l IH]; intros acc; simpl; [done|].
  erewrite bind_ok; [apply IH|].
  erewrite bind_ok; [reflexivity|]. unfold liftStore, getUsageStats. by destruct w.
Qed.

Lemma resetLoop_eq l w :
  exists u,
    forM l tt (fun service _ => liftStore (resetUsageStats service)) w =
      (Ok tt, {| sim := sim w;
                 store := set_ai {| usage := u; ext := ext (ai (store w)) |} (store w) |}) /\
    forall r, u r = if decide (r ∈ l) then zeroUsage else usage (ai (store w)) r.
Proof.
  revert w. induction l as [|x l IH]; intros w; simpl.
  - exists (usage (ai (store w))). split; [|done].
    destruct w as [s [ps ag [u e] ev]]. done.
  - pose (w1 := (liftStore (resetUsageStats x) w).2).
    rewrite (bind_ok _ _ w tt w1) by reflexivity.
    destruct (IH w1) as (u & -> & Hu).
    exists u. split; [done|]. intros r. rewrite Hu. simpl.
    destruct (decide (r = x)) as [->|Hne].
    + rewrite (decide_True (P := (x ∈ x :: l))) by left.
      by case_decide.
    + destruct (decide (r ∈ l)) as [Hin|Hnin].
      * rewrite decide_True; [done|by right].
      * rewrite decide_False; [done|]. by intros [?|?]%elem_of_cons.
Qed.

Lemma foldl_addUsage_zero (u : ServiceRef -> AIUsageStats) l :
  (forall r, r ∈ l -> u r = zeroUsage) ->
  foldl (fun acc service => addUsage acc (u service)) zeroUsage l = zeroUsage.
Proof.
  induction l as [|x l IH]; intros Hz; simpl; [done|].
  rewrite (Hz x) by left. apply IH. intros r Hr. apply Hz. by right.
Qed.

(** The running total of the [reduce], field by field. *)
Lemma foldl_addUsage_fields (u : ServiceRef -> AIUsageStats) l acc :
  let t := foldl (fun acc service => addUsage acc (u service)) acc l in
  totalCalls t = (totalCalls acc + foldr (fun r a => totalCalls (u r) + a) 0 l)%Z /\
  totalInputTokens t =
    (totalInputTokens acc + foldr (fun r a => totalInputTokens (u r) + a) 0 l)%Z /\
  totalOutputTokens t =
    (totalOutputTokens acc + foldr (fun r a => totalOutputTokens (u r) + a) 0 l)%Z /\
  estimatedCost t =
    foldl (fun c r => (c + estimatedCost (u r))%float) (estimatedCost acc) l.
Proof.
  revert acc. induction l as [|x l IH]; intros acc; simpl.
  - split_and!; try lia. done.
  - destruct (IH (addUsage acc (u x))) as (E1 & E2 & E3 & E4).
    simpl in *. rewrite E1, E2, E3, E4. split_and!; try lia. done.
Qed.

Lemma sumCounter_list f (u : ServiceRef -> AIUsageStats) l :
  NoDup l ->
  sumCounter f u (list_to_set l) = foldr (fun r a => (f (u r) + a)%Z) 0%Z l.
Proof.
  intros Hn. unfold sumCounter.
  apply (foldr_permutation_proper (=)).
  - by intros x a b ->.
  - intros; lia.
  - by apply elements_list_to_set.
Qed.

#[local] Instance keeps_usage_inv_preorder : PreOrder keeps_usage_inv.
Proof.
  split; [intros w Hi; exact Hi|].
  intros w1 w2 w3 H1 H2 Hi. apply H2, H1, Hi.
Qed.

Lemma modifySim_keeps f :
  (forall s, usage_inv s -> usage_inv (f s)) ->
  preserves keeps_usage_inv (modifySim f).
Proof. intros Hf w Hi. simpl. by apply Hf. Qed.

Lemma liftStore_keeps {A} (m : M Store A) : preserves keeps_usage_inv (liftStore m).
Proof. intros w Hi. unfold liftStore. by destruct (m (store w)). Qed.

Ltac keeps_step :=
  first
    [ apply liftStore_keeps
    | apply modifySim_keeps; intros ? ?; first [done|by apply usage_inv_track]
    | apply preserves_pure;
        [tc_solve|first [apply mapM_getAgentState_pure|by intros ?]]
    | apply preserves_ret; tc_solve
    | apply preserves_throw; tc_solve
    | apply preserves_bind; [tc_solve| |intros]
    | apply preserves_forM; [tc_solve|intros]
    | progress case_match ].

Lemma addAgent_keeps attrs id : preserves keeps_usage_inv (addAgent attrs id).
Proof. unfold addAgent. repeat keeps_step. Qed.

Lemma initializeProcess_keeps process :
  preserves keeps_usage_inv (initializeProcess process).
Proof. unfold initializeProcess, trackAIService. repeat keeps_step. Qed.

Lemma executeStep_keeps : preserves keeps_usage_inv executeStep.
Proof. unfold executeStep. repeat keeps_step. Qed.

Lemma resetAIUsage_keeps : preserves keeps_usage_inv resetAIUsage.
Proof.
  unfold resetAIUsage. repeat keeps_step.
  apply modifySim_keeps. by intros s [_ Hn].
Qed.

Lemma reachable_usage_inv w : reachable w -> usage_inv (sim w).
Proof.
  induction 1 as [cfg st|w attrs id _ IH|w p _ IH|w _ IH|w _ IH|w _ IH|w f _ IH
                  |w cs _ IH].
  - split; [done|apply NoDup_nil_2].
  - by apply addAgent_keeps.
  - by apply initializeProcess_keeps.
  - by apply executeStep_keeps.
  - by rewrite getAIUsage_eq.
  - by apply resetAIUsage_keeps.
  - done.
  - done.
Qed.

(** C7: in every world a simulation can reach, [getAIUsage] changes
    nothing and returns, for each of the three integer counters, the sum
    of that counter over the set of tracked capability instances, and as
    estimated cost the binary64 sum of their costs, each instance once,
    added to 0 from left to right in the order in which the instances
    were first tracked: the cost is a rounded sum, and a function of that
    order, not of the set.  Right after [resetAIUsage] it returns all
    zeros. *)
Theorem getAIUsage_sums_tracked_services w :
  reachable w ->
  exists u,
    getAIUsage w = (Ok u, w) /\
    let X : gset ServiceRef := list_to_set (aiServices (sim w)) in
    let stats := usage (ai (store w)) in
    totalCalls u = sumCounter totalCalls stats X /\
    totalInputTokens u = sumCounter totalInputTokens stats X /\
    totalOutputTokens u = sumCounter totalOutputTokens stats X /\
    NoDup (aiServices (sim w)) /\
    estimatedCost u = sumCost stats (aiServices (sim w)) /\
    fst (getAIUsage (snd (resetAIUsage w))) = Ok zeroUsage.
Proof.
  intros Hr. destruct (reachable_usage_inv w Hr) as [Hg Hn].
  rewrite getAIUsage_eq. eexists. split; [reflexivity|]. simpl.
  destruct (foldl_addUsage_fields (usage (ai (store w))) (aiServices (sim w))
              (globalUsage (sim w))) as (E1 & E2 & E3 & E4).
  rewrite Hg in *. simpl in *.
  rewrite !sumCounter_list by done.
  rewrite E1, E2, E3, E4. split_and!; try done.
  unfold resetAIUsage. erewrite bind_ok by reflexivity.
  destruct (resetLoop_eq (aiServices (sim w)) w) as (u & Hl & Hu).
  erewrite bind_ok by exact Hl. unfold modifySim. simpl.
  rewrite getAIUsage_eq. simpl. f_equal.
  apply foldl_addUsage_zero. intros r Hin. rewrite Hu. by rewrite decide_True.
Qed.

End UsageFacts.

(** ** Stepping through a process *)

Section ProcessFacts.
Context `{host : Host}.

Lemma getProc_eq st r p : procs st !! r = Some p -> getProc r st = (Ok p, st).
Proof. unfold getProc. by intros ->. Qed.

Lemma getAgent_eq st a x : agts st !! a = Some x -> getAgent a st = (Ok x, st).
Proof. unfold getAgent. by intros ->. Qed.

Lemma getCond_eq st c p cnd :
  procs st !! c = Some p -> conditional p = Some cnd ->
  getCond c st = (Ok cnd, st).
Proof.
  intros Hp Hc. unfold getCond. erewrite bind_ok by by apply getProc_eq.
  by rewrite Hc.
Qed.

Lemma putCond_eq st c p cnd f :
  procs st !! c = Some p -> conditional p = Some cnd ->
  putCond c f st =
    (Ok tt, set_procs (insert c (set_conditional (Some (f cnd)) p)) st).
Proof.
  intros Hp Hc. unfold putCond. erewrite bind_ok by by apply getProc_eq.
  by rewrite Hc.
Qed.

Lemma MogiProcess_resetExecution_eq st r p :
  procs st !! r = Some p ->
  MogiProcess_resetExecution r st =
    (Ok tt, set_procs (insert r (set_index 0 p)) st).
Proof.
  intros Hp. unfold MogiProcess_resetExecution.
  by erewrite bind_ok by by apply getProc_eq.
Qed.

(** The virtual [resetExecution] on a plain [MogiProcess]. *)
Lemma resetExecution_linear st r p :
  0 < stack_limit ->
  procs st !! r = Some p -> conditional p = None ->
  resetExecution r st = (Ok tt, set_procs (insert r (set_index 0 p)) st).
Proof.
  intros Hd Hp Hc. unfold resetExecution.
  destruct stack_limit as [|d]; [lia|]. simpl.
  erewrite bind_ok by by apply getProc_eq. rewrite Hc.
  by apply MogiProcess_resetExecution_eq.
Qed.

(** A step of a process that has nodes left: the node at the cursor runs
    for the agent and the cursor moves on by one. *)
Lemma executeAgentStep_more st r p n a :
  procs st !! r = Some p ->
  nodes p !! currentNodeIndex p = Some n ->
  executeAgentStep r a st =
    (Ok true,
     set_procs (insert r (set_index (S (currentNodeIndex p)) p))
       (snd (MogiNode_execute n a st))).
Proof.
  intros Hp Hn. unfold executeAgentStep.
  erewrite bind_ok by by apply getProc_eq.
  apply lookup_lt_Some in Hn as Hlt.
  rewrite (proj2 (Nat.ltb_lt _ _) Hlt), Hn.
  destruct (MogiNode_execute_run n a st) as (E & Hps & _).
  erewrite bind_ok by exact E.
  erewrite bind_ok; [|apply getProc_eq; by rewrite Hps].
  by erewrite bind_ok by reflexivity.
Qed.

(** A step of an exhausted process does nothing. *)
Lemma executeAgentStep_done st r p a :
  procs st !! r = Some p ->
  length (nodes p) <= currentNodeIndex p ->
  executeAgentStep r a st = (Ok false, st).
Proof.
  intros Hp Hle. unfold executeAgentStep.
  erewrite bind_ok by by apply getProc_eq.
  by rewrite (proj2 (Nat.ltb_ge _ _) Hle).
Qed.

(** *** The cases of the loop body of [executeConditionalStep] *)

(** In the shared prefix the agent runs the node at the cursor. *)
Lemma conditionalAgentStep_prefix st c pc n a hm :
  procs st !! c = Some pc ->
  nodes pc !! currentNodeIndex pc = Some n ->
  conditionalAgentStep c a hm st = (Ok true, snd (MogiNode_execute n a st)).
Proof.
  intros Hp Hn. unfold conditionalAgentStep.
  erewrite bind_ok by by apply getProc_eq.
  apply lookup_lt_Some in Hn as Hlt.
  rewrite (proj2 (Nat.ltb_lt _ _) Hlt), Hn.
  destruct (MogiNode_execute_run n a st) as (E & _).
  by erewrite bind_ok by exact E.
Qed.

(** A bound agent whose branch has a node left runs it. *)
Lemma conditionalAgentStep_more st c pc cnd a x bs pb n hm :
  procs st !! c = Some pc ->
  length (nodes pc) <= currentNodeIndex pc ->
  conditional pc = Some cnd ->
  agts st !! a = Some x ->
  branchStates cnd !! agent_id x = Some bs ->
  completed bs = false ->
  branch bs <> c ->
  procs st !! branch bs = Some pb ->
  nodes pb !! currentNodeIndex pb = Some n ->
  conditionalAgentStep c a hm st =
    (Ok true,
     set_procs
       (insert c (with_branchState (agent_id x)
                    {| branch := branch bs; completed := false |} cnd pc))
       (set_procs (insert (branch bs) (set_index (S (currentNodeIndex pb)) pb))
          (snd (MogiNode_execute n a st)))).
Proof.
  intros Hp Hle Hc Hx Hbs Hnc Hne Hpb Hn. unfold conditionalAgentStep.
  erewrite bind_ok by by apply getProc_eq.
  rewrite (proj2 (Nat.ltb_ge _ _) Hle).
  erewrite bind_ok by by apply getAgent_eq.
  erewrite bind_ok by by eapply getCond_eq.
  rewrite Hbs. erewrite bind_ok by reflexivity.
  erewrite bind_ok by by eapply getCond_eq.
  rewrite Hbs, Hnc.
  erewrite bind_ok by by eapply executeAgentStep_more.
  destruct (MogiNode_execute_run n a st) as (_ & Hps & _).
  erewrite bind_ok.
  2: { eapply putCond_eq; [|exact Hc]. simpl.
       rewrite lookup_insert_ne by done. by rewrite Hps. }
  done.
Qed.

(** A bound agent whose branch is exhausted is marked completed. *)
Lemma conditionalAgentStep_exhausted st c pc cnd a x bs pb hm :
  procs st !! c = Some pc ->
  length (nodes pc) <= currentNodeIndex pc ->
  conditional pc = Some cnd ->
  agts st !! a = Some x ->
  branchStates cnd !! agent_id x = Some bs ->
  completed bs = false ->
  procs st !! branch bs = Some pb ->
  length (nodes pb) <= currentNodeIndex pb ->
  conditionalAgentStep c a hm st =
    (Ok hm,
     set_procs
       (insert c (with_branchState (agent_id x)
                    {| branch := branch bs; completed := true |} cnd pc)) st).
Proof.
  intros Hp Hle Hc Hx Hbs Hnc Hpb Hle'. unfold conditionalAgentStep.
  erewrite bind_ok by by apply getProc_eq.
  rewrite (proj2 (Nat.ltb_ge _ _) Hle).
  erewrite bind_ok by by apply getAgent_eq.
  erewrite bind_ok by by eapply getCond_eq.
  rewrite Hbs. erewrite bind_ok by reflexivity.
  erewrite bind_ok by by eapply getCond_eq.
  rewrite Hbs, Hnc.
  erewrite bind_ok by by eapply executeAgentStep_done.
  by erewrite bind_ok by by eapply putCond_eq.
Qed.

(** An agent whose branch is completed is passed over. *)
Lemma conditionalAgentStep_completed st c pc cnd a x bs hm :
  procs st !! c = Some pc ->
  length (nodes pc) <= currentNodeIndex pc ->
  conditional pc = Some cnd ->
  agts st !! a = Some x ->
  branchStates cnd !! agent_id x = Some bs ->
  completed bs = true ->
  conditionalAgentStep c a hm st = (Ok hm, st).
Proof.
  intros Hp Hle Hc Hx Hbs Hnc. unfold conditionalAgentStep.
  erewrite bind_ok by by apply getProc_eq.
  rewrite (proj2 (Nat.ltb_ge _ _) Hle).
  erewrite bind_ok by by apply getAgent_eq.
  erewrite bind_ok by by eapply getCond_eq.
  rewrite Hbs. erewrite bind_ok by reflexivity.
  erewrite bind_ok by by eapply getCond_eq.
  by rewrite Hbs, Hnc.
Qed.

(** An unbound agent is first bound to the branch its predicate selects;
    a plain process as branch is rewound on the way.  From there the step
    goes on as for a bound agent. *)
Lemma conditionalAgentStep_bind st c pc cnd a x pb hm :
  let b := if condition cnd x then trueBranch cnd else falseBranch cnd in
  0 < stack_limit ->
  procs st !! c = Some pc ->
  length (nodes pc) <= currentNodeIndex pc ->
  conditional pc = Some cnd ->
  agts st !! a = Some x ->
  branchStates cnd !! agent_id x = None ->
  b <> c ->
  procs st !! b = Some pb ->
  conditional pb = None ->
  conditionalAgentStep c a hm st =
    conditionalAgentStep c a hm (bind_agent c pc cnd (agent_id x) b pb st).
Proof.
  intros b Hd Hp Hle Hc Hx Hbs Hne Hpb Hlin.
  set (st3 := bind_agent c pc cnd (agent_id x) b pb st).
  assert (procs st3 !! c =
    Some (with_branchState (agent_id x) {| branch := b; completed := false |} cnd pc))
    as Hp3 by (unfold st3, bind_agent; simpl; by rewrite lookup_insert_eq).
  unfold conditionalAgentStep.
  erewrite bind_ok by by apply getProc_eq.
  erewrite (bind_ok _ _ st3) by by apply getProc_eq.
  simpl. rewrite (proj2 (Nat.ltb_ge _ _) Hle).
  erewrite bind_ok by by apply getAgent_eq.
  erewrite (bind_ok _ _ st3) by by apply getAgent_eq.
  erewrite bind_ok by by eapply getCond_eq.
  erewrite (bind_ok _ _ st3) by by eapply getCond_eq.
  simpl. rewrite Hbs, lookup_insert_eq.
  erewrite (bind_ok _ _ st3) by reflexivity.
  erewrite bind_ok.
  2: { erewrite bind_ok by reflexivity.
       erewrite bind_ok by by apply resetExecution_linear.
       eapply putCond_eq; [|exact Hc]. simpl. by rewrite lookup_insert_ne. }
  done.
Qed.

(** C2: while a process has nodes left, [executeAgentStep] moves its one
    cursor on by exactly one, whichever agent is passed.  A branch of a
    conditional process is such a process, shared by the agents bound to
    it: when a further agent is bound to a branch that bound agents have
    already advanced, the binding rewinds that cursor, so that after the
    newcomer's first step it stands at 1 for all of them, and the other
    agents' bindings still point to the same branch. *)
Theorem branch_cursor_is_shared st b pb :
  procs st !! b = Some pb ->
  currentNodeIndex pb < length (nodes pb) ->
  (forall a, exists st',
      executeAgentStep b a st = (Ok true, st') /\
      procs st' = <[b := set_index (S (currentNodeIndex pb)) pb]> (procs st)) /\
  (forall c pc cnd a x hm,
      0 < stack_limit ->
      procs st !! c = Some pc ->
      length (nodes pc) <= currentNodeIndex pc ->
      conditional pc = Some cnd ->
      conditional pb = None ->
      b <> c ->
      agts st !! a = Some x ->
      branchStates cnd !! agent_id x = None ->
      (if condition cnd x then trueBranch cnd else falseBranch cnd) = b ->
      exists st',
        conditionalAgentStep c a hm st = (Ok true, st') /\
        bound st' c (agent_id x) = Some b /\
        (forall id, id <> agent_id x -> bound st' c id = bound st c id) /\
        currentNodeIndex <$> procs st' !! b = Some 1).
Proof.
  intros Hpb Hlt. split.
  - intros a. destruct (lookup_lt_is_Some_2 _ _ Hlt) as [n Hn].
    eexists. split; [by eapply executeAgentStep_more|].
    simpl. by destruct (MogiNode_execute_run n a st) as (_ & -> & _).
  - intros c pc cnd a x hm Hd Hpc Hle Hc Hlin Hne Hx Hbs Hsel.
    assert (0 < length (nodes pb)) as Hpos by lia.
    destruct (lookup_lt_is_Some_2 _ _ Hpos) as [n0 Hn0].
    rewrite (conditionalAgentStep_bind st c pc cnd a x pb hm);
      try rewrite Hsel; try done.
    eexists. split.
    + eapply (conditionalAgentStep_more _ c
                (with_branchState (agent_id x)
                   {| branch := b; completed := false |} cnd pc)
                (set_branchStates
                   (<[agent_id x := {| branch := b; completed := false |}]>
                      (branchStates cnd)) cnd)
                a x {| branch := b; completed := false |} (set_index 0 pb) n0);
        simpl; try done.
      * by rewrite lookup_insert_eq.
      * by rewrite lookup_insert_eq.
      * rewrite lookup_insert_ne by done. by rewrite lookup_insert_eq.
    + match goal with |- context [MogiNode_execute ?n ?a ?s] =>
        destruct (MogiNode_execute_run n a s) as (_ & Hps & _) end.
      unfold bound. simpl. split_and!.
      * rewrite lookup_insert_eq. simpl. by rewrite lookup_insert_eq.
      * intros id Hid. rewrite lookup_insert_eq, Hpc. simpl. rewrite Hc. simpl.
        by rewrite !lookup_insert_ne.
      * rewrite lookup_insert_ne by done. by rewrite lookup_insert_eq.
Qed.

End ProcessFacts.

(** ** Branch choice is sticky *)

Section Sticky.
Context `{host : Host}.
Variable rk : ProcRef -> nat.

Lemma ranked_same_shape st st' :
  same_shape st st' -> ranked rk st -> ranked rk st'.
Proof.
  intros Hs Hr r p' Hp'. specialize (Hs r). rewrite Hp' in Hs.
  destruct (procs st !! r) as [p|] eqn:Hp; [|done].
  specialize (Hr r p Hp). simpl in Hr.
  assert (shape p' = shape p) as E by (simpl in Hs; congruence).
  unfold rank_ok in *. destruct (conditional p) as [cnd|] eqn:Hc.
  - destruct (shape_conditional p p' cnd E Hc) as (cnd' & -> & -> & -> & _). done.
  - by rewrite (shape_linear p p' E Hc).
Qed.

Lemma ranked_branches st c pc cnd :
  ranked rk st -> procs st !! c = Some pc -> conditional pc = Some cnd ->
  rk (trueBranch cnd) < rk c /\ rk (falseBranch cnd) < rk c.
Proof.
  intros Hr Hp Hc. specialize (Hr c pc Hp). simpl in Hr.
  unfold rank_ok in Hr. rewrite Hc in Hr.
  apply andb_true_iff in Hr as [H1 H2].
  by apply bool_decide_eq_true in H1, H2.
Qed.

#[local] Instance keeps_bindings_preorder : PreOrder keeps_bindings.
Proof.
  split; [by intros st|].
  intros st1 st2 st3 [H1 E1] [H2 E2]. split; [|congruence].
  intros r. by rewrite H2, H1.
Qed.

Lemma keeps_bindings_eq st st' :
  procs st' = procs st -> evals st' = evals st -> keeps_bindings st st'.
Proof. intros E1 E2. split; [|done]. intros r. by rewrite E1. Qed.

Lemma MogiNode_execute_keeps n a : preserves keeps_bindings (MogiNode_execute n a).
Proof.
  intros st. destruct (MogiNode_execute_run n a st) as (_ & E1 & E2).
  by apply keeps_bindings_eq.
Qed.

Lemma executeAgentStep_keeps r a : preserves keeps_bindings (executeAgentStep r a).
Proof.
  intros st. unfold executeAgentStep.
  destruct (procs st !! r) as [p|] eqn:Hp.
  2: { erewrite bind_throw by (unfold getProc; by rewrite Hp). reflexivity. }
  erewrite bind_ok by by apply getProc_eq.
  case_match; [|reflexivity]. case_match; [|reflexivity].
  destruct (MogiNode_execute_run m a st) as (E & Hps & Hev).
  erewrite bind_ok by exact E.
  erewrite bind_ok; [|apply getProc_eq; by rewrite Hps].
  erewrite bind_ok by reflexivity. simpl. split; [|done].
  intros r'. simpl. rewrite Hps. destruct (decide (r = r')) as [<-|Hne].
  - by rewrite lookup_insert_eq, Hp.
  - by rewrite lookup_insert_ne.
Qed.

(** Rewinding a process touches nothing ranked above it, and evaluates
    no predicate. *)
Lemma resetExecution_at_above d b st :
  ranked rk st ->
  (forall r, rk b < rk r ->
     procs (snd (resetExecution_at d b st)) !! r = procs st !! r) /\
  evals (snd (resetExecution_at d b st)) = evals st.
Proof.
  revert b st. induction d as [|d IH]; intros b st Hrk; [done|]. simpl.
  destruct (procs st !! b) as [p|] eqn:Hp.
  2: { erewrite bind_throw by (unfold getProc; by rewrite Hp). done. }
  erewrite bind_ok by by apply getProc_eq.
  destruct (conditional p) as [cnd|] eqn:Hc.
  2: { rewrite (MogiProcess_resetExecution_eq _ _ p) by done. simpl.
       split; [|done]. intros r Hlt. rewrite lookup_insert_ne; [done|].
       intros ->. lia. }
  erewrite bind_ok by by apply MogiProcess_resetExecution_eq.
  set (st1 := set_procs (insert b (set_index 0 p)) st).
  set (p2 := set_conditional (Some (set_branchStates ∅ cnd)) (set_index 0 p)).
  erewrite bind_ok.
  2: { eapply (putCond_eq st1 b (set_index 0 p) cnd); [|done].
       simpl. by rewrite lookup_insert_eq. }
  set (st2 := set_procs (insert b p2) st1).
  assert (procs st2 !! b = Some p2) as Hp2 by (simpl; by rewrite lookup_insert_eq).
  assert (forall r, r <> b -> procs st2 !! r = procs st !! r) as Hst2.
  { intros r Hne. simpl. by rewrite !lookup_insert_ne. }
  assert (same_shape st st2) as Hshape.
  { intros r. destruct (decide (r = b)) as [->|Hne].
    - rewrite Hp2, Hp. simpl. f_equal. unfold shape. simpl. by rewrite Hc.
    - by rewrite Hst2. }
  assert (ranked rk st2) as Hrk2 by by eapply ranked_same_shape.
  destruct (ranked_branches st b p cnd Hrk Hp Hc) as [Ht Hf].
  erewrite bind_ok by by eapply getCond_eq.
  simpl trueBranch.
  destruct (IH (trueBranch cnd) st2 Hrk2) as [Ha3 He3].
  pose proof (resetExecution_at_evolves d (trueBranch cnd) st2) as (Hs3 & _).
  destruct (resetExecution_at d (trueBranch cnd) st2) as [[[]|e] st3] eqn:E3;
    simpl in *.
  2: { erewrite bind_throw by exact E3. simpl. split; [|done].
       intros r Hlt. rewrite Ha3 by lia. apply Hst2. intros ->. lia. }
  erewrite bind_ok by exact E3.
  erewrite bind_ok.
  2: { eapply (getCond_eq st3 b p2); [|done]. rewrite Ha3 by lia. done. }
  simpl falseBranch.
  assert (ranked rk st3) as Hrk3 by by eapply ranked_same_shape.
  destruct (IH (falseBranch cnd) st3 Hrk3) as [Ha4 He4].
  split; [|congruence].
  intros r Hlt. rewrite Ha4, Ha3 by lia. apply Hst2. intros ->. lia.
Qed.

Lemma bound_keeps st st' c id :
  conditional <$> procs st' !! c = conditional <$> procs st !! c ->
  bound st' c id = bound st c id.
Proof.
  intros E. unfold bound.
  destruct (procs st' !! c) as [p'|], (procs st !! c) as [p|]; simpl in *;
    try done.
  injection E as E. by rewrite E.
Qed.

Lemma bound_with_branchState st c pc cnd idx bs id :
  bound (set_procs (insert c (with_branchState idx bs cnd pc)) st) c id =
    if decide (idx = id) then Some (branch bs)
    else branch <$> branchStates cnd !! id.
Proof.
  unfold bound. simpl. rewrite lookup_insert_eq. simpl.
  case_decide as E; [subst; by rewrite lookup_insert_eq|].
  by rewrite lookup_insert_ne.
Qed.

Lemma bound_lookup st c pc cnd id :
  procs st !! c = Some pc -> conditional pc = Some cnd ->
  bound st c id = branch <$> branchStates cnd !! id.
Proof. intros Hp Hc. unfold bound. rewrite Hp. simpl. by rewrite Hc. Qed.

Lemma sticky_same st st' c :
  (forall id, bound st' c id = bound st c id) -> evals st' = evals st ->
  sticky c st st'.
Proof.
  intros Hb He. split; [intros id b; by rewrite Hb|].
  exists []. by rewrite app_nil_r.
Qed.

#[local] Instance ranked_sticky_preorder c : PreOrder (ranked_sticky rk c).
Proof.
  split.
  - intros st Hr. split; [done|]. by apply sticky_same.
  - intros st1 st2 st3 H12 H23 Hr1.
    destruct (H12 Hr1) as (Hr2 & Hb12 & l12 & He12 & Hl12).
    destruct (H23 Hr2) as (Hr3 & Hb23 & l23 & He23 & Hl23).
    split; [done|]. split; [by auto|].
    exists (l12 ++ l23). split; [by rewrite He23, He12, app_assoc|].
    apply Forall_app. split; [done|].
    eapply Forall_impl; [exact Hl23|]. intros [c' id] [Hc Hn]. split; [done|].
    simpl in *. destruct (bound st1 c id) as [b|] eqn:Hb; [|done].
    by rewrite (Hb12 id b Hb) in Hn.
Qed.

(** The loop body of [executeConditionalStep] keeps the bindings sticky. *)
Lemma conditionalAgentStep_sticky c a hm :
  preserves (ranked_sticky rk c) (conditionalAgentStep c a hm).
Proof.
  intros st Hrk. split.
  { eapply ranked_same_shape; [|done]. apply conditionalAgentStep_evolves. }
  unfold conditionalAgentStep.
  destruct (procs st !! c) as [pc|] eqn:Hpc.
  2: { erewrite bind_throw by (unfold getProc; by rewrite Hpc).
       by apply sticky_same. }
  erewrite bind_ok by by apply getProc_eq.
  destruct (currentNodeIndex pc <? length (nodes pc)).
  { destruct (nodes pc !! currentNodeIndex pc) as [n|]; [|by apply sticky_same].
    destruct (MogiNode_execute_run n a st) as (E & Hps & Hev).
    erewrite bind_ok by exact E. simpl.
    apply sticky_same; [|done]. intros id. apply bound_keeps. by rewrite Hps. }
  destruct (agts st !! a) as [x|] eqn:Hx.
  2: { erewrite bind_throw by (unfold getAgent; by rewrite Hx).
       by apply sticky_same. }
  erewrite bind_ok by by apply getAgent_eq.
  destruct (conditional pc) as [cnd|] eqn:Hc.
  2: { erewrite bind_throw.
       2: { unfold getCond. erewrite bind_ok by by apply getProc_eq.
            by rewrite Hc. }
       by apply sticky_same. }
  erewrite bind_ok by by eapply getCond_eq.
  destruct (branchStates cnd !! agent_id x) as [bs|] eqn:Hbs.
  - (* already bound *)
    erewrite bind_ok by reflexivity.
    erewrite bind_ok by by eapply getCond_eq.
    rewrite Hbs. destruct (completed bs); [by apply sticky_same|].
    pose proof (executeAgentStep_keeps (branch bs) a st) as [Hk He].
    destruct (executeAgentStep (branch bs) a st) as [[has|e] st1] eqn:Es;
      simpl in *.
    2: { erewrite bind_throw by exact Es. simpl.
         apply sticky_same; [|done]. intros id. by apply bound_keeps. }
    erewrite bind_ok by exact Es.
    pose proof (Hk c) as Hkc. rewrite Hpc in Hkc.
    destruct (procs st1 !! c) as [pc1|] eqn:Hpc1; [|done].
    assert (conditional pc1 = Some cnd) as Hc1 by (simpl in Hkc; congruence).
    erewrite bind_ok by by eapply putCond_eq. simpl.
    apply sticky_same; [|done]. intros id.
    change (bound
      (set_procs (insert c (with_branchState (agent_id x)
         {| branch := branch bs; completed := negb has |} cnd pc1)) st1) c id =
      bound st c id).
    rewrite bound_with_branchState, (bound_lookup st c pc cnd) by done.
    case_decide; [subst; by rewrite Hbs|done].
  - (* first entry: evaluate the predicate and bind *)
    set (b := if condition cnd x then trueBranch cnd else falseBranch cnd).
    set (st1 := log_eval c (agent_id x) st).
    assert (ranked rk st1) as Hrk1 by done.
    assert (rk b < rk c) as Hlt.
    { destruct (ranked_branches st c pc cnd Hrk Hpc Hc). unfold b.
      by destruct (condition cnd x). }
    destruct (resetExecution_at_above stack_limit b st1 Hrk1) as [Hab Hev2].
    pose proof (resetExecution_at_evolves stack_limit b st1) as (Hsh2 & _).
    specialize (Hab c Hlt).
    assert (Forall (fun e : ProcRef * MogiAgentID =>
                      e.1 = c /\ bound st c e.2 = None) [(c, agent_id x)]) as Hl.
    { apply Forall_singleton. split; [done|]. simpl.
      by rewrite (bound_lookup st c pc cnd), Hbs. }
    destruct (resetExecution_at stack_limit b st1) as [[[]|e] st2] eqn:E2;
      simpl in *.
    2: { erewrite bind_throw.
         2: { erewrite bind_ok by reflexivity.
              erewrite bind_throw; [reflexivity|exact E2]. }
         simpl. split.
         - intros id b0 Hb0. rewrite <- Hb0. apply bound_keeps. by rewrite Hab.
         - exists [(c, agent_id x)]. by rewrite Hev2. }
    set (pc3 := with_branchState (agent_id x)
                  {| branch := b; completed := false |} cnd pc).
    set (st3 := set_procs (insert c pc3) st2).
    erewrite bind_ok.
    2: { erewrite bind_ok by reflexivity.
         erewrite bind_ok by exact E2.
         eapply (putCond_eq st2 c pc cnd); [|done]. by rewrite Hab. }
    fold pc3. fold st3.
    assert (forall id, bound st c id <> None -> bound st3 c id = bound st c id)
      as Hb3.
    { intros id Hid. unfold st3, pc3.
      rewrite bound_with_branchState, (bound_lookup st c pc cnd) by done.
      case_decide as E; [|done]. subst id.
      by rewrite (bound_lookup st c pc cnd), Hbs in Hid. }
    erewrite bind_ok.
    2: { eapply (getCond_eq st3 c pc3); [|reflexivity].
         unfold st3. simpl. by rewrite lookup_insert_eq. }
    cbn [branchStates set_branchStates]. rewrite lookup_insert_eq.
    cbn [completed branch].
    pose proof (executeAgentStep_keeps b a st3) as [Hk He].
    destruct (executeAgentStep b a st3) as [[has|e] st4] eqn:Es; simpl in *.
    2: { erewrite bind_throw by exact Es. simpl. split.
         - intros id b0 Hb0. rewrite <- Hb0.
           rewrite <- Hb3 by by rewrite Hb0. by apply bound_keeps.
         - exists [(c, agent_id x)]. by rewrite He, Hev2. }
    erewrite bind_ok by exact Es.
    pose proof (Hk c) as Hkc. rewrite lookup_insert_eq in Hkc.
    destruct (procs st4 !! c) as [pc4|] eqn:Hpc4; [|done].
    assert (conditional pc4 = conditional pc3) as Hc4
      by (unfold pc3 in *; simpl in *; congruence).
    erewrite bind_ok.
    2: { eapply (putCond_eq st4 c pc4); [done|]. rewrite Hc4. reflexivity. }
    simpl. split.
    + intros id b0 Hb0.
      match goal with |- bound ?s c id = _ =>
        change s with (set_procs (insert c (with_branchState (agent_id x)
          {| branch := b; completed := negb has |}
          (set_branchStates (<[agent_id x :=
             {| branch := b; completed := false |}]> (branchStates cnd)) cnd)
          pc4)) st4) end.
      rewrite bound_with_branchState. simpl.
      rewrite (bound_lookup st c pc cnd) in Hb0 by done.
      case_decide as E; [subst id; by rewrite Hbs in Hb0|].
      by rewrite lookup_insert_ne.
    + exists [(c, agent_id x)]. cbn [evals set_procs]. by rewrite He, Hev2.
Qed.

Lemma executeConditionalStep_sticky c ags :
  preserves (ranked_sticky rk c) (executeConditionalStep c ags).
Proof.
  unfold executeConditionalStep.
  apply preserves_bind; [tc_solve| |intros hm].
  { apply preserves_forM; [tc_solve|]. intros. apply conditionalAgentStep_sticky. }
  intros st Hrk.
  destruct (procs st !! c) as [pc|] eqn:Hpc.
  2: { erewrite bind_throw by (unfold getProc; by rewrite Hpc).
       split; [done|by apply sticky_same]. }
  erewrite bind_ok by by apply getProc_eq.
  case_match; [|split; [done|by apply sticky_same]].
  erewrite bind_ok by reflexivity. simpl. split.
  - eapply ranked_same_shape; [|done]. by eapply update_evolves.
  - apply sticky_same; [|done]. intros id. apply bound_keeps. simpl.
    by rewrite lookup_insert_eq, Hpc.
Qed.

Lemma conditionalRun_sticky c rounds :
  preserves (ranked_sticky rk c) (conditionalRun c rounds).
Proof.
  unfold conditionalRun. apply preserves_forM; [tc_solve|]. intros ags [].
  apply preserves_bind; [tc_solve|apply executeConditionalStep_sticky|].
  intros _. apply preserves_ret. tc_solve.
Qed.

(** C5: in a run of a conditional process, whatever the rounds of agents
    and whatever the nodes do to their attributes, an agent id that has a
    branch state keeps the branch it is bound to -- [getActiveBranch]
    returns it after the run as before -- and its predicate is not
    evaluated again: the trace of evaluations grows by entries of other
    agents only. *)
Theorem branch_choice_is_sticky c rounds st id b :
  ranked rk st ->
  bound st c id = Some b ->
  fst (getActiveBranch c id (snd (conditionalRun c rounds st))) = Ok (Some b) /\
  exists l, evals (snd (conditionalRun c rounds st)) = evals st ++ l /\
            (c, id) ∉ l.
Proof.
  intros Hrk Hb.
  destruct (conditionalRun_sticky c rounds st Hrk) as (_ & Hst & l & He & Hl).
  split.
  - specialize (Hst id b Hb). unfold bound in Hst.
    destruct (procs _ !! c) as [p'|] eqn:Hp'; [|done]. simpl in Hst.
    destruct (conditional p') as [cnd'|] eqn:Hc'; [|done]. simpl in Hst.
    unfold getActiveBranch. erewrite bind_ok by by eapply getCond_eq.
    simpl. by rewrite Hst.
  - exists l. split; [done|]. intros Hin.
    rewrite Forall_forall in Hl. destruct (Hl _ Hin) as [_ Hn]. simpl in Hn.
    by rewrite Hb in Hn.
Qed.

End Sticky.

(** ** Failures inside a node *)

Section Failures.
Context `{host : Host}.

Lemma getAgentState_eq w id a :
  Map_get id (agents (sim w)) = Some a -> getAgentState id w = (Ok a, w).
Proof.
  intros Hg. unfold getAgentState. erewrite bind_ok by reflexivity.
  by rewrite Hg.
Qed.

(** C4: for every node, agent and store, [execute] returns normally,
    and when the request of the node (or the handling of its reply)
    throws, the error is caught: the agents, their attributes and
    histories, and the processes are exactly as before the call.  And in
    a step where the request fails for one agent and succeeds for the
    next, the step still returns according to the cursor, the first agent
    is untouched and the second has its change set applied and one more
    history entry. *)
Theorem capability_failure_is_contained :
  (forall n a st, fst (MogiNode_execute n a st) = Ok tt) /\
  (forall n a st e st1,
     handler n a st = (Throw e, st1) ->
     MogiNode_execute n a st = (Ok tt, st1) /\
     agts st1 = agts st /\ procs st1 = procs st /\ evals st1 = evals st) /\
  (forall w r p n id1 id2 a1 a2 x1 x2 e st1 chg st2,
     isComplete (currentState (sim w)) = false ->
     fst (findProcess (currentProcessId (currentState (sim w)))
            (processes (sim w)) (store w)) = Ok (Some r) ->
     procs (store w) !! r = Some p ->
     conditional p = None ->
     nodes p !! nodeIndex (currentState (sim w)) = Some n ->
     activeAgents (currentState (sim w)) = [id1; id2] ->
     Map_get id1 (agents (sim w)) = Some a1 ->
     Map_get id2 (agents (sim w)) = Some a2 ->
     a1 <> a2 ->
     agts (store w) !! a1 = Some x1 ->
     agts (store w) !! a2 = Some x2 ->
     handler n a1 (store w) = (Throw e, st1) ->
     handler n a2 st1 = (Ok chg, st2) ->
     exists w',
       executeStep w =
         (Ok (S (nodeIndex (currentState (sim w))) <? length (nodes p)), w') /\
       agts (store w') !! a1 = Some x1 /\
       agts (store w') !! a2 = Some (applied n chg x2) /\
       length (history (applied n chg x2)) = S (length (history x2))).
Proof.
  split; [|split].
  - intros n a st. by destruct (MogiNode_execute_run n a st) as (-> & _).
  - intros n a st e st1 Hh. by apply (MogiNode_execute_failed n a st e st1).
  - intros w r p n id1 id2 a1 a2 x1 x2 e st1 chg st2
      Hic Hf Hr Hc Hn Hact Hg1 Hg2 Hne Hx1 Hx2 Hh1 Hh2.
    destruct (MogiNode_execute_failed n a1 (store w) e st1 Hh1)
      as (E1 & Ha1 & Hp1 & _).
    assert (agts st1 !! a2 = Some x2) as Hx2' by by rewrite Ha1.
    destruct (MogiNode_execute_applied n a2 st1 chg st2 x2 Hh2 Hx2')
      as (E2 & Ha2 & _).
    eexists. split.
    + eapply (executeStep_linear w r p n [a1; a2]); try done.
      rewrite Hact. simpl.
      erewrite bind_ok by by apply getAgentState_eq.
      erewrite bind_ok.
      2: { erewrite bind_ok by by apply getAgentState_eq.
           erewrite bind_ok by reflexivity. reflexivity. }
      done.
    + unfold linearRound. simpl.
      erewrite bind_ok by exact E1. erewrite bind_ok by exact E2. simpl.
      rewrite lookup_insert_ne by done. rewrite lookup_insert_eq.
      rewrite Ha2, Ha1, Hx1. split_and!; [done|done|].
      by rewrite length_app, Nat.add_comm.
Qed.

(** C6: a reply that does not deserialize does not make the node throw:
    the change set holds the error marker and the raw reply, it is merged
    over the agent's attributes like any change set, and a history entry
    records it. *)
Theorem malformed_reply_is_recorded n a st x response st1 e :
  agts st !! a = Some x ->
  promptResponse n a st = (Ok response, st1) ->
  JSON_parse (default "undefined" (fst (destructure response))) = Throw e ->
  let chg : JSRecord :=
    <["_error" := VStr "Invalid AI response"]>
      (<["_raw" := response_value response]> ∅) in
  parseAIReponse response = chg /\
  chg !! "_error" = Some (VStr "Invalid AI response") /\
  chg !! "_raw" = Some (response_value response) /\
  exists st',
    MogiNode_execute n a st = (Ok tt, st') /\
    agts st' !! a =
      Some {| agent_id := agent_id x;
              attributes := chg ∪ attributes x;
              history := history x ++
                [{| processId := None; nodeId := Some (node_id n);
                    changes := chg; reasoning := VUndefined |}] |}.
Proof.
  intros Hx Hr Hp chg.
  assert (parseAIReponse response = chg) as Hparse.
  { unfold parseAIReponse. destruct (destructure response) as [j rs].
    simpl in Hp. by rewrite Hp. }
  split; [done|]. split; [done|]. split; [done|].
  assert (handler n a st = (Ok chg, st1)) as Hh.
  { unfold handler. erewrite bind_ok by exact Hr. by rewrite Hparse. }
  destruct (MogiNode_execute_applied n a st chg st1 x Hh Hx) as (E & _).
  eexists. split; [exact E|]. simpl. by rewrite lookup_insert_eq.
Qed.

End Failures.

(** ** Runs without capability failures *)

Section Reliable.
Context `{host : Host}.
Hypothesis Hreliable : reliable.

Lemma promptResponse_reliable n a st x :
  agts st !! a = Some x ->
  exists response st1, promptResponse n a st = (Ok response, st1).
Proof.
  intros Hx. destruct Hreliable as (Hs & Hp & Ht).
  unfold promptResponse. erewrite bind_ok by by apply getAgent_eq.
  assert (exists sch st0,
    (match schema (node_config n) with
     | Some s => ret s
     | None => liftAI (createSchema (aiService (node_config n)) (attributes x))
     end) st = (Ok sch, st0)) as (sch & st0 & E).
  { destruct (schema (node_config n)) as [sch|]; [by eexists _, _|].
    unfold liftAI.
    destruct (Hs (aiService (node_config n)) (attributes x) (ai st))
      as (sch & w' & ->). by eexists _, _. }
  erewrite bind_ok by exact E. unfold liftAI.
  destruct (useChainOfThought (node_config n)).
  - match goal with |- context [promptThinking ?a ?b ?c ?d ?e ?w] =>
      destruct (Ht a b c d e w) as (r & w' & ->) end. by eexists _, _.
  - match goal with |- context [prompt ?a ?b ?c ?d ?e ?w] =>
      destruct (Hp a b c d e w) as (r & w' & ->) end. by eexists _, _.
Qed.

(** With a reliable capability a node applies one change set to a live
    agent and touches no other agent. *)
Lemma MogiNode_execute_reliable n a st x :
  agts st !! a = Some x ->
  exists response,
    agts (snd (MogiNode_execute n a st)) =
      <[a := applied n (parseAIReponse response) x]> (agts st).
Proof.
  intros Hx. destruct (promptResponse_reliable n a st x Hx) as (r & st1 & E).
  exists r. rewrite MogiNode_execute_eq, E.
  destruct (promptResponse_frame n a st) as [w Hw]. rewrite E in Hw.
  simpl in Hw. subst st1. simpl. by rewrite Hx.
Qed.

Lemma MogiNode_execute_dead n a st :
  agts st !! a = None -> agts (snd (MogiNode_execute n a st)) = agts st.
Proof.
  intros Hx. destruct (MogiNode_execute_cases n a st) as [w [E|(x & r & Hx' & E)]];
    [by rewrite E|congruence].
Qed.

(** One linear round: every agent of the round gains one history entry. *)
Lemma linearRound_histories n ags st a x :
  NoDup ags ->
  agts st !! a = Some x ->
  exists x',
    agts (linearRound n ags st) !! a = Some x' /\
    agent_id x' = agent_id x /\
    length (history x') =
      length (history x) + (if decide (a ∈ ags) then 1 else 0).
Proof.
  unfold linearRound. intros Hnd. revert st x.
  induction Hnd as [|a0 ags Hnin Hnd IH]; intros st x Hx; cbn [forM].
  { exists x. split_and!; [done|done|].
    case_decide as Hin; [by apply not_elem_of_nil in Hin|lia]. }
  destruct (MogiNode_execute_run n a0 st) as (E & _).
  erewrite bind_ok by exact E.
  destruct (decide (a = a0)) as [->|Hne].
  - destruct (MogiNode_execute_reliable n a0 st x Hx) as (r & Ha).
    destruct (IH (snd (MogiNode_execute n a0 st)) (applied n (parseAIReponse r) x))
      as (x' & Hx' & Hid & Hlen).
    { rewrite Ha. by rewrite lookup_insert_eq. }
    exists x'. split_and!; [done|done|].
    rewrite Hlen. cbn [applied history]. rewrite length_app. cbn [length].
    repeat case_decide; try done; try lia.
    exfalso. match goal with H : _ ∉ _ :: _ |- _ => apply H; by left end.
  - assert (agts (snd (MogiNode_execute n a0 st)) !! a = Some x) as Hx1.
    { destruct (agts st !! a0) as [x0|] eqn:Hx0.
      - destruct (MogiNode_execute_reliable n a0 st x0 Hx0) as (r & ->).
        by rewrite lookup_insert_ne.
      - by rewrite MogiNode_execute_dead. }
    destruct (IH _ x Hx1) as (x' & Hx' & Hid & Hlen).
    exists x'. split_and!; [done|done|]. rewrite Hlen.
    repeat case_decide; try done; exfalso;
      first
        [ match goal with H : a ∉ a0 :: ags |- _ => apply H; by right end
        | match goal with H : a ∈ a0 :: ags |- _ =>
            apply elem_of_cons in H as [?|?]; done end ].
Qed.

Lemma findProcess_found st r p l :
  id_unique st r p l -> procs st !! r = Some p ->
  fst (findProcess (Some (proc_id p)) (l ++ [r]) st) = Ok (Some r).
Proof.
  intros Hu Hp. induction Hu as [|r' l (q & Hq & Himp) _ IH]; simpl.
  - erewrite bind_ok by by apply getProc_eq. by rewrite decide_True.
  - erewrite bind_ok by by apply getProc_eq.
    case_decide as E; [|done]. simpl. f_equal. f_equal. apply Himp. congruence.
Qed.

Lemma Map_get_elem {V} (m : list (string * V)) k v :
  NoDup (fst <$> m) -> (k, v) ∈ m -> Map_get k m = Some v.
Proof.
  induction m as [|[k' v'] m IH]; intros Hnd Hin; simpl.
  { by apply not_elem_of_nil in Hin. }
  apply NoDup_cons in Hnd as [Hnin Hnd].
  apply elem_of_cons in Hin as [E|Hin].
  - simplify_eq. by rewrite decide_True.
  - rewrite decide_False; [by apply IH|]. intros ->. apply Hnin.
    apply list_elem_of_fmap. by exists (k, v).
Qed.

Lemma mapM_getAgentState_keys w :
  NoDup (fst <$> agents (sim w)) ->
  mapM getAgentState (fst <$> agents (sim w)) w = (Ok (snd <$> agents (sim w)), w).
Proof.
  intros Hnd.
  assert (forall l, (forall k v, (k, v) ∈ l -> Map_get k (agents (sim w)) = Some v) ->
            mapM getAgentState (fst <$> l) w = (Ok (snd <$> l), w)) as Hgen.
  { induction l as [|[k v] l IH]; intros Hl; simpl; [done|].
    erewrite bind_ok; [|apply getAgentState_eq, Hl; by left].
    erewrite bind_ok; [done|]. apply IH. intros k' v' Hin. apply Hl. by right. }
  apply Hgen. intros k v Hin. by apply Map_get_elem.
Qed.

Lemma getAIServices_linear st r p :
  0 < stack_limit -> procs st !! r = Some p -> conditional p = None ->
  fst (getAIServices r st) = Ok (MogiProcess_getAIServices p).
Proof.
  intros Hd Hp Hc. unfold getAIServices.
  destruct stack_limit as [|d]; [lia|]. simpl.
  erewrite bind_ok by by apply getProc_eq. by rewrite Hc.
Qed.

Lemma initialized_fields process pid services s :
  agents (initialized process pid services s) = agents s /\
  processes (initialized process pid services s) = processes s ++ [process].
Proof.
  unfold initialized.
  match goal with |- context [foldl (enqueue pid) ?s3 ?l] =>
    destruct (foldl_enqueue_fields pid s3 l) as (_ & -> & -> & _) end.
  simpl.
  match goal with |- context [foldl track ?s1 ?l] =>
    destruct (foldl_track_fields s1 l) as (_ & -> & -> & _) end.
  done.
Qed.

(** A linear process of [N >= 1] nodes, run from [initializeProcess]
    with a capability that never fails: after [k] calls of [executeStep]
    the run cursor is [min k N], the run is complete exactly from the
    [N]-th call on, the call after them returns whether nodes are left,
    and every registered agent has gained [min k N] history entries. *)
Lemma linear_run w0 r p k :
  0 < stack_limit ->
  agents_wf (sim w0) ->
  procs (store w0) !! r = Some p ->
  conditional p = None ->
  0 < length (nodes p) ->
  id_unique (store w0) r p (processes (sim w0)) ->
  exists w1,
    initializeProcess r w0 = (Ok tt, w1) /\
    nodeIndex (currentState (sim (stepN k w1))) = k `min` length (nodes p) /\
    isComplete (currentState (sim (stepN k w1))) = (length (nodes p) <=? k) /\
    fst (executeStep (stepN k w1)) = Ok (S k <? length (nodes p)) /\
    forall a x, a ∈ snd <$> agents (sim w0) ->
      agts (store w0) !! a = Some x ->
      exists x', agts (store (stepN k w1)) !! a = Some x' /\
        length (history x') = length (history x) + k `min` length (nodes p).
Proof.
  intros Hd [Hk Hv] Hp Hc Hpos Hu.
  set (N := length (nodes p)) in *.
  set (s1 := initialized r (proc_id p) (MogiProcess_getAIServices p) (sim w0)).
  exists {| sim := s1; store := store w0 |}.
  split. { apply initializeProcess_eq; [done|by apply getAIServices_linear]. }
  destruct (initialized_fields r (proc_id p) (MogiProcess_getAIServices p) (sim w0))
    as [Hags Hprocs]. fold s1 in Hags, Hprocs.
  pose proof (initialized_currentState r (proc_id p)
                (MogiProcess_getAIServices p) (sim w0)) as Hcs. fold s1 in Hcs.
  set (cs := fun k => {| currentProcessId := Some (proc_id p);
                         activeAgents := fst <$> agents (sim w0);
                         nodeIndex := k `min` N; isComplete := N <=? k |}).
  set (Inv := fun (k : nat) (wk : World) =>
    sim wk = set_currentState (cs k) s1 /\
    procs (store wk) = procs (store w0) /\
    (forall a x, a ∈ snd <$> agents (sim w0) -> agts (store w0) !! a = Some x ->
       exists x', agts (store wk) !! a = Some x' /\
         length (history x') = length (history x) + k `min` N)).
  assert (forall k wk, Inv k wk ->
            fst (executeStep wk) = Ok (S k <? N) /\
            Inv (S k) (snd (executeStep wk))) as Hstep.
  { clear k. intros k wk (Es & Eps & Hh).
    destruct (decide (N <= k)) as [Hle|Hlt].
    - rewrite executeStep_complete.
      2: { rewrite Es. simpl. by apply Nat.leb_le. }
      simpl. split. { by rewrite (proj2 (Nat.ltb_ge _ _)) by lia. }
      split_and!; [|done|].
      + rewrite Es. unfold cs. f_equal. f_equal; [lia|].
        rewrite !(proj2 (Nat.leb_le _ _)) by lia. done.
      + intros a x Ha Hx. destruct (Hh a x Ha Hx) as (x' & Hx' & Hl).
        exists x'. split; [done|]. lia.
    - assert (k < N) as Hlt' by lia.
      destruct (lookup_lt_is_Some_2 (nodes p) k Hlt') as [n Hn].
      rewrite (executeStep_linear wk r p n (snd <$> agents (sim w0))).
      + cbn [fst snd sim store]. split.
        { rewrite Es. simpl. by rewrite Nat.min_l by lia. }
        split_and!.
        * assert (k `min` N = k) as Ek by lia.
          assert (S k `min` N = S k) as Ek' by lia.
          rewrite Es. unfold advanced, cs. cbn -[Nat.min Nat.leb].
          by rewrite Ek, Ek'.
        * cbn [store].
          by destruct (linearRound_procs n (snd <$> agents (sim w0)) (store wk))
            as [-> _].
        * cbn [store].
          intros a x Ha Hx. destruct (Hh a x Ha Hx) as (x1 & Hx1 & Hl1).
          destruct (linearRound_histories n (snd <$> agents (sim w0))
                      (store wk) a x1 Hv Hx1) as (x' & Hx' & _ & Hl').
          exists x'. split; [done|]. rewrite Hl', Hl1.
          rewrite decide_True by done. lia.
      + rewrite Es. simpl. by apply Nat.leb_gt.
      + rewrite Es. simpl. rewrite Hprocs.
        rewrite (findProcess_shape _ _ (store w0) (store wk))
          by by apply same_shape_eq.
        by apply findProcess_found.
      + by rewrite Eps.
      + done.
      + rewrite Es. simpl. by rewrite Nat.min_l by lia.
      + rewrite Es. simpl.
        assert (agents (sim wk) = agents (sim w0)) as Ea
          by (rewrite Es; simpl; done).
        rewrite <- Ea. rewrite mapM_getAgentState_keys; [done|by rewrite Ea]. }
  assert (Inv k (stepN k {| sim := s1; store := store w0 |})) as Hk_inv.
  { clear -Hstep Hcs Hpos. induction k as [|k IH].
    - split_and!; [|done|].
      + simpl. unfold cs. destruct s1; simpl in *. subst. f_equal.
        fold N. rewrite (proj2 (Nat.leb_gt _ _) Hpos). done.
      + intros a x _ Hx. exists x. split; [done|]. simpl. lia.
    - destruct (Hstep _ _ IH) as [_ HI]. exact HI. }
  destruct (Hstep _ _ Hk_inv) as [Ex _].
  destruct Hk_inv as (Es & Eps & Hh).
  rewrite Es. simpl. done.
Qed.

End Reliable.

(** ** Starting a run on a process that has run before *)

Section Reinitialize.
Context `{host : Host}.

(** A conditional step in which every agent is bound and completed runs
    no node and reports no work. *)
Lemma executeConditionalStep_all_completed st c pc cnd ags :
  procs st !! c = Some pc ->
  conditional pc = Some cnd ->
  length (nodes pc) <= currentNodeIndex pc ->
  Forall (fun a => exists x bs, agts st !! a = Some x /\
            branchStates cnd !! agent_id x = Some bs /\ completed bs = true) ags ->
  executeConditionalStep c ags st = (Ok false, st).
Proof.
  intros Hp Hc Hle Hall. unfold executeConditionalStep.
  assert (forall hm, forM ags hm (conditionalAgentStep c) st = (Ok hm, st)) as Hloop.
  { induction Hall as [|a ags (x & bs & Hx & Hbs & Hcomp) _ IH]; intros hm; [done|].
    simpl. erewrite bind_ok by by eapply conditionalAgentStep_completed. apply IH. }
  erewrite bind_ok by apply Hloop.
  erewrite bind_ok by by apply getProc_eq.
  by rewrite (proj2 (Nat.ltb_ge _ _) Hle).
Qed.

Lemma foldl_enqueue_queue pid s l :
  executionQueue (foldl (enqueue pid) s l) =
    executionQueue s ++
      ((fun id => {| q_processId := pid; q_agentId := id; q_nodeIndex := 0 |}) <$> l).
Proof.
  revert s. induction l as [|x l IH]; intros s; simpl.
  - by rewrite app_nil_r.
  - rewrite IH. simpl. by rewrite <- app_assoc.
Qed.

Lemma initialized_queue process pid services s :
  executionQueue (initialized process pid services s) =
    (fun id => {| q_processId := pid; q_agentId := id; q_nodeIndex := 0 |})
      <$> (fst <$> agents s).
Proof.
  unfold initialized. rewrite foldl_enqueue_queue. simpl.
  match goal with |- context [foldl track ?s1 ?l] =>
    destruct (foldl_track_fields s1 l) as (_ & _ & _ & _ & ->) end.
  done.
Qed.

(** C10: [initializeProcess] never writes to the store, whatever process
    it is given and however it ends: the cursor of every process and the
    branch bindings of every conditional process survive it.  What it
    resets, when it returns, is the run state of the simulation: the
    current process id, the snapshot of the registered ids, the run
    cursor 0, the completion flag and a fresh queue with one entry per
    registered id.  So a conditional process that is initialized again
    without [resetExecution] does not start afresh: the next step is the
    conditional step on the store as the last run left it, and if that
    run had come to its end (prefix exhausted, every agent bound and
    completed) it runs no node and returns [false]. *)
Theorem reinitialize_resumes_stale_run :
  (forall process w,
     store (snd (initializeProcess process w)) = store w /\
     (forall c, cursor_of (store (snd (initializeProcess process w))) c =
                cursor_of (store w) c) /\
     (forall c id, bound (store (snd (initializeProcess process w))) c id =
                   bound (store w) c id)) /\
  (forall process w w1,
     initializeProcess process w = (Ok tt, w1) ->
     exists p,
       procs (store w) !! process = Some p /\
       currentState (sim w1) =
         {| currentProcessId := Some (proc_id p);
            activeAgents := fst <$> agents (sim w);
            nodeIndex := 0; isComplete := false |} /\
       executionQueue (sim w1) =
         (fun id => {| q_processId := proc_id p; q_agentId := id;
                       q_nodeIndex := 0 |}) <$> (fst <$> agents (sim w)) /\
       agents (sim w1) = agents (sim w) /\
       processes (sim w1) = processes (sim w) ++ [process]) /\
  (forall w c pc cnd services,
     procs (store w) !! c = Some pc ->
     conditional pc = Some cnd ->
     fst (getAIServices c (store w)) = Ok services ->
     id_unique (store w) c pc (processes (sim w)) ->
     NoDup (fst <$> agents (sim w)) ->
     exists w1,
       initializeProcess c w = (Ok tt, w1) /\
       executeStep w1 =
         (let '(res, st') :=
            executeConditionalStep c (snd <$> agents (sim w)) (store w) in
          (res, {| sim := sim w1; store := st' |})) /\
       (length (nodes pc) <= currentNodeIndex pc ->
        Forall (fun a => exists x bs, agts (store w) !! a = Some x /\
                  branchStates cnd !! agent_id x = Some bs /\
                  completed bs = true)
          (snd <$> agents (sim w)) ->
        executeStep w1 = (Ok false, w1))).
Proof.
  split; [|split].
  - intros process w. rewrite initializeProcess_store. by split_and!.
  - intros process w w1 Hi.
    destruct (initializeProcess_inv _ _ _ Hi) as (p & services & Hp & Hs & ->).
    exists p. cbn [sim store].
    destruct (initialized_fields process (proc_id p) services (sim w)) as [-> ->].
    rewrite initialized_currentState, initialized_queue. by split_and!.
  - intros w c pc cnd services Hp Hc Hs Hu Hnd.
    eexists. split; [by eapply initializeProcess_eq|].
    destruct (initialized_fields c (proc_id pc) services (sim w)) as [Hags Hprocs].
    pose proof (initialized_currentState c (proc_id pc) services (sim w)) as Hcs.
    set (w1 := {| sim := initialized c (proc_id pc) services (sim w);
                  store := store w |}).
    assert (executeStep w1 =
              (let '(res, st') :=
                 executeConditionalStep c (snd <$> agents (sim w)) (store w) in
               (res, {| sim := sim w1; store := st' |}))) as Estep.
    { destruct (executeStep_conditional w1 c pc cnd) as (x & Hx & ->); [|done|done|].
      { unfold w1. cbn [sim store]. rewrite Hcs, Hprocs. cbn [currentProcessId].
        by apply findProcess_found. }
      unfold w1 at 1. cbn [sim]. rewrite Hcs. cbn [isComplete].
      assert (x = Ok (snd <$> agents (sim w))) as ->.
      { rewrite <- Hx.
        assert (activeAgents (currentState (sim w1)) = fst <$> agents (sim w1)) as ->
          by (unfold w1; cbn [sim]; by rewrite Hcs, Hags).
        rewrite mapM_getAgentState_keys; unfold w1; cbn [sim]; by rewrite Hags. }
      done. }
    split; [exact Estep|].
    intros Hle Hall. rewrite Estep.
    by rewrite (executeConditionalStep_all_completed _ c pc cnd).
Qed.

End Reinitialize.

(** ** The branching scenario *)

Section BranchScenario.
Context `{host : Host}.
Hypothesis Hstack : 1 < stack_limit.

(** *** Requests depend on the agents and the capability side only *)

Lemma same_minds_refl st : same_minds st st.
Proof. done. Qed.

Lemma same_minds_trans s1 s2 s3 :
  same_minds s1 s2 -> same_minds s2 s3 -> same_minds s1 s3.
Proof. intros [? ?] [? ?]. split; congruence. Qed.

Lemma promptResponse_minds n a s st :
  same_minds s st ->
  fst (promptResponse n a st) = fst (promptResponse n a s) /\
  same_minds (snd (promptResponse n a s)) (snd (promptResponse n a st)).
Proof.
  intros [Ha Hw]. destruct s as [ps ags w ev], st as [ps' ags' w' ev'].
  simpl in *. subst ags' w'.
  unfold promptResponse, bind, ret, liftAI, getAgent, set_ai, same_minds. simpl.
  repeat (case_match; simplify_eq/=); done.
Qed.

Lemma MogiNode_execute_minds n a s st :
  same_minds s st -> same_minds (ran n a s) (ran n a st).
Proof.
  intros Hm. unfold ran. rewrite !MogiNode_execute_eq.
  destruct (promptResponse_minds n a s st Hm) as (Ef & Ea & Ew).
  destruct (promptResponse n a s) as [[r|e] s1],
           (promptResponse n a st) as [[r'|e'] st1]; simpl in *; simplify_eq; try done.
  rewrite Ea. destruct (agts s1 !! a); simpl; [|done].
  split; simpl; congruence.
Qed.

Lemma answers_minds n a s st : same_minds s st -> answers n a s -> answers n a st.
Proof.
  intros Hm (chg & s1 & Hh). unfold answers, handler, bind, ret in *.
  destruct (promptResponse_minds n a s st Hm) as (Ef & _).
  destruct (promptResponse n a s) as [[r|e] s1'],
           (promptResponse n a st) as [[r'|e'] st1]; simpl in *; simplify_eq.
  by eexists _, _.
Qed.


(** *** One agent, one step *)

(** An answered request gives the agent one more history entry and
    leaves its id alone. *)
Lemma node_on_agent n a st id k :
  answers n a st ->
  agent_at st a id k ->
  procs (ran n a st) = procs st /\
  agent_at (ran n a st) a id (S k) /\
  (forall a', a' <> a -> agts (ran n a st) !! a' = agts st !! a').
Proof.
  intros (chg & st1 & Hh) (x & Hx & Hid & Hk). unfold ran.
  destruct (MogiNode_execute_run n a st) as (_ & Hps & _).
  destruct (MogiNode_execute_applied n a st chg st1 x Hh Hx) as (E & Ha & _).
  split; [done|]. rewrite E. unfold agent_at. simpl. split.
  - exists (applied n chg x). rewrite lookup_insert_eq.
    split_and!; [done|done|]. simpl. rewrite length_app. simpl. lia.
  - intros a' Hne. rewrite lookup_insert_ne by done. by rewrite Ha.
Qed.

Lemma proc_at_frame st st' r ns i :
  procs st' !! r = procs st !! r -> proc_at st r ns i -> proc_at st' r ns i.
Proof. intros E (p & Hp & ?). exists p. by rewrite E. Qed.

Lemma agent_at_frame st st' a id k :
  agts st' !! a = agts st !! a -> agent_at st a id k -> agent_at st' a id k.
Proof. intros E (x & Hx & ?). exists x. by rewrite E. Qed.

Lemma step_prefix st c cond ns i t f m n a id k hm :
  cond_at st c cond ns i t f m ->
  ns !! i = Some n ->
  agent_at st a id k ->
  answers n a st ->
  exists st',
    conditionalAgentStep c a hm st = (Ok true, st') /\
    procs st' = procs st /\
    agent_at st' a id (S k) /\
    (forall a', a' <> a -> agts st' !! a' = agts st !! a') /\
    same_minds (ran n a st) st'.
Proof.
  intros (pc & cnd & Hpc & Hns & Hi & _) Hn Ha Hans.
  eexists. split.
  { eapply conditionalAgentStep_prefix; [done|]. by rewrite Hns, Hi. }
  destruct (node_on_agent n a st id k Hans Ha) as (? & ? & ?).
  by split_and!.
Qed.

Lemma step_more st c cond ns i t f m a id k bs nsb ib n hm :
  cond_at st c cond ns i t f m ->
  length ns <= i ->
  agent_at st a id k ->
  m !! id = Some bs ->
  completed bs = false ->
  branch bs <> c ->
  proc_at st (branch bs) nsb ib ->
  nsb !! ib = Some n ->
  answers n a st ->
  exists st',
    conditionalAgentStep c a hm st = (Ok true, st') /\
    cond_at st' c cond ns i t f
      (<[id := {| branch := branch bs; completed := false |}]> m) /\
    proc_at st' (branch bs) nsb (S ib) /\
    agent_at st' a id (S k) /\
    (forall r, r <> c -> r <> branch bs -> procs st' !! r = procs st !! r) /\
    (forall a', a' <> a -> agts st' !! a' = agts st !! a') /\
    same_minds (ran n a st) st'.
Proof.
  intros (pc & cnd & Hpc & Hns & Hi & Hc & Hcond & Ht & Hf & Hm) Hle Ha Hbs Hnc
    Hne (pb & Hpb & Hnsb & Hib & Hlin) Hn Hans.
  destruct (node_on_agent n a st id k Hans Ha) as (Hps & Ha' & Hfr).
  destruct Ha as (x & Hx & Hid & Hk).
  eexists. split.
  { eapply (conditionalAgentStep_more st c pc cnd a x bs pb n); try done.
    - by rewrite Hns, Hi.
    - by rewrite Hm, Hid.
    - by rewrite Hnsb, Hib. }
  fold (ran n a st). split_and!.
  - eexists _, _. simpl. rewrite lookup_insert_eq. split; [done|]. simpl.
    split_and!; try done. by rewrite Hid, Hm.
  - eexists. simpl. rewrite lookup_insert_ne by done. rewrite lookup_insert_eq.
    split; [done|]. simpl. by rewrite Hib.
  - done.
  - intros r Hrc Hrb. simpl. rewrite !lookup_insert_ne by done. by rewrite Hps.
  - done.
  - done.
Qed.

Lemma step_exhausted st c cond ns i t f m a id k bs nsb ib hm :
  cond_at st c cond ns i t f m ->
  length ns <= i ->
  agent_at st a id k ->
  m !! id = Some bs ->
  completed bs = false ->
  proc_at st (branch bs) nsb ib ->
  length nsb <= ib ->
  exists st',
    conditionalAgentStep c a hm st = (Ok hm, st') /\
    cond_at st' c cond ns i t f
      (<[id := {| branch := branch bs; completed := true |}]> m) /\
    (forall r, r <> c -> procs st' !! r = procs st !! r) /\
    agts st' = agts st.
Proof.
  intros (pc & cnd & Hpc & Hns & Hi & Hc & Hcond & Ht & Hf & Hm) Hle
    (x & Hx & Hid & Hk) Hbs Hnc (pb & Hpb & Hnsb & Hib & Hlin) Hle'.
  eexists. split.
  { eapply (conditionalAgentStep_exhausted st c pc cnd a x bs pb); try done.
    - by rewrite Hns, Hi.
    - by rewrite Hm, Hid.
    - by rewrite Hnsb, Hib. }
  split_and!.
  - eexists _, _. simpl. rewrite lookup_insert_eq. split; [done|]. simpl.
    split_and!; try done. by rewrite Hid, Hm.
  - intros r Hrc. simpl. by rewrite lookup_insert_ne.
  - done.
Qed.

Lemma step_completed st c cond ns i t f m a id k bs hm :
  cond_at st c cond ns i t f m ->
  length ns <= i ->
  agent_at st a id k ->
  m !! id = Some bs ->
  completed bs = true ->
  conditionalAgentStep c a hm st = (Ok hm, st).
Proof.
  intros (pc & cnd & Hpc & Hns & Hi & Hc & Hcond & Ht & Hf & Hm) Hle
    (x & Hx & Hid & Hk) Hbs Hcomp.
  eapply (conditionalAgentStep_completed st c pc cnd a x bs); try done.
  - by rewrite Hns, Hi.
  - by rewrite Hm, Hid.
Qed.

(** The first step of an agent past the prefix: the predicate is
    evaluated on the agent as it is now, the branch is rewound, and its
    first node runs. *)
Lemma step_first st c cond ns i t f m a id k v br n nsb ib hm :
  cond_at st c cond ns i t f m ->
  length ns <= i ->
  agent_at st a id k ->
  m !! id = None ->
  satisfies cond a v st ->
  br = (if v then t else f) ->
  br <> c ->
  proc_at st br (n :: nsb) ib ->
  answers n a st ->
  exists st',
    conditionalAgentStep c a hm st = (Ok true, st') /\
    cond_at st' c cond ns i t f (<[id := {| branch := br; completed := false |}]> m) /\
    proc_at st' br (n :: nsb) 1 /\
    agent_at st' a id (S k) /\
    (forall r, r <> c -> r <> br -> procs st' !! r = procs st !! r) /\
    (forall a', a' <> a -> agts st' !! a' = agts st !! a') /\
    same_minds (ran n a st) st'.
Proof.
  intros Hcond Hle Ha Hbs (x' & Hx' & Hv) Hbr Hne Hpb Hans.
  pose proof Hcond as (pc & cnd & Hpc & Hns & Hi & Hc & Hcnd & Ht & Hf & Hm).
  pose proof Ha as (x & Hx & Hid & Hk).
  pose proof Hpb as (pb & Hpb' & Hnsb & Hib & Hlin).
  assert (x' = x) as -> by congruence.
  assert ((if condition cnd x then trueBranch cnd else falseBranch cnd) = br) as Hsel.
  { by rewrite Hcnd, Ht, Hf, Hbr, Hv. }
  set (st3 := bind_agent c pc cnd id br pb st).
  assert (same_minds st st3) as Hm3 by done.
  assert (conditionalAgentStep c a hm st = conditionalAgentStep c a hm st3) as ->.
  { unfold st3. rewrite <- Hid, <- Hsel.
    apply conditionalAgentStep_bind;
      [lia|done|by rewrite Hns, Hi|done|done|by rewrite Hm, Hid
      |by rewrite Hsel|by rewrite Hsel|done]. }
  destruct (step_more st3 c cond ns i t f
              (<[id := {| branch := br; completed := false |}]> m)
              a id k {| branch := br; completed := false |} (n :: nsb) 0 n hm)
    as (st' & E & Hc' & Hp' & Ha' & Hfr & Hfa & Hmi); try done.
  - eexists _, _. unfold st3, bind_agent. simpl. rewrite lookup_insert_eq.
    split; [done|]. simpl. split_and!; try done. by rewrite Hm.
  - by rewrite lookup_insert_eq.
  - eexists. unfold st3, bind_agent. simpl.
    rewrite lookup_insert_ne by done. rewrite lookup_insert_eq.
    split; [done|]. by simpl.
  - by apply (answers_minds n a st).
  - exists st'. simpl in *. rewrite insert_insert_eq in Hc'.
    split_and!; try done.
    + intros r Hrc Hrb. rewrite Hfr by done. unfold st3, bind_agent. simpl.
      by rewrite !lookup_insert_ne.
    + eapply same_minds_trans; [|exact Hmi]. by apply MogiNode_execute_minds.
Qed.

(** The end of [executeConditionalStep]: the cursor of the prefix moves
    on while the prefix lasts. *)
Lemma round_end st c pc hm :
  procs st !! c = Some pc ->
  (let* this := getProc c in
   if currentNodeIndex this <? length (nodes this) then
     putProc c (set_index (S (currentNodeIndex this)) this) ;; ret true
   else ret hm) st =
  if currentNodeIndex pc <? length (nodes pc)
  then (Ok true, set_procs (insert c (set_index (S (currentNodeIndex pc)) pc)) st)
  else (Ok hm, st).
Proof.
  intros Hp. erewrite bind_ok by by apply getProc_eq.
  destruct (currentNodeIndex pc <? length (nodes pc)); [|done].
  by erewrite bind_ok by reflexivity.
Qed.

Section Rounds.
Variables (c t f : ProcRef) (a b : AgentRef) (idA idB : MogiAgentID).
Variable cond : MogiAgentState -> bool.
Variables (p0 t0 t1 f0 : MogiNode).
Hypothesis Hct : c <> t.
Hypothesis Hcf : c <> f.
Hypothesis Htf : t <> f.
Hypothesis Hab : a <> b.
Hypothesis Hid : idA <> idB.

Local Abbreviation scen := (scenario_at c t f a b idA idB cond p0 t0 t1 f0).
Local Abbreviation bs_t d := {| branch := t; completed := d |}.
Local Abbreviation bs_f d := {| branch := f; completed := d |}.

(** First round: both agents run the node of the prefix. *)
Lemma round_prefix s st it jf kA kB :
  scen 0 None None it jf kA kB st ->
  same_minds s st ->
  answered [(p0, a); (p0, b)] s ->
  exists st', executeConditionalStep c [a; b] st = (Ok true, st') /\
              scen 1 None None it jf (S kA) (S kB) st' /\
              same_minds (after_calls [(p0, a); (p0, b)] s) st'.
Proof.
  intros (m & Hc & HmA & HmB & Hpt & Hpf & Ha & Hb) Hmi (HansA & HansB & _).
  destruct (step_prefix st c cond [p0] 0 t f m p0 a idA kA false)
    as (st1 & E1 & Hps1 & Ha1 & Hfr1 & Hm1); try done.
  { by apply (answers_minds p0 a s). }
  assert (same_minds (ran p0 a s) st1) as Hm1'.
  { eapply same_minds_trans; [|exact Hm1]. by apply MogiNode_execute_minds. }
  assert (cond_at st1 c cond [p0] 0 t f m) as Hc1.
  { destruct Hc as (pc & cnd & Hpc & ?). exists pc, cnd. by rewrite Hps1. }
  destruct (step_prefix st1 c cond [p0] 0 t f m p0 b idB kB true)
    as (st2 & E2 & Hps2 & Hb2 & Hfr2 & Hm2); try done.
  { eapply agent_at_frame; [|done]. by apply Hfr1. }
  { by apply (answers_minds p0 b (ran p0 a s)). }
  destruct Hc as (pc & cnd & Hpc & Hns & Hi & Hcnd & Hr1 & Hr2 & Hr3 & Hr4).
  assert (procs st2 !! c = Some pc) as Hp2 by by rewrite Hps2, Hps1.
  eexists. split.
  { unfold executeConditionalStep. cbn [forM].
    erewrite bind_ok.
    2: { erewrite bind_ok by exact E1. erewrite bind_ok by exact E2. reflexivity. }
    rewrite (round_end st2 c pc _ Hp2). rewrite Hns, Hi. reflexivity. }
  cbn [currentNodeIndex]. split.
  - exists m. split_and!; try done.
    + exists (set_index 1 pc), cnd. simpl. rewrite lookup_insert_eq. by split_and!.
    + eapply proc_at_frame; [|done]. simpl.
      rewrite lookup_insert_ne by done. by rewrite Hps2, Hps1.
    + eapply proc_at_frame; [|done]. simpl.
      rewrite lookup_insert_ne by done. by rewrite Hps2, Hps1.
    + eapply agent_at_frame; [|done]. simpl. by apply Hfr2.
  - cbn [after_calls foldl fst snd].
    eapply same_minds_trans; [by apply MogiNode_execute_minds|].
    destruct Hm2 as [? ?]. by split.
Qed.

(** Second round: the predicate is evaluated on each agent, which is
    bound to its branch and runs the first node there. *)
Lemma round_bind s st it jf kA kB :
  scen 1 None None it jf kA kB st ->
  same_minds s st ->
  satisfies cond a true s ->
  satisfies cond b false s ->
  answered [(t0, a); (f0, b)] s ->
  exists st', executeConditionalStep c [a; b] st = (Ok true, st') /\
    scen 1 (Some (bs_t false)) (Some (bs_f false)) 1 1 (S kA) (S kB) st' /\
    same_minds (after_calls [(t0, a); (f0, b)] s) st'.
Proof.
  intros (m & Hc & HmA & HmB & Hpt & Hpf & Ha & Hb) Hmi
    (xA & HxA & HvA) (xB & HxB & HvB) (HansA & HansB & _).
  destruct (step_first st c cond [p0] 1 t f m a idA kA true t t0 [t1] it false)
    as (st1 & E1 & Hc1 & Hpt1 & Ha1 & Hfp1 & Hfa1 & Hm1); try done.
  { exists xA. split; [|done]. destruct Hmi as [-> _]. done. }
  { by apply (answers_minds t0 a s). }
  assert (same_minds (ran t0 a s) st1) as Hm1'.
  { eapply same_minds_trans; [|exact Hm1]. by apply MogiNode_execute_minds. }
  destruct (step_first st1 c cond [p0] 1 t f (<[idA := bs_t false]> m)
              b idB kB false f f0 [] jf true)
    as (st2 & E2 & Hc2 & Hpf2 & Hb2 & Hfp2 & Hfa2 & Hm2); try done.
  { eapply agent_at_frame; [|done]. by apply Hfa1. }
  { by rewrite lookup_insert_ne. }
  { exists xB. split; [|done]. rewrite Hfa1 by done. destruct Hmi as [-> _]. done. }
  { eapply proc_at_frame; [|done]. by apply Hfp1. }
  { by apply (answers_minds f0 b (ran t0 a s)). }
  destruct Hc2 as (pc & cnd & Hpc & Hns & Hi & Hcnd & Hrest).
  eexists. split.
  { unfold executeConditionalStep. cbn [forM].
    erewrite bind_ok.
    2: { erewrite bind_ok by exact E1. erewrite bind_ok by exact E2. reflexivity. }
    rewrite (round_end st2 c pc _ Hpc). rewrite Hns, Hi. reflexivity. }
  split.
  - eexists. split_and!.
    + by exists pc, cnd.
    + rewrite lookup_insert_ne by done. by rewrite lookup_insert_eq.
    + by rewrite lookup_insert_eq.
    + eapply proc_at_frame; [|done]. by apply Hfp2.
    + done.
    + eapply agent_at_frame; [|done]. by apply Hfa2.
    + done.
  - cbn [after_calls foldl fst snd].
    eapply same_minds_trans; [|exact Hm2]. by apply MogiNode_execute_minds.
Qed.

(** Third round: the first agent runs the last node of the true branch;
    the second finds the false branch exhausted. *)
Lemma round_last s st kA kB :
  scen 1 (Some (bs_t false)) (Some (bs_f false)) 1 1 kA kB st ->
  same_minds s st ->
  answers t1 a s ->
  exists st', executeConditionalStep c [a; b] st = (Ok true, st') /\
    scen 1 (Some (bs_t false)) (Some (bs_f true)) 2 1 (S kA) kB st'.
Proof.
  intros (m & Hc & HmA & HmB & Hpt & Hpf & Ha & Hb) Hmi Hans.
  destruct (step_more st c cond [p0] 1 t f m a idA kA (bs_t false) [t0; t1] 1 t1 false)
    as (st1 & E1 & Hc1 & Hpt1 & Ha1 & Hfp1 & Hfa1 & _); try done.
  { by apply (answers_minds t1 a s). }
  destruct (step_exhausted st1 c cond [p0] 1 t f (<[idA := bs_t false]> m)
              b idB kB (bs_f false) [f0] 1 true)
    as (st2 & E2 & Hc2 & Hfp2 & Hfa2); try done.
  { eapply agent_at_frame; [|done]. by apply Hfa1. }
  { by rewrite lookup_insert_ne. }
  { eapply proc_at_frame; [|done]. by apply Hfp1. }
  destruct Hc2 as (pc & cnd & Hpc & Hns & Hi & Hcnd & Hrest).
  eexists. split.
  { unfold executeConditionalStep. cbn [forM].
    erewrite bind_ok.
    2: { erewrite bind_ok by exact E1. erewrite bind_ok by exact E2. reflexivity. }
    rewrite (round_end st2 c pc _ Hpc). rewrite Hns, Hi. reflexivity. }
  eexists. split_and!.
  - by exists pc, cnd.
  - rewrite lookup_insert_ne by done. by rewrite lookup_insert_eq.
  - by rewrite lookup_insert_eq.
  - eapply proc_at_frame; [|done]. by apply Hfp2.
  - eapply proc_at_frame; [|eapply proc_at_frame; [|exact Hpf]].
    + by apply Hfp2.
    + by apply Hfp1.
  - eapply agent_at_frame; [|done]. by rewrite Hfa2.
  - eapply agent_at_frame; [|eapply agent_at_frame; [|exact Hb]].
    + by rewrite Hfa2.
    + by apply Hfa1.
Qed.

(** Fourth round: the first agent finds the true branch exhausted, the
    second is completed; no work is left. *)
Lemma round_done st kA kB :
  scen 1 (Some (bs_t false)) (Some (bs_f true)) 2 1 kA kB st ->
  exists st', executeConditionalStep c [a; b] st = (Ok false, st') /\
    scen 1 (Some (bs_t true)) (Some (bs_f true)) 2 1 kA kB st'.
Proof.
  intros (m & Hc & HmA & HmB & Hpt & Hpf & Ha & Hb).
  destruct (step_exhausted st c cond [p0] 1 t f m a idA kA (bs_t false) [t0; t1] 2 false)
    as (st1 & E1 & Hc1 & Hfp1 & Hfa1); try done.
  assert (agent_at st1 b idB kB) as Hb1
    by (eapply agent_at_frame; [|done]; by rewrite Hfa1).
  pose proof (step_completed st1 c cond [p0] 1 t f (<[idA := bs_t true]> m)
              b idB kB (bs_f true) false Hc1) as E2.
  rewrite lookup_insert_ne in E2 by done.
  specialize (E2 ltac:(done) Hb1 HmB eq_refl).
  destruct Hc1 as (pc & cnd & Hpc & Hns & Hi & Hcnd & Hrest).
  eexists. split.
  { unfold executeConditionalStep. cbn [forM].
    erewrite bind_ok.
    2: { erewrite bind_ok by exact E1. erewrite bind_ok by exact E2. reflexivity. }
    rewrite (round_end st1 c pc _ Hpc). rewrite Hns, Hi. reflexivity. }
  eexists. split_and!.
  - by exists pc, cnd.
  - by rewrite lookup_insert_eq.
  - by rewrite lookup_insert_ne.
  - eapply proc_at_frame; [|done]. by apply Hfp1.
  - eapply proc_at_frame; [|done]. by apply Hfp1.
  - eapply agent_at_frame; [|done]. by rewrite Hfa1.
  - done.
Qed.

End Rounds.

Lemma agent_at_history st a id k :
  agent_at st a id k -> history_length st a = k.
Proof. intros (x & Hx & _ & Hk). unfold history_length. by rewrite Hx. Qed.

Lemma proc_at_cursor st r ns i : proc_at st r ns i -> cursor_of st r = Some i.
Proof. intros (p & Hp & _ & Hi & _). unfold cursor_of. rewrite Hp. simpl. by f_equal. Qed.

Lemma getAIServices_scenario st c cond ns i t f m nst it nsf jf :
  cond_at st c cond ns i t f m -> proc_at st t nst it -> proc_at st f nsf jf ->
  exists services, fst (getAIServices c st) = Ok services.
Proof.
  intros (pc & cnd & Hpc & _ & _ & Hc & _ & Ht & Hf & _)
    (pt & Hpt & _ & _ & Hlt) (pf & Hpf & _ & _ & Hlf).
  unfold getAIServices.
  destruct stack_limit as [|[|d]]; [lia|lia|]. cbn [getAIServices_at].
  erewrite bind_ok by by apply getProc_eq. rewrite Hc, Ht, Hf.
  erewrite bind_ok.
  2: { erewrite bind_ok by by apply getProc_eq. by rewrite Hlt. }
  erewrite bind_ok.
  2: { erewrite bind_ok by by apply getProc_eq. by rewrite Hlf. }
  by eexists.
Qed.

Lemma answered_app calls1 calls2 st :
  answered (calls1 ++ calls2) st ->
  answered calls1 st /\ answered calls2 (after_calls calls1 st).
Proof.
  revert st. induction calls1 as [|[n a] calls1 IH]; intros st; simpl; [done|].
  intros [Hans Hrest]. destruct (IH _ Hrest). by split_and!.
Qed.


End BranchScenario.

(** * The theorems on concrete runs *)

Module FlakyRuns.
Import Demo.
#[local] Existing Instance flaky_host.

(** Both agents in range share the true branch: the second agent's
    binding rewinds it, and the second agent never runs its last node. *)
Example shared_branch_loses_a_step :
  let w := stepN 4 (run_on (initializeProcess 2) (shared_world 0)) in
  history_length (store w) 0 = 3 /\ history_length (store w) 1 = 2 /\
  bound (store w) 2 "A" = Some 0 /\ bound (store w) 2 "B" = Some 0.
Proof. vm_compute. by split_and!. Qed.

Lemma branch_cursor_is_shared_witness :
  let st := store (stepN 2 (run_on (initializeProcess 2) (shared_world 0))) in
  exists st',
    executeAgentStep 0 0 st = (Ok true, st') /\
    cursor_of st 0 = Some 1 /\ cursor_of st' 0 = Some 2 /\
    bound st' 2 "A" = Some 0 /\ bound st' 2 "B" = Some 0.
Proof.
  intros st.
  pose proof (@branch_cursor_is_shared flaky_host st 0) as H.
  edestruct H as [Ha _].
  - vm_compute. reflexivity.
  - vm_compute. lia.
  - destruct (Ha 0) as (st' & He & Hp). exists st'. split; [exact He|].
    unfold cursor_of, bound. rewrite Hp. vm_compute. split_and!; reflexivity.
Defined.

Lemma executeStep_on_empty_process_witness :
  executeStep (empty_process_world 0) = (Throw TypeError, empty_process_world 0).
Proof.
  eapply (@executeStep_on_empty_process flaky_host
            (@empty_process_world flaky_host 0) 0 _ [0]).
  - vm_compute. reflexivity.
  - vm_compute. reflexivity.
  - vm_compute. reflexivity.
  - reflexivity.
  - reflexivity.
  - vm_compute. reflexivity.
Defined.

Lemma capability_failure_is_contained_witness :
  exists w',
    executeStep (linear_world 0 "{}") = (Ok false, w') /\
    history_length (store w') 0 = 0 /\
    history_length (store w') 1 = 1.
Proof.
  pose proof (@capability_failure_is_contained flaky_host) as (_ & _ & H).
  edestruct (H (@linear_world flaky_host 0 "{}") 0) as (w' & He & H1 & H2 & _).
  - vm_compute. reflexivity.
  - vm_compute. reflexivity.
  - vm_compute. reflexivity.
  - reflexivity.
  - vm_compute. reflexivity.
  - vm_compute. reflexivity.
  - vm_compute. reflexivity.
  - vm_compute. reflexivity.
  - vm_compute. lia.
  - vm_compute. reflexivity.
  - vm_compute. reflexivity.
  - vm_compute. reflexivity.
  - vm_compute. reflexivity.
  - exists w'.
    match type of He with _ = (Ok ?b, _) =>
      assert (b = false) as Eb by (vm_compute; reflexivity); rewrite Eb in He
    end.
    split; [exact He|].
    unfold history_length. rewrite H1, H2. vm_compute. split; reflexivity.
Defined.

Lemma branch_choice_is_sticky_witness :
  let st := store (stepN 2 (run_on (initializeProcess 2) (scenario_world 0))) in
  let st' := snd (conditionalRun 2 [[0; 1]; [0; 1]; [0; 1]] st) in
  fst (getActiveBranch 2 "A" st') = Ok (Some 0) /\
  exists l, evals st' = evals st ++ l /\ (2, "A") ∉ l.
Proof.
  apply (@branch_choice_is_sticky flaky_host (fun r => r)).
  - unfold ranked. apply (bool_decide_unpack _). vm_compute. exact I.
  - vm_compute. reflexivity.
Defined.

Lemma malformed_reply_is_recorded_witness :
  exists st' x',
    MogiNode_execute (demo_node "n0" "oops") 1 (store (linear_world 0 "oops")) =
      (Ok tt, st') /\
    agts st' !! 1 = Some x' /\
    length (history x') = 1 /\
    attributes x' !! "_error" = Some (VStr "Invalid AI response") /\
    attributes x' !! "_raw" = Some (VStr "oops").
Proof.
  pose proof (@malformed_reply_is_recorded flaky_host (demo_node "n0" "oops") 1
                (store (@linear_world flaky_host 0 "oops"))) as H.
  edestruct H as (_ & _ & _ & st' & He & Ha).
  - vm_compute. reflexivity.
  - vm_compute. reflexivity.
  - vm_compute. reflexivity.
  - exists st'. eexists. split; [exact He|]. split; [exact Ha|].
    vm_compute. split_and!; reflexivity.
Defined.

Lemma getAIUsage_sums_tracked_services_witness :
  let w := run_on executeStep (run_on (initializeProcess 2) (scenario_world 0)) in
  exists u, getAIUsage w = (Ok u, w) /\ totalCalls u = 2%Z /\
            fst (getAIUsage (snd (resetAIUsage w))) = Ok zeroUsage.
Proof.
  intros w.
  destruct (@getAIUsage_sums_tracked_services flaky_host w)
    as (u & Hu & Hc & _ & _ & _ & _ & Hz).
  - apply reach_executeStep, reach_initializeProcess, reach_addAgent,
      reach_addAgent, reach_new.
  - exists u. split; [exact Hu|]. split; [|exact Hz]. rewrite Hc. by vm_compute.
Defined.

(** C7, counterexample: the estimated cost is not a sum over the set of
    tracked instances.  Two simulations track the same three instances,
    whose counters are the same in both, and differ only in the order in
    which [initializeProcess] met them; [getAIUsage] reports the cost
    0.6000000000000001 in one and 0.6 in the other. *)
#[warnings="-inexact-float"]
Lemma getAIUsage_cost_follows_tracking_order :
  reachable (priced_world 0 0) /\ reachable (priced_world 0 1) /\
  aiServices (sim (priced_world 0 0)) = [0; 1; 2] /\
  aiServices (sim (priced_world 0 1)) = [2; 1; 0] /\
  usage (ai (store (priced_world 0 0))) = usage (ai (store (priced_world 0 1))) /\
  exists u1 u2,
    getAIUsage (priced_world 0 0) = (Ok u1, priced_world 0 0) /\
    getAIUsage (priced_world 0 1) = (Ok u2, priced_world 0 1) /\
    totalCalls u1 = totalCalls u2 /\
    totalInputTokens u1 = totalInputTokens u2 /\
    totalOutputTokens u1 = totalOutputTokens u2 /\
    estimatedCost u1 = 0.6000000000000001%float /\
    estimatedCost u2 = 0.6%float /\
    estimatedCost u1 <> estimatedCost u2.
Proof.
  split; [apply reach_initializeProcess, reach_new|].
  split; [apply reach_initializeProcess, reach_new|].
  split; [by vm_compute|]. split; [by vm_compute|]. split; [done|].
  eexists _, _. split; [vm_compute; reflexivity|].
  split; [vm_compute; reflexivity|].
  split_and!; try (vm_compute; reflexivity).
  vm_compute. intros H.
  discriminate (f_equal (fun x => PrimFloat.eqb x 0x1.3333333333333p-1%float) H).
Qed.

Lemma executeStep_invalid_state_no_work_witness :
  exists w', executeStep (unbound_world 0) = (Ok false, w') /\
             store w' = store (unbound_world 0) /\
             isComplete (currentState (sim w')) = true.
Proof.
  apply executeStep_invalid_state_no_work. right. vm_compute. apply Forall_nil_2.
Defined.

Lemma conditional_run_leaves_run_state_witness :
  let w := run_on (initializeProcess 2) (scenario_world 0) in
  sim (stepN 6 w) = sim w /\
  nodeIndex (currentState (sim (stepN 6 w))) = 0 /\
  isComplete (currentState (sim (stepN 6 w))) = false.
Proof.
  eapply (@conditional_run_leaves_run_state flaky_host 2
            (@scenario_world flaky_host 0)).
  - vm_compute. reflexivity.
  - vm_compute. reflexivity.
  - vm_compute. reflexivity.
  - reflexivity.
Defined.

Lemma reinitialize_resumes_stale_run_witness :
  exists w1,
    initializeProcess 2 (finished_world 0) = (Ok tt, w1) /\
    executeStep w1 = (Ok false, w1) /\
    history_length (store w1) 0 = 3.
Proof.
  pose proof (@reinitialize_resumes_stale_run flaky_host) as (Hstore & _ & H).
  edestruct (H (@finished_world flaky_host 0) 2) as (w1 & Hi & _ & He).
  - vm_compute. reflexivity.
  - reflexivity.
  - vm_compute. reflexivity.
  - unfold id_unique. vm_compute. apply Forall_cons. split; [|apply Forall_nil_2].
    eexists. split; [reflexivity|]. intros _. reflexivity.
  - vm_compute. apply (bool_decide_unpack _). vm_compute. exact I.
  - exists w1. split; [exact Hi|]. split.
    + apply He.
      * vm_compute. lia.
      * vm_compute. repeat apply Forall_cons_2; [..|apply Forall_nil_2];
          eexists _, _; (split; [reflexivity|]); split; reflexivity.
    + destruct (Hstore 2 (@finished_world flaky_host 0)) as (Hs & _).
      rewrite Hi in Hs. cbn [snd] in Hs. rewrite Hs. vm_compute. reflexivity.
Defined.

End FlakyRuns.

Module SteadyRuns.
Import Demo.
#[local] Existing Instance steady_host.

Lemma steady_reliable : reliable.
Proof.
  split_and!.
  - intros svc attrs w. by eexists _, _.
  - intros svc s c i sch w. by eexists _, _.
  - intros svc s c i sch w. by eexists _, _.
Qed.


(** The same run, evaluated: three and two history entries. *)
Example conditional_scenario_histories :
  let w := stepN 4 (run_on (initializeProcess 2) (scenario_world 0)) in
  history_length (store w) 0 = 3 /\ history_length (store w) 1 = 2.
Proof. vm_compute. by split. Qed.

End SteadyRuns.

(** * Further properties of the engine *)

(** ** The agent map *)

Section MapFacts.

Lemma Map_get_set_eq {V} k (v : V) m : Map_get k (Map_set k v m) = Some v.
Proof.
  induction m as [|[k' v'] m IH]; cbn [Map_get Map_set].
  - case_decide; congruence.
  - case_decide as E; cbn [Map_get]; case_decide; congruence.
Qed.

Lemma Map_get_set_ne {V} k k' (v : V) m :
  k' <> k -> Map_get k' (Map_set k v m) = Map_get k' m.
Proof.
  intros Hne. induction m as [|[k0 v0] m IH]; cbn [Map_get Map_set].
  - case_decide; congruence.
  - case_decide as E; cbn [Map_get]; repeat case_decide; congruence.
Qed.

Lemma Map_set_keys {V} k (v : V) m :
  fst <$> Map_set k v m =
    if decide (k ∈ fst <$> m) then fst <$> m else (fst <$> m) ++ [k].
Proof.
  induction m as [|[k0 v0] m IH]; cbn [Map_set].
  - rewrite decide_False by apply not_elem_of_nil. done.
  - rewrite (fmap_cons fst (k0, v0) m). cbn [fst].
    destruct (decide (k0 = k)) as [->|Hne].
    + rewrite decide_True by by left. done.
    + rewrite fmap_cons, IH. cbn [fst].
      destruct (decide (k ∈ fst <$> m)) as [Hin|Hnin].
      * rewrite decide_True by by right. done.
      * rewrite decide_False; [done|].
        intros Hc. apply elem_of_cons in Hc as [->|Hc]; done.
Qed.

Lemma Map_get_Some {V} k (v : V) m : Map_get k m = Some v -> (k, v) ∈ m.
Proof.
  induction m as [|[k0 v0] m IH]; cbn [Map_get]; [done|].
  case_decide as E; intros H.
  - simplify_eq. by left.
  - right. by apply IH.
Qed.

Lemma Map_get_None {V} k (m : list (string * V)) :
  Map_get k m = None <-> k ∉ fst <$> m.
Proof.
  induction m as [|[k0 v0] m IH]; cbn [Map_get].
  - split; [intros _; apply not_elem_of_nil|done].
  - rewrite fmap_cons. cbn [fst]. case_decide as E.
    + subst. split; [done|]. intros Hn. exfalso. apply Hn. by left.
    + rewrite IH. split.
      * intros Hn Hc. apply elem_of_cons in Hc as [->|Hc]; done.
      * intros Hn Hc. apply Hn. by right.
Qed.

End MapFacts.

Section AgentRegistry.
Context `{host : Host}.

(** X1: [addAgent] and [getAgentState] are a round trip.  [addAgent]
    returns the id it was given and makes a fresh agent object holding that
    id, the given attributes and an empty history; [getAgentState] on the
    id then returns that object.  Every other agent object, and what every
    other id names, is as before (an object formerly registered under the
    id is only unlinked).  The id keeps its place in the order of the map
    if it was registered, and goes last otherwise. *)
Theorem addAgent_then_getAgentState attrs id w :
  exists a,
    addAgent attrs id w = (Ok id, snd (addAgent attrs id w)) /\
    agts (store w) !! a = None /\
    getAgentState id (snd (addAgent attrs id w)) =
      (Ok a, snd (addAgent attrs id w)) /\
    agts (store (snd (addAgent attrs id w))) !! a =
      Some {| agent_id := id; attributes := attrs; history := [] |} /\
    (forall a', a' <> a ->
       agts (store (snd (addAgent attrs id w))) !! a' = agts (store w) !! a') /\
    (forall id', id' <> id ->
       fst (getAgentState id' (snd (addAgent attrs id w))) =
       fst (getAgentState id' w)) /\
    fst <$> agents (sim (snd (addAgent attrs id w))) =
      if decide (id ∈ fst <$> agents (sim w)) then fst <$> agents (sim w)
      else (fst <$> agents (sim w)) ++ [id].
Proof.
  destruct w as [sm st].
  exists (fresh (dom (agts st))).
  unfold addAgent, bind, liftStore, modifySim, ret. simpl.
  split_and!.
  - done.
  - apply not_elem_of_dom. apply is_fresh.
  - unfold getAgentState, bind, getSim. simpl. by rewrite Map_get_set_eq.
  - by rewrite lookup_insert_eq.
  - intros a' Hne. by rewrite lookup_insert_ne.
  - intros id' Hne. unfold getAgentState, bind, getSim. simpl.
    rewrite Map_get_set_ne by done.
    by destruct (Map_get id' (agents sm)).
  - apply Map_set_keys.
Qed.

End AgentRegistry.

(** ** What execution does to the agents *)

Section AgentInvariants.
Context `{host : Host}.

Lemma merge_changes_app attrs l1 l2 :
  merge_changes (merge_changes attrs l1) l2 = merge_changes attrs (l1 ++ l2).
Proof. unfold merge_changes. by rewrite foldl_app. Qed.

#[global] Instance agent_extends_preorder : PreOrder agent_extends.
Proof.
  split.
  - intros x. split; [done|]. exists []. by rewrite app_nil_r.
  - intros x1 x2 x3 (Hid1 & l1 & Hh1 & Hf1 & Ha1) (Hid2 & l2 & Hh2 & Hf2 & Ha2).
    split; [congruence|]. exists (l1 ++ l2). split_and!.
    + by rewrite Hh2, Hh1, app_assoc.
    + by apply Forall_app.
    + by rewrite Ha2, Ha1, merge_changes_app.
Qed.

#[global] Instance agents_extend_preorder : PreOrder agents_extend.
Proof.
  split.
  - intros st a x Hx. by exists x.
  - intros st1 st2 st3 H1 H2 a x Hx.
    destruct (H1 a x Hx) as (x2 & Hx2 & He2).
    destruct (H2 a x2 Hx2) as (x3 & Hx3 & He3).
    exists x3. split; [done|]. by etrans.
Qed.

#[global] Instance only_touches_preorder X : PreOrder (only_touches X).
Proof.
  split; [by intros st a|].
  intros st1 st2 st3 H1 H2 a Ha. by rewrite H2, H1.
Qed.

#[global] Instance keeps_agents_preorder : PreOrder keeps_agents.
Proof.
  split; [by intros st|]. intros st1 st2 st3. unfold keeps_agents. congruence.
Qed.

Lemma MogiNode_execute_extends n a : preserves agents_extend (MogiNode_execute n a).
Proof.
  intros st.
  destruct (MogiNode_execute_cases n a st) as [w [E|(x & r & Hx & E)]];
    rewrite E; cbn [snd].
  - intros a' x' Hx'. by exists x'.
  - intros a' x' Hx'. cbn [agts set_agts set_ai].
    destruct (decide (a = a')) as [<-|Hne].
    + rewrite lookup_insert_eq. eexists. split; [done|].
      assert (x' = x) as -> by congruence.
      split; [done|]. eexists. split; [reflexivity|]. split; [|done].
      apply Forall_singleton. split_and!; [done|by eexists|done].
    + rewrite lookup_insert_ne by done. by exists x'.
Qed.

Lemma MogiNode_execute_touches X n a :
  a ∈ X -> preserves (only_touches X) (MogiNode_execute n a).
Proof.
  intros Ha st.
  destruct (MogiNode_execute_cases n a st) as [w [E|(x & r & Hx & E)]];
    rewrite E; cbn [snd]; intros a' Ha'; cbn [agts set_agts set_ai]; [done|].
  rewrite lookup_insert_ne; [done|]. by intros ->.
Qed.

(** *** Moves that leave every agent alone *)

Lemma putCond_keeps_agents c f : preserves keeps_agents (putCond c f).
Proof.
  intros st. unfold putCond, bind, getProc, putProc, modify, throw.
  destruct (procs st !! c) as [p|]; [|done]. by destruct (conditional p).
Qed.

Lemma MogiProcess_resetExecution_keeps_agents r :
  preserves keeps_agents (MogiProcess_resetExecution r).
Proof.
  intros st. unfold MogiProcess_resetExecution, bind, getProc, putProc, modify.
  by destruct (procs st !! r).
Qed.

Lemma resetExecution_at_keeps_agents d r :
  preserves keeps_agents (resetExecution_at d r).
Proof.
  revert r. induction d as [|d IH]; intros r; cbn [resetExecution_at].
  - by intros st.
  - apply preserves_bind; [tc_solve|apply preserves_pure, getProc_pure; tc_solve|].
    intros this. destruct (conditional this).
    + repeat first
        [ apply MogiProcess_resetExecution_keeps_agents
        | apply putCond_keeps_agents
        | apply IH
        | apply preserves_pure; [tc_solve|apply getCond_pure]
        | apply preserves_bind; [tc_solve| |intros] ].
    + apply MogiProcess_resetExecution_keeps_agents.
Qed.

(** *** Relations on the store that only look at the agents *)

Section AgentOnly.
Variable R : Store -> Store -> Prop.
Context `{!PreOrder R}.
Variable ok : AgentRef -> Prop.
Hypothesis R_agents : forall st st', agts st' = agts st -> R st st'.
Hypothesis R_node : forall n a, ok a -> preserves R (MogiNode_execute n a).

Lemma keeps_agents_preserves {A} (m : M Store A) :
  preserves keeps_agents m -> preserves R m.
Proof. intros Hm st. apply R_agents, Hm. Qed.

Ltac agent_step :=
  first
    [ apply preserves_ret; tc_solve
    | apply preserves_throw; tc_solve
    | apply preserves_pure; [tc_solve|first [apply getProc_pure|apply getAgent_pure|apply getCond_pure]]
    | apply R_node; assumption
    | apply keeps_agents_preserves;
        first [ apply putCond_keeps_agents
              | apply MogiProcess_resetExecution_keeps_agents
              | apply resetExecution_at_keeps_agents
              | by intros ? ]
    | apply preserves_bind; [tc_solve| |intros]
    | apply preserves_forM; [tc_solve|intros]
    | progress case_match ].

Lemma executeAgentStep_agents r a : ok a -> preserves R (executeAgentStep r a).
Proof. intros Ha. unfold executeAgentStep. repeat agent_step. Qed.

Lemma conditionalAgentStep_agents c a hm :
  ok a -> preserves R (conditionalAgentStep c a hm).
Proof.
  intros Ha. unfold conditionalAgentStep.
  repeat first [ apply executeAgentStep_agents; assumption | agent_step ].
Qed.

Lemma forM_agents {B} (ags : list AgentRef) (acc : B) body :
  Forall ok ags ->
  (forall a b, ok a -> preserves R (body a b)) ->
  preserves R (forM ags acc body).
Proof.
  intros Hall Hb. revert acc.
  induction Hall as [|a ags Ha _ IH]; intros acc; cbn [forM].
  - apply preserves_ret; tc_solve.
  - apply preserves_bind; [tc_solve|by apply Hb|apply IH].
Qed.

Lemma executeConditionalStep_agents c ags :
  Forall ok ags -> preserves R (executeConditionalStep c ags).
Proof.
  intros Hall. unfold executeConditionalStep.
  apply preserves_bind; [tc_solve| |intros hm].
  { apply forM_agents; [done|]. intros. by apply conditionalAgentStep_agents. }
  repeat agent_step.
Qed.

Lemma linearRound_agents n ags st :
  Forall ok ags -> R st (linearRound n ags st).
Proof.
  intros Hall. unfold linearRound.
  apply (forM_agents ags tt (fun a _ => MogiNode_execute n a)); [done|].
  intros. by apply R_node.
Qed.

Lemma runAgentThroughNodes_agents r a :
  ok a -> preserves R (runAgentThroughNodes r a).
Proof. intros Ha. unfold runAgentThroughNodes. repeat agent_step. Qed.

Lemma MogiProcess_execute_agents r ags :
  Forall ok ags -> preserves R (MogiProcess_execute r ags).
Proof.
  intros Hall. unfold MogiProcess_execute.
  apply forM_agents; [done|]. intros. by apply runAgentThroughNodes_agents.
Qed.

End AgentOnly.

End AgentInvariants.

(** ** The cases of a step *)

Section StepShape.
Context `{host : Host}.

Lemma bind_pure {S A B} (m : M S A) (k : A -> M S B) s :
  pure m ->
  bind m k s = match fst (m s) with
               | Ok a => k a s
               | Throw e => (Throw e, s)
               end.
Proof.
  intros Hm. unfold bind. specialize (Hm s).
  destruct (m s) as [[a|e] s']; simpl in *; by subst.
Qed.

Lemma liftStore_pure {A} (m : M Store A) : pure m -> pure (liftStore m).
Proof.
  intros Hm w. unfold liftStore. specialize (Hm (store w)).
  destruct (m (store w)) as [r st]. simpl in *. subst. by destruct w.
Qed.

Lemma liftStore_fst {A} (m : M Store A) w :
  fst (liftStore m w) = fst (m (store w)).
Proof. unfold liftStore. by destruct (m (store w)). Qed.

Lemma getSim_pure : pure getSim.
Proof. by intros w. Qed.

(** The linear path when the run cursor names no node. *)
Lemma forM_undefined_node (ags : list AgentRef) (w : World) :
  forM ags tt (fun (_ : AgentRef) (_ : unit) => @throw World unit TypeError) w =
    (match ags with [] => Ok tt | _ => Throw TypeError end, w).
Proof. by destruct ags. Qed.

(** [executeStep], case by case. *)
Lemma executeStep_eq w :
  executeStep w =
  let cs := currentState (sim w) in
  if isComplete cs then (Ok false, w)
  else
    match fst (findProcess (currentProcessId cs) (processes (sim w)) (store w)) with
    | Throw e => (Throw e, w)
    | Ok None =>
        (Ok false, {| sim := set_currentState (set_isComplete true cs) (sim w);
                      store := store w |})
    | Ok (Some r) =>
        match procs (store w) !! r with
        | None => (Throw TypeError, w)
        | Some p =>
            match fst (mapM getAgentState (activeAgents cs) w) with
            | Throw e => (Throw e, w)
            | Ok ags =>
                match conditional p with
                | Some _ =>
                    let '(res, st') := executeConditionalStep r ags (store w) in
                    (res, {| sim := sim w; store := st' |})
                | None =>
                    match nodes p !! nodeIndex cs, ags with
                    | None, _ :: _ => (Throw TypeError, w)
                    | n, _ =>
                        (Ok (S (nodeIndex cs) <? length (nodes p)),
                         {| sim := set_currentState
                                     (advanced (length (nodes p)) cs) (sim w);
                            store := match n with
                                     | Some n => linearRound n ags (store w)
                                     | None => store w
                                     end |})
                    end
                end
            end
        end
    end.
Proof.
  cbv zeta.
  destruct (isComplete (currentState (sim w))) eqn:Hic.
  { by apply executeStep_complete. }
  destruct (fst (findProcess _ _ _)) as [[r|]|e] eqn:Hf.
  - destruct (procs (store w) !! r) as [p|] eqn:Hr.
    + destruct (conditional p) as [cnd|] eqn:Hc.
      * destruct (executeStep_conditional w r p cnd Hf Hr Hc) as (x & Hx & ->).
        rewrite Hic, Hx. by destruct x.
      * destruct (fst (mapM getAgentState _ w)) as [ags|e] eqn:Ha.
        -- destruct (nodes p !! nodeIndex (currentState (sim w))) as [n|] eqn:Hn.
           ++ rewrite (executeStep_linear w r p n ags) by done. by destruct ags.
           ++ unfold executeStep.
              rewrite bind_pure by apply getSim_pure. cbn [fst getSim]. rewrite Hic.
              rewrite bind_pure by apply liftStore_pure, findProcess_pure.
              rewrite liftStore_fst, Hf.
              rewrite bind_pure by apply liftStore_pure, getProc_pure.
              rewrite liftStore_fst. unfold getProc at 1. rewrite Hr. cbn [fst].
              rewrite Hc, Hn.
              rewrite bind_pure by apply mapM_getAgentState_pure. rewrite Ha.
              rewrite (bind_pure (forM _ _ _)).
              2: { intros w'. by rewrite forM_undefined_node. }
              rewrite forM_undefined_node. cbn [fst].
              destruct ags as [|a ags]; [|done].
              destruct w as [sm st]. cbn [sim store] in *.
              unfold bind, modifySim, getSim, liftStore, ret. cbn [sim store].
              unfold getProc. rewrite Hr. unfold advanced, set_nodeIndex.
              cbn [nodeIndex isComplete currentState set_currentState].
              rewrite (Nat.ltb_antisym (length (nodes p))).
              destruct (length (nodes p) <=? S (nodeIndex (currentState sm)));
                cbn; by rewrite ?Hic.
        -- unfold executeStep.
           rewrite bind_pure by apply getSim_pure. cbn [fst getSim]. rewrite Hic.
           rewrite bind_pure by apply liftStore_pure, findProcess_pure.
           rewrite liftStore_fst, Hf.
           rewrite bind_pure by apply liftStore_pure, getProc_pure.
           rewrite liftStore_fst. unfold getProc at 1. rewrite Hr. cbn [fst].
           rewrite Hc.
           rewrite bind_pure by apply mapM_getAgentState_pure. by rewrite Ha.
    + unfold executeStep.
      rewrite bind_pure by apply getSim_pure. cbn [fst getSim]. rewrite Hic.
      rewrite bind_pure by apply liftStore_pure, findProcess_pure.
      rewrite liftStore_fst, Hf.
      rewrite bind_pure by apply liftStore_pure, getProc_pure.
      rewrite liftStore_fst. unfold getProc at 1. by rewrite Hr.
  - unfold executeStep.
    rewrite bind_pure by apply getSim_pure. cbn [fst getSim]. rewrite Hic.
    rewrite bind_pure by apply liftStore_pure, findProcess_pure.
    rewrite liftStore_fst, Hf. by destruct w.
  - unfold executeStep.
    rewrite bind_pure by apply getSim_pure. cbn [fst getSim]. rewrite Hic.
    rewrite bind_pure by apply liftStore_pure, findProcess_pure.
    by rewrite liftStore_fst, Hf.
Qed.

End StepShape.

(** ** What steps keep *)

Section StepInvariants.
Context `{host : Host}.

Lemma getAgentState_fst id w :
  fst (getAgentState id w) =
    match Map_get id (agents (sim w)) with
    | Some a => Ok a
    | None => Throw (Error ("Agent " +:+ id +:+ " not found in simulation"))
    end.
Proof.
  unfold getAgentState, bind, getSim. by destruct (Map_get id (agents (sim w))).
Qed.

(** The agents a step works on are the objects the active ids name. *)
Lemma mapM_getAgentState_refs ids w ags :
  fst (mapM getAgentState ids w) = Ok ags ->
  ags = omap (fun id => Map_get id (agents (sim w))) ids.
Proof.
  revert ags. induction ids as [|id ids IH]; intros ags; cbn [mapM].
  { cbn. by intros [= <-]. }
  rewrite bind_pure by apply getAgentState_pure.
  rewrite getAgentState_fst.
  change (omap (fun id => Map_get id (agents (sim w))) (id :: ids))
    with (match Map_get id (agents (sim w)) with
          | Some y => y :: omap (fun id => Map_get id (agents (sim w))) ids
          | None => omap (fun id => Map_get id (agents (sim w))) ids
          end).
  destruct (Map_get id (agents (sim w))) as [a|]; [|done].
  rewrite bind_pure by apply mapM_getAgentState_pure.
  destruct (fst (mapM getAgentState ids w)) as [l|e]; [|done].
  cbn. intros [= <-]. by rewrite (IH l).
Qed.

#[global] Instance run_state_moves_preorder : PreOrder run_state_moves.
Proof.
  split.
  - intros s. by split_and!.
  - intros s1 s2 s3 (A1 & B1 & C1 & D1 & E1 & F1 & G1 & H1 & I1 & J1)
                    (A2 & B2 & C2 & D2 & E2 & F2 & G2 & H2 & I2 & J2).
    split_and!; try congruence; [lia|auto].
Qed.

Lemma executeStep_run_state w :
  run_state_moves (sim w) (sim (snd (executeStep w))).
Proof.
  rewrite executeStep_eq. cbv zeta.
  destruct (isComplete (currentState (sim w))) eqn:Hic; [reflexivity|].
  destruct (fst (findProcess _ _ _)) as [[r|]|e]; [|by split_and!|reflexivity].
  destruct (procs (store w) !! r) as [p|]; [|reflexivity].
  destruct (fst (mapM getAgentState _ w)) as [ags|e]; [|reflexivity].
  destruct (conditional p).
  { destruct (executeConditionalStep r ags (store w)). reflexivity. }
  destruct (nodes p !! _) as [n|], ags as [|a ags]; cbn [snd sim];
    first [reflexivity | split_and!; cbn; try done; try lia; congruence].
Qed.

Lemma stepN_S k w : stepN (S k) w = snd (executeStep (stepN k w)).
Proof. done. Qed.

Lemma stepN_run_state w k : run_state_moves (sim w) (sim (stepN k w)).
Proof.
  induction k as [|k IH]; [reflexivity|].
  rewrite stepN_S. etrans; [exact IH|apply executeStep_run_state].
Qed.

Lemma active_refs_moves s s' :
  run_state_moves s s' -> active_refs s' = active_refs s.
Proof.
  intros (_ & _ & _ & Ea & _ & _ & _ & Eb & _). unfold active_refs.
  by rewrite Ea, Eb.
Qed.

(** A relation on the store that only looks at the agents is kept by a
    step as soon as node execution keeps it for the active agents. *)
Lemma executeStep_agents (R : Store -> Store -> Prop) `{!PreOrder R}
    (ok : AgentRef -> Prop) w :
  (forall st st', agts st' = agts st -> R st st') ->
  (forall n a, ok a -> preserves R (MogiNode_execute n a)) ->
  Forall ok (active_refs (sim w)) ->
  R (store w) (store (snd (executeStep w))).
Proof.
  intros Hagts Hnode Hok. rewrite executeStep_eq. cbv zeta.
  destruct (isComplete (currentState (sim w))) eqn:Hic; [reflexivity|].
  destruct (fst (findProcess _ _ _)) as [[r|]|e]; [|reflexivity|reflexivity].
  destruct (procs (store w) !! r) as [p|]; [|reflexivity].
  destruct (fst (mapM getAgentState _ w)) as [ags|e] eqn:Ha; [|reflexivity].
  apply mapM_getAgentState_refs in Ha. fold (active_refs (sim w)) in Ha. subst ags.
  destruct (conditional p).
  { pose proof (executeConditionalStep_agents R ok Hagts Hnode r _ Hok (store w)) as HR.
    by destruct (executeConditionalStep r (active_refs (sim w)) (store w)). }
  destruct (nodes p !! _) as [n|], (active_refs (sim w)) as [|a ags] eqn:Hl;
    cbn [snd store]; try reflexivity.
  - rewrite <- Hl in *. by apply (linearRound_agents R ok Hnode).
Qed.

Lemma stepN_agents (R : Store -> Store -> Prop) `{!PreOrder R}
    (ok : AgentRef -> Prop) w k :
  (forall st st', agts st' = agts st -> R st st') ->
  (forall n a, ok a -> preserves R (MogiNode_execute n a)) ->
  Forall ok (active_refs (sim w)) ->
  R (store w) (store (stepN k w)).
Proof.
  intros Hagts Hnode Hok. induction k as [|k IH]; [reflexivity|].
  rewrite stepN_S. etrans; [exact IH|].
  apply (executeStep_agents R ok); [done|done|].
  by rewrite (active_refs_moves _ _ (stepN_run_state w k)).
Qed.

Lemma executeStep_same_shape w :
  same_shape (store w) (store (snd (executeStep w))).
Proof.
  rewrite executeStep_eq. cbv zeta.
  destruct (isComplete (currentState (sim w))) eqn:Hic; [apply same_shape_refl|].
  destruct (fst (findProcess _ _ _)) as [[r|]|e];
    [|apply same_shape_refl|apply same_shape_refl].
  destruct (procs (store w) !! r) as [p|]; [|apply same_shape_refl].
  destruct (fst (mapM getAgentState _ w)) as [ags|e]; [|apply same_shape_refl].
  destruct (conditional p).
  { pose proof (executeConditionalStep_evolves r ags (store w)) as (HS & _).
    by destruct (executeConditionalStep r ags (store w)). }
  destruct (nodes p !! _) as [n|], ags as [|a ags]; cbn [snd store];
    try apply same_shape_refl.
  apply same_shape_eq. by destruct (linearRound_procs n (a :: ags) (store w)).
Qed.

(** X3: any number of [executeStep] calls, from any world, only extends
    agents and never reshapes a process.  Every agent object of the store
    is still there under the same id; its history is the old one followed
    by entries that nodes wrote (no process id, a node id, and as reasoning
    the [_reasoning] of the change set); its attributes are the old ones
    overlaid, in order, with the change sets of these entries.  Every
    process keeps its id, configuration, nodes, predicate and branches. *)
Theorem steps_replay_history w k :
  agents_extend (store w) (store (stepN k w)) /\
  same_shape (store w) (store (stepN k w)).
Proof.
  split.
  - apply (stepN_agents agents_extend (fun _ => True)).
    + intros st st' E a x Hx. exists x. by rewrite E.
    + intros n a _. apply MogiNode_execute_extends.
    + by apply Forall_forall.
  - induction k as [|k IH]; [apply same_shape_refl|].
    rewrite stepN_S. eapply same_shape_trans; [exact IH|].
    apply executeStep_same_shape.
Qed.

(** X4: steps work on the agents of the snapshot only.  An agent object
    that no id of [activeAgents] names in the agent map (an agent added
    after [initializeProcess], for one) is the same after any number of
    [executeStep] calls. *)
Theorem steps_touch_active_agents_only w k a :
  a ∉ active_refs (sim w) ->
  agts (store (stepN k w)) !! a = agts (store w) !! a.
Proof.
  intros Ha.
  apply (stepN_agents (only_touches (active_refs (sim w)))
           (fun a => a ∈ active_refs (sim w)) w k); [| |by apply Forall_forall|done].
  - intros st st' E a' _. by rewrite E.
  - intros n a' Ha'. by apply MogiNode_execute_touches.
Qed.

Lemma executeStep_index_bound w :
  nodeIndex (currentState (sim (snd (executeStep w)))) <=
  S (nodeIndex (currentState (sim w))).
Proof.
  rewrite executeStep_eq. cbv zeta.
  destruct (isComplete (currentState (sim w))) eqn:Hic; [cbn; lia|].
  destruct (fst (findProcess _ _ _)) as [[r|]|e]; [|cbn; lia|cbn; lia].
  destruct (procs (store w) !! r) as [p|]; [|cbn; lia].
  destruct (fst (mapM getAgentState _ w)) as [ags|e]; [|cbn; lia].
  destruct (conditional p).
  { destruct (executeConditionalStep r ags (store w)). cbn. lia. }
  destruct (nodes p !! _) as [n|], ags as [|a ags]; cbn; lia.
Qed.

Lemma stepN_complete w k :
  isComplete (currentState (sim w)) = true -> stepN k w = w.
Proof.
  intros Hc. induction k as [|k IH]; [done|].
  rewrite stepN_S, IH. by rewrite executeStep_complete.
Qed.

(** X5: in the simulation object, steps change the run state only, and
    that only forwards.  The tracked capabilities, the global usage, the
    queue, the agent map, the process list, the configuration, the current
    process id and the snapshot are as before; [nodeIndex] never decreases
    and grows by at most one per step; [isComplete] never goes back to
    false, and once it is true further steps change nothing at all. *)
Theorem steps_move_run_state_only w k :
  run_state_moves (sim w) (sim (stepN k w)) /\
  nodeIndex (currentState (sim (stepN k w))) <=
    nodeIndex (currentState (sim w)) + k /\
  (isComplete (currentState (sim w)) = true -> stepN k w = w).
Proof.
  split_and!.
  - apply stepN_run_state.
  - induction k as [|k IH]; [cbn; lia|].
    rewrite stepN_S. pose proof (executeStep_index_bound (stepN k w)). lia.
  - apply stepN_complete.
Qed.

End StepInvariants.

(** ** Looking an agent up *)

Section AgentLookup.
Context `{host : Host}.

(** X2: [getAgentState] returns the object registered under the id, or,
    when no agent is registered under it, throws the error whose message
    is [Agent <id> not found in simulation]; in both cases the world is
    left as it is. *)
Theorem getAgentState_registered_or_error id w :
  (exists a, ((id, a) ∈ agents (sim w)) /\ getAgentState id w = (Ok a, w)) \/
  ((id ∉ (fst <$> agents (sim w))) /\
   getAgentState id w =
     (Throw (Error ("Agent " +:+ id +:+ " not found in simulation")), w)).
Proof.
  pose proof (getAgentState_pure id w) as Hp.
  pose proof (getAgentState_fst id w) as Hf.
  destruct (Map_get id (agents (sim w))) as [a|] eqn:E.
  - left. exists a. split; [by apply Map_get_Some|].
    destruct (getAgentState id w) as [res w']. simpl in *. by subst.
  - right. split; [by apply Map_get_None|].
    destruct (getAgentState id w) as [res w']. simpl in *. by subst.
Qed.

End AgentLookup.

(** ** [MogiProcess.execute]: every agent through every node *)

Section WholeProcess.
Context `{host : Host}.

Lemma forM_nodes_run ns a st :
  forM ns tt (fun n _ => MogiNode_execute n a) st =
    (Ok tt, snd (forM ns tt (fun n _ => MogiNode_execute n a) st)) /\
  procs (snd (forM ns tt (fun n _ => MogiNode_execute n a) st)) = procs st /\
  evals (snd (forM ns tt (fun n _ => MogiNode_execute n a) st)) = evals st.
Proof.
  revert st. induction ns as [|n ns IH]; intros st; cbn [forM]; [done|].
  destruct (MogiNode_execute_run n a st) as (E & Hp & He).
  erewrite bind_ok by exact E.
  destruct (IH (snd (MogiNode_execute n a st))) as (E' & Hp' & He').
  split_and!; [done|congruence|congruence].
Qed.

Lemma runAgentThroughNodes_run r p a st :
  procs st !! r = Some p ->
  runAgentThroughNodes r a st =
    (Ok tt, snd (forM (nodes p) tt (fun n _ => MogiNode_execute n a) st)).
Proof.
  intros Hp. unfold runAgentThroughNodes.
  erewrite bind_ok by by apply getProc_eq.
  by destruct (forM_nodes_run (nodes p) a st) as (E & _).
Qed.

Lemma MogiProcess_execute_run r p ags st :
  procs st !! r = Some p ->
  MogiProcess_execute r ags st = (Ok tt, snd (MogiProcess_execute r ags st)) /\
  procs (snd (MogiProcess_execute r ags st)) = procs st /\
  evals (snd (MogiProcess_execute r ags st)) = evals st.
Proof.
  unfold MogiProcess_execute. revert st.
  induction ags as [|a ags IH]; intros st Hp; cbn [forM]; [done|].
  erewrite bind_ok by by eapply runAgentThroughNodes_run.
  destruct (forM_nodes_run (nodes p) a st) as (_ & Hp1 & He1).
  destruct (IH (snd (forM (nodes p) tt (fun n _ => MogiNode_execute n a) st)))
    as (E & Hp2 & He2); [by rewrite Hp1|].
  split_and!; [done|congruence|congruence].
Qed.

Lemma forM_nodes_touches ns a st :
  only_touches [a] st (snd (forM ns tt (fun n _ => MogiNode_execute n a) st)).
Proof.
  revert st. induction ns as [|n ns IH]; intros st; cbn [forM]; [reflexivity|].
  destruct (MogiNode_execute_run n a st) as (E & _).
  erewrite bind_ok by exact E.
  etrans; [|apply IH].
  apply MogiNode_execute_touches. by left.
Qed.

(** X6: [MogiProcess.execute] on a live process always returns normally,
    whatever the capability does, and it neither reads nor moves a cursor:
    no process object changes (a process that stepping has exhausted
    included), no predicate is evaluated, agents are only extended, and no
    agent but those passed in is touched. *)
Theorem MogiProcess_execute_ignores_cursor r p ags st :
  procs st !! r = Some p ->
  exists st',
    MogiProcess_execute r ags st = (Ok tt, st') /\
    procs st' = procs st /\
    evals st' = evals st /\
    agents_extend st st' /\
    only_touches ags st st'.
Proof.
  intros Hp. destruct (MogiProcess_execute_run r p ags st Hp) as (E & Hps & Hev).
  eexists. split; [exact E|]. split_and!; [done|done| |].
  - apply (MogiProcess_execute_agents agents_extend (fun _ => True)).
    + intros n a _. apply MogiNode_execute_extends.
    + by apply Forall_forall.
  - apply (MogiProcess_execute_agents (only_touches ags) (fun a => a ∈ ags)).
    + intros n a Ha. by apply MogiNode_execute_touches.
    + by apply Forall_forall.
Qed.

End WholeProcess.

Section WholeProcessReliable.
Context `{host : Host}.
Hypothesis Hreliable : reliable.

(** One agent through a list of nodes: one entry per node, in order. *)
Lemma forM_nodes_history ns a st x :
  agts st !! a = Some x ->
  exists x' new,
    agts (snd (forM ns tt (fun n _ => MogiNode_execute n a) st)) !! a = Some x' /\
    agent_id x' = agent_id x /\
    history x' = history x ++ new /\
    nodeId <$> new = node_ids ns.
Proof.
  revert st x. induction ns as [|n ns IH]; intros st x Hx; cbn [forM].
  { exists x, []. by rewrite app_nil_r. }
  destruct (MogiNode_execute_run n a st) as (E & _).
  erewrite bind_ok by exact E.
  destruct (MogiNode_execute_reliable Hreliable n a st x Hx) as (resp & Ha).
  destruct (IH (snd (MogiNode_execute n a st)) (applied n (parseAIReponse resp) x))
    as (x' & new & Hx' & Hid & Hh & Hn).
  { by rewrite Ha, lookup_insert_eq. }
  exists x'. eexists. split_and!; [done|done| |].
  - rewrite Hh. cbn [history applied]. rewrite <- app_assoc. reflexivity.
  - cbn. by rewrite Hn.
Qed.

(** X7: with a capability that never fails, [MogiProcess.execute] over
    distinct agents gives each of them the whole process: the history of
    every live agent passed in gains exactly one entry per node, in node
    order, wherever the cursor of the process stands. *)
Theorem MogiProcess_execute_histories r p ags st a x :
  procs st !! r = Some p ->
  NoDup ags ->
  a ∈ ags ->
  agts st !! a = Some x ->
  exists x' new,
    agts (snd (MogiProcess_execute r ags st)) !! a = Some x' /\
    agent_id x' = agent_id x /\
    history x' = history x ++ new /\
    nodeId <$> new = node_ids (nodes p).
Proof.
  intros Hp Hnd. revert st Hp. unfold MogiProcess_execute.
  induction Hnd as [|a0 ags Hnin Hnd IH]; intros st Hp Hin Hx.
  { by apply not_elem_of_nil in Hin. }
  cbn [forM]. erewrite bind_ok by by eapply runAgentThroughNodes_run.
  set (st1 := snd (forM (nodes p) tt (fun n _ => MogiNode_execute n a0) st)).
  assert (procs st1 !! r = Some p) as Hp1.
  { unfold st1. by destruct (forM_nodes_run (nodes p) a0 st) as (_ & -> & _). }
  apply elem_of_cons in Hin as [->|Hin].
  - destruct (forM_nodes_history (nodes p) a0 st x Hx)
      as (x' & new & Hx' & Hid & Hh & Hn). fold st1 in Hx'.
    exists x', new. split_and!; try done.
    pose proof (MogiProcess_execute_agents (only_touches ags) (fun a => a ∈ ags))
      as HT.
    unfold MogiProcess_execute in HT. rewrite HT; [done| | |done].
    + intros n a' Ha'. by apply MogiNode_execute_touches.
    + by apply Forall_forall.
  - apply IH; [done|done|].
    assert (only_touches [a0] st st1) as HT.
    { apply forM_nodes_touches. }
    rewrite HT; [done|].
    intros Hc. apply list_elem_of_singleton in Hc. by subst.
Qed.

End WholeProcessReliable.

(** ** Runs of a linear process *)

Section DriveFacts.
Context `{host : Host}.

Lemma stepN_succ_r k w : stepN (S k) w = stepN k (snd (executeStep w)).
Proof. unfold stepN. by rewrite Nat.iter_succ_r. Qed.

(** The loop of [runProcess] against the sequence of single steps. *)
Lemma drive_run fuel k w :
  (forall j, j < k -> fst (executeStep (stepN j w)) = Ok true) ->
  (fuel <= k -> drive fuel w = (Ok false, stepN fuel w)) /\
  (fst (executeStep (stepN k w)) = Ok false -> k < fuel ->
   drive fuel w = (Ok true, stepN (S k) w)).
Proof.
  revert k w. induction fuel as [|fuel IH]; intros k w Hlt.
  { split; [done|lia]. }
  cbn [drive]. destruct k as [|k].
  - split; [lia|]. intros Hf _.
    change (stepN 0 w) with w in Hf.
    change (stepN 1 w) with (snd (executeStep w)).
    unfold bind. destruct (executeStep w) as [res w']. by simplify_eq/=.
  - pose proof (Hlt 0 ltac:(lia)) as H0. change (stepN 0 w) with w in H0.
    destruct (IH k (snd (executeStep w))) as [IH1 IH2].
    { intros j Hj. rewrite <- stepN_succ_r. apply Hlt. lia. }
    rewrite <- !stepN_succ_r in IH1, IH2.
    unfold bind. destruct (executeStep w) as [res w'] eqn:E.
    cbn [fst snd] in *. subst res. split.
    + intros Hle. rewrite IH1 by lia. by rewrite stepN_succ_r, E.
    + intros Hf Hk. rewrite IH2; [|done|lia].
      by rewrite (stepN_succ_r (S k)), E.
Qed.

Lemma mapM_getAgentState_ok ids w :
  (forall id, id ∈ ids -> id ∈ (fst <$> agents (sim w))) ->
  mapM getAgentState ids w =
    (Ok (omap (fun id => Map_get id (agents (sim w))) ids), w).
Proof.
  intros Hin.
  rewrite (pure_run _ w (mapM_getAgentState_pure ids)). f_equal.
  induction ids as [|id ids IH]; [done|]. cbn [mapM].
  rewrite bind_pure by apply getAgentState_pure.
  rewrite getAgentState_fst.
  change (omap (fun id => Map_get id (agents (sim w))) (id :: ids))
    with (match Map_get id (agents (sim w)) with
          | Some y => y :: omap (fun id => Map_get id (agents (sim w))) ids
          | None => omap (fun id => Map_get id (agents (sim w))) ids
          end).
  destruct (Map_get id (agents (sim w))) as [a|] eqn:E.
  - rewrite bind_pure by apply mapM_getAgentState_pure.
    rewrite IH; [done|]. intros id' Hid'. apply Hin. by right.
  - apply Map_get_None in E. exfalso. apply E, Hin. by left.
Qed.

(** A step on a linear process with a node at the run cursor. *)
Lemma executeStep_linear_node w r p n :
  isComplete (currentState (sim w)) = false ->
  fst (findProcess (currentProcessId (currentState (sim w)))
         (processes (sim w)) (store w)) = Ok (Some r) ->
  procs (store w) !! r = Some p ->
  conditional p = None ->
  nodes p !! nodeIndex (currentState (sim w)) = Some n ->
  (forall id, id ∈ activeAgents (currentState (sim w)) ->
     id ∈ (fst <$> agents (sim w))) ->
  executeStep w =
    (Ok (S (nodeIndex (currentState (sim w))) <? length (nodes p)),
     {| sim := set_currentState
                 (advanced (length (nodes p)) (currentState (sim w))) (sim w);
        store := linearRound n (active_refs (sim w)) (store w) |}).
Proof.
  intros Hic Hf Hr Hc Hn Hids.
  rewrite (executeStep_linear w r p n (active_refs (sim w))); try done.
  unfold active_refs. by rewrite mapM_getAgentState_ok.
Qed.

(** The run state after [k] steps of a linear run on [N] nodes. *)
Lemma linear_run_states w1 r p k :
  isComplete (currentState (sim w1)) = false ->
  nodeIndex (currentState (sim w1)) = 0 ->
  fst (findProcess (currentProcessId (currentState (sim w1)))
         (processes (sim w1)) (store w1)) = Ok (Some r) ->
  procs (store w1) !! r = Some p ->
  conditional p = None ->
  (forall id, id ∈ activeAgents (currentState (sim w1)) ->
     id ∈ (fst <$> agents (sim w1))) ->
  0 < length (nodes p) ->
  k <= length (nodes p) ->
  sim (stepN k w1) =
    set_currentState
      {| currentProcessId := currentProcessId (currentState (sim w1));
         activeAgents := activeAgents (currentState (sim w1));
         nodeIndex := k;
         isComplete := length (nodes p) <=? k |} (sim w1) /\
  procs (store (stepN k w1)) = procs (store w1) /\
  (k < length (nodes p) ->
   exists n, nodes p !! k = Some n /\
     executeStep (stepN k w1) =
       (Ok (S k <? length (nodes p)),
        {| sim := set_currentState
                    (advanced (length (nodes p)) (currentState (sim (stepN k w1))))
                    (sim (stepN k w1));
           store := linearRound n (active_refs (sim w1)) (store (stepN k w1)) |})).
Proof.
  intros Hic Hi0 Hf Hr Hc Hids Hpos.
  assert (forall wk j,
    sim wk = set_currentState
      {| currentProcessId := currentProcessId (currentState (sim w1));
         activeAgents := activeAgents (currentState (sim w1));
         nodeIndex := j;
         isComplete := length (nodes p) <=? j |} (sim w1) ->
    procs (store wk) = procs (store w1) ->
    j < length (nodes p) ->
    exists n, nodes p !! j = Some n /\
      executeStep wk =
        (Ok (S j <? length (nodes p)),
         {| sim := set_currentState
                     (advanced (length (nodes p)) (currentState (sim wk))) (sim wk);
            store := linearRound n (active_refs (sim w1)) (store wk) |})) as Hstep.
  { intros wk j Es Eps Hj.
    destruct (lookup_lt_is_Some_2 (nodes p) j Hj) as [n Hn].
    exists n. split; [done|].
    assert (active_refs (sim wk) = active_refs (sim w1)) as Ear.
    { rewrite Es. done. }
    rewrite (executeStep_linear_node wk r p n).
    - rewrite Ear, Es. done.
    - rewrite Es. cbn. by apply Nat.leb_gt.
    - rewrite Es. cbn [currentState set_currentState currentProcessId processes].
      rewrite (findProcess_shape _ _ (store w1) (store wk))
        by by apply same_shape_eq.
      done.
    - by rewrite Eps.
    - done.
    - by rewrite Es.
    - rewrite Es. exact Hids. }
  induction k as [|k IH]; intros Hk.
  - assert (sim (stepN 0 w1) =
      set_currentState
        {| currentProcessId := currentProcessId (currentState (sim w1));
           activeAgents := activeAgents (currentState (sim w1));
           nodeIndex := 0;
           isComplete := length (nodes p) <=? 0 |} (sim w1)) as E0.
    { change (stepN 0 w1) with w1.
      rewrite (proj2 (Nat.leb_gt _ _) Hpos).
      destruct w1 as [[? ? ? [? ? ? ?] ? ? ?] ?]. cbn in *. by subst. }
    split_and!; [done|done|]. intros Hlt. by apply Hstep.
  - destruct IH as (Es & Eps & Hex); [lia|].
    destruct Hex as (n & Hn & E); [lia|].
    assert (sim (stepN (S k) w1) =
      set_currentState
        {| currentProcessId := currentProcessId (currentState (sim w1));
           activeAgents := activeAgents (currentState (sim w1));
           nodeIndex := S k;
           isComplete := length (nodes p) <=? S k |} (sim w1)) as Es'.
    { rewrite stepN_S, E. cbn [snd sim]. rewrite Es. done. }
    assert (procs (store (stepN (S k) w1)) = procs (store w1)) as Eps'.
    { rewrite stepN_S, E. cbn [snd store].
      destruct (linearRound_procs n (active_refs (sim w1)) (store (stepN k w1)))
        as [-> _]. done. }
    split_and!; [done|done|]. intros Hlt. by apply Hstep.
Qed.

End DriveFacts.

Section LinearRuns.
Context `{host : Host}.

(** The world right after [initializeProcess] on a plain process. *)
Lemma initializeProcess_linear w0 r p :
  0 < stack_limit ->
  procs (store w0) !! r = Some p ->
  conditional p = None ->
  id_unique (store w0) r p (processes (sim w0)) ->
  exists w1,
    initializeProcess r w0 = (Ok tt, w1) /\
    store w1 = store w0 /\
    agents (sim w1) = agents (sim w0) /\
    currentState (sim w1) =
      {| currentProcessId := Some (proc_id p);
         activeAgents := fst <$> agents (sim w0);
         nodeIndex := 0; isComplete := false |} /\
    fst (findProcess (currentProcessId (currentState (sim w1)))
           (processes (sim w1)) (store w1)) = Ok (Some r).
Proof.
  intros Hd Hp Hc Hu.
  eexists. split.
  { apply initializeProcess_eq; [done|by apply getAIServices_linear]. }
  destruct (initialized_fields r (proc_id p) (MogiProcess_getAIServices p) (sim w0))
    as [Hags Hprocs].
  pose proof (initialized_currentState r (proc_id p)
                (MogiProcess_getAIServices p) (sim w0)) as Hcs.
  cbn [sim store]. split_and!; [done|done|done|].
  rewrite Hcs, Hprocs. cbn [currentProcessId]. by apply findProcess_found.
Qed.

(** X8: [runProcess] on a plain process of [N >= 1] nodes, whose id no
    registered process carries, makes exactly [N] calls of [executeStep]
    (given room for one frame on the call stack): the loop is still
    running after fewer, and when [N] or more are allowed it has stopped in
    the world that [N] steps after [initializeProcess] give.  There
    [nodeIndex] is [N] and [isComplete] is true, no process object has
    changed (the cursor of the process is not used), and agents are only
    extended. *)
Theorem runProcess_linear_terminates w0 r p :
  0 < stack_limit ->
  procs (store w0) !! r = Some p ->
  conditional p = None ->
  0 < length (nodes p) ->
  id_unique (store w0) r p (processes (sim w0)) ->
  exists w1,
    initializeProcess r w0 = (Ok tt, w1) /\
    (forall fuel, fuel < length (nodes p) ->
       fst (runProcess fuel r w0) = Ok false) /\
    (forall fuel, length (nodes p) <= fuel ->
       runProcess fuel r w0 = (Ok true, stepN (length (nodes p)) w1)) /\
    nodeIndex (currentState (sim (stepN (length (nodes p)) w1))) =
      length (nodes p) /\
    isComplete (currentState (sim (stepN (length (nodes p)) w1))) = true /\
    procs (store (stepN (length (nodes p)) w1)) = procs (store w0) /\
    agents_extend (store w0) (store (stepN (length (nodes p)) w1)).
Proof.
  intros Hd Hp Hc Hpos Hu.
  destruct (initializeProcess_linear w0 r p Hd Hp Hc Hu)
    as (w1 & Hinit & Hst & Hags & Hcs & Hf).
  exists w1. split; [done|].
  set (N := length (nodes p)) in *.
  assert (forall k, k <= N ->
    sim (stepN k w1) =
      set_currentState
        {| currentProcessId := currentProcessId (currentState (sim w1));
           activeAgents := activeAgents (currentState (sim w1));
           nodeIndex := k; isComplete := N <=? k |} (sim w1) /\
    procs (store (stepN k w1)) = procs (store w1) /\
    (k < N -> fst (executeStep (stepN k w1)) = Ok (S k <? N))) as Hrun.
  { intros k Hk.
    destruct (linear_run_states w1 r p k) as (Es & Eps & Hex); try done.
    - by rewrite Hcs.
    - by rewrite Hcs.
    - by rewrite Hst.
    - rewrite Hcs, Hags. done.
    - split_and!; [done|done|]. intros Hlt.
      destruct (Hex Hlt) as (n & _ & ->). done. }
  assert (forall j, j < N -> fst (executeStep (stepN j w1)) = Ok (S j <? N))
    as Hres.
  { intros j Hj. destruct (Hrun j ltac:(lia)) as (_ & _ & E). by apply E. }
  assert (forall j, j < N - 1 -> fst (executeStep (stepN j w1)) = Ok true) as Htrue.
  { intros j Hj. rewrite Hres by lia.
    by rewrite (proj2 (Nat.ltb_lt _ _)) by lia. }
  assert (fst (executeStep (stepN (N - 1) w1)) = Ok false) as Hlast.
  { rewrite Hres by lia. by rewrite (proj2 (Nat.ltb_ge _ _)) by lia. }
  split_and!.
  - intros fuel Hfuel. unfold runProcess. erewrite bind_ok by exact Hinit.
    by rewrite (proj1 (drive_run fuel (N - 1) w1 Htrue)) by lia.
  - intros fuel Hfuel. unfold runProcess. erewrite bind_ok by exact Hinit.
    rewrite (proj2 (drive_run fuel (N - 1) w1 Htrue) Hlast) by lia.
    by replace (S (N - 1)) with N by lia.
  - destruct (Hrun N ltac:(lia)) as (-> & _). done.
  - destruct (Hrun N ltac:(lia)) as (-> & _). cbn. by apply Nat.leb_le.
  - destruct (Hrun N ltac:(lia)) as (_ & -> & _). by rewrite Hst.
  - rewrite <- Hst.
    apply (stepN_agents agents_extend (fun _ => True)).
    + intros st st' E a x Hx. exists x. by rewrite E.
    + intros n a _. apply MogiNode_execute_extends.
    + by apply Forall_forall.
Qed.

End LinearRuns.

Section LinearRunsReliable.
Context `{host : Host}.
Hypothesis Hreliable : reliable.

(** One linear round gives every agent of the round one entry, which
    names the node. *)
Lemma linearRound_entry n ags st a x :
  NoDup ags -> a ∈ ags -> agts st !! a = Some x ->
  exists x' h,
    agts (linearRound n ags st) !! a = Some x' /\
    agent_id x' = agent_id x /\
    history x' = history x ++ [h] /\
    nodeId h = Some (node_id n).
Proof.
  unfold linearRound. intros Hnd. revert st.
  induction Hnd as [|a0 ags Hnin Hnd IH]; intros st Hin Hx.
  { by apply not_elem_of_nil in Hin. }
  cbn [forM]. destruct (MogiNode_execute_run n a0 st) as (E & _).
  erewrite bind_ok by exact E.
  apply elem_of_cons in Hin as [->|Hin].
  - destruct (MogiNode_execute_reliable Hreliable n a0 st x Hx) as (resp & Ha).
    exists (applied n (parseAIReponse resp) x). eexists.
    split_and!; [|done|cbn [applied history]; reflexivity|done].
    pose proof (linearRound_agents (only_touches ags) (fun a => a ∈ ags)) as HT.
    unfold linearRound in HT. rewrite HT; [| |by apply Forall_forall|done].
    + rewrite Ha. by rewrite lookup_insert_eq.
    + intros n' a' Ha'. by apply MogiNode_execute_touches.
  - apply IH; [done|].
    rewrite (MogiNode_execute_touches [a0] n a0); [done|by left|].
    intros Hc. apply list_elem_of_singleton in Hc. by subst.
Qed.

(** X9: if moreover the capability never fails and the agent map names
    one object per id, the run gives every registered agent one history
    entry per node of the process, in node order. *)
Theorem runProcess_linear_histories w0 r p fuel :
  0 < stack_limit ->
  agents_wf (sim w0) ->
  procs (store w0) !! r = Some p ->
  conditional p = None ->
  0 < length (nodes p) ->
  id_unique (store w0) r p (processes (sim w0)) ->
  length (nodes p) <= fuel ->
  exists w',
    runProcess fuel r w0 = (Ok true, w') /\
    forall a x, a ∈ (snd <$> agents (sim w0)) ->
      agts (store w0) !! a = Some x ->
      exists x' new,
        agts (store w') !! a = Some x' /\
        agent_id x' = agent_id x /\
        history x' = history x ++ new /\
        nodeId <$> new = node_ids (nodes p).
Proof.
  intros Hd [Hk Hv] Hp Hc Hpos Hu Hfuel.
  destruct (initializeProcess_linear w0 r p Hd Hp Hc Hu)
    as (w1 & Hinit & Hst & Hags & Hcs & Hf).
  set (N := length (nodes p)) in *.
  assert (active_refs (sim w1) = snd <$> agents (sim w0)) as Hrefs.
  { unfold active_refs. rewrite Hcs, Hags. cbn [activeAgents].
    pose proof (mapM_getAgentState_keys w0 Hk) as E1.
    apply (f_equal fst) in E1. cbn [fst] in E1.
    by apply mapM_getAgentState_refs in E1. }
  assert (forall k, k <= N ->
    forall a x, a ∈ (snd <$> agents (sim w0)) -> agts (store w0) !! a = Some x ->
    exists x' new,
      agts (store (stepN k w1)) !! a = Some x' /\
      agent_id x' = agent_id x /\
      history x' = history x ++ new /\
      nodeId <$> new = node_ids (take k (nodes p))) as Hhist.
  { induction k as [|k IH]; intros Hk' a x Ha Hx.
    - exists x, []. change (stepN 0 w1) with w1. rewrite Hst, app_nil_r.
      by rewrite take_0.
    - destruct (IH ltac:(lia) a x Ha Hx) as (x1 & new & Hx1 & Hid1 & Hh1 & Hn1).
      destruct (linear_run_states w1 r p k) as (_ & _ & Hex); try done.
      + by rewrite Hcs.
      + by rewrite Hcs.
      + by rewrite Hst.
      + rewrite Hcs, Hags. done.
      + lia.
      + destruct Hex as (n & Hn & E); [fold N; lia|].
        rewrite stepN_S, E. cbn [snd store]. rewrite Hrefs.
        destruct (linearRound_entry n (snd <$> agents (sim w0))
                    (store (stepN k w1)) a x1 Hv Ha Hx1)
          as (x' & h & Hx' & Hid' & Hh' & Hnode).
        exists x', (new ++ [h]). split_and!; [done|congruence| |].
        * by rewrite Hh', Hh1, app_assoc.
        * rewrite (take_S_r _ _ n) by done.
          unfold node_ids in *. rewrite !fmap_app, Hn1. cbn. by rewrite Hnode. }
  exists (stepN N w1). split.
  - unfold runProcess. erewrite bind_ok by exact Hinit.
    assert (forall j, j < N ->
      fst (executeStep (stepN j w1)) = Ok (S j <? N)) as Hres.
    { intros j Hj.
      destruct (linear_run_states w1 r p j) as (_ & _ & Hex); try done.
      - by rewrite Hcs.
      - by rewrite Hcs.
      - by rewrite Hst.
      - rewrite Hcs, Hags. done.
      - fold N. lia.
      - destruct Hex as (n & _ & ->); [done|]. done. }
    rewrite (proj2 (drive_run fuel (N - 1) w1
               ltac:(intros j Hj; rewrite Hres by lia;
                     by rewrite (proj2 (Nat.ltb_lt _ _)) by lia))).
    + by replace (S (N - 1)) with N by lia.
    + rewrite Hres by lia. by rewrite (proj2 (Nat.ltb_ge _ _)) by lia.
    + lia.
  - intros a x Ha Hx.
    destruct (Hhist N ltac:(lia) a x Ha Hx) as (x' & new & Hx' & Hid & Hh & Hn).
    exists x', new. split_and!; try done.
    by rewrite take_ge in Hn by (unfold N; lia).
Qed.

End LinearRunsReliable.

(** ** Which process a step runs *)

Section Shadowing.
Context `{host : Host}.

Lemma findProcess_first st pid l1 r l2 p :
  Forall (fun r' => exists q, procs st !! r' = Some q /\ Some (proc_id q) <> pid) l1 ->
  procs st !! r = Some p -> Some (proc_id p) = pid ->
  findProcess pid (l1 ++ r :: l2) st = (Ok (Some r), st).
Proof.
  intros Hl1 Hp Hid. induction Hl1 as [|r' l1 (q & Hq & Hne) _ IH]; cbn [app findProcess].
  - erewrite bind_ok by by apply getProc_eq. by rewrite decide_True.
  - erewrite bind_ok by by apply getProc_eq. by rewrite decide_False.
Qed.

(** X10: the current process is found by id, and the first match wins.
    When a plain process [p1] registered earlier carries the id of the
    process passed to [initializeProcess], the next step runs node 0 of
    [p1], not of the new process, for the active agents, and the run is
    measured against the length of [p1]. *)
Theorem stale_process_shadows_same_id w0 r1 p1 n1 r2 p2 services l1 l2 :
  processes (sim w0) = l1 ++ r1 :: l2 ->
  Forall (fun r' => exists q, procs (store w0) !! r' = Some q /\
                      proc_id q <> proc_id p2) l1 ->
  procs (store w0) !! r1 = Some p1 ->
  proc_id p1 = proc_id p2 ->
  conditional p1 = None ->
  nodes p1 !! 0 = Some n1 ->
  procs (store w0) !! r2 = Some p2 ->
  fst (getAIServices r2 (store w0)) = Ok services ->
  exists w1,
    initializeProcess r2 w0 = (Ok tt, w1) /\
    executeStep w1 =
      (Ok (1 <? length (nodes p1)),
       {| sim := set_currentState
                   (advanced (length (nodes p1)) (currentState (sim w1))) (sim w1);
          store := linearRound n1 (active_refs (sim w1)) (store w0) |}).
Proof.
  intros Hprocs Hl1 Hp1 Hid Hc1 Hn1 Hp2 Hsv.
  eexists. split; [by eapply initializeProcess_eq|].
  destruct (initialized_fields r2 (proc_id p2) services (sim w0)) as [Hags Hps].
  pose proof (initialized_currentState r2 (proc_id p2) services (sim w0)) as Hcs.
  set (w1 := {| sim := initialized r2 (proc_id p2) services (sim w0);
                store := store w0 |}).
  rewrite (executeStep_linear_node w1 r1 p1 n1); unfold w1; cbn [sim store].
  - by rewrite Hcs.
  - by rewrite Hcs.
  - rewrite Hcs, Hps, Hprocs. cbn [currentProcessId].
    rewrite <- app_assoc. cbn [app].
    erewrite findProcess_first; [done| |done|by rewrite Hid].
    eapply Forall_impl; [exact Hl1|]. intros r' (q & Hq & Hne).
    exists q. split; [done|]. congruence.
  - done.
  - done.
  - by rewrite Hcs.
  - rewrite Hcs, Hags. done.
Qed.

End Shadowing.

(** ** [resetExecution] on a tree of processes *)

Section Rewind.
Context `{host : Host}.
Variable rk : ProcRef -> nat.

Lemma descends_rank st c r :
  ranked rk st -> descends st c r -> rk r <= rk c.
Proof.
  intros Hrk. induction 1 as [r|c p cnd r Hp Hc _ IH|c p cnd r Hp Hc _ IH];
    [done| |];
    destruct (ranked_branches rk st c p cnd Hrk Hp Hc); lia.
Qed.

Lemma same_shape_lookup st st' r p :
  same_shape st st' -> procs st !! r = Some p ->
  exists p', procs st' !! r = Some p' /\ shape p' = shape p.
Proof.
  intros Hs Hp. specialize (Hs r). rewrite Hp in Hs.
  destruct (procs st' !! r) as [p'|]; [|done].
  exists p'. split; [done|]. cbn in Hs. congruence.
Qed.

Lemma descends_shape st st' c r :
  same_shape st st' -> descends st c r -> descends st' c r.
Proof.
  intros Hs. induction 1 as [r|c p cnd r Hp Hc _ IH|c p cnd r Hp Hc _ IH].
  - constructor.
  - destruct (same_shape_lookup st st' c p Hs Hp) as (p' & Hp' & E).
    destruct (shape_conditional p p' cnd E Hc) as (cnd' & Hc' & Et & _).
    eapply descends_true; [done|done|]. by rewrite Et.
  - destruct (same_shape_lookup st st' c p Hs Hp) as (p' & Hp' & E).
    destruct (shape_conditional p p' cnd E Hc) as (cnd' & Hc' & _ & Ef & _).
    eapply descends_false; [done|done|]. by rewrite Ef.
Qed.

Lemma same_shape_sym st st' : same_shape st st' -> same_shape st' st.
Proof. intros Hs r. by rewrite Hs. Qed.

Lemma rewind_at d : forall c st,
  ranked rk st ->
  rk c < d ->
  (forall r, descends st c r -> is_Some (procs st !! r)) ->
  exists st',
    resetExecution_at d c st = (Ok tt, st') /\
    same_shape st st' /\
    agts st' = agts st /\ evals st' = evals st /\ ai st' = ai st /\
    (forall r, descends st c r -> rewound st' r) /\
    (forall r, rewound st r -> rewound st' r) /\
    (forall r, ~ descends st c r -> procs st' !! r = procs st !! r).
Proof.
  induction d as [|d IH]; intros c st Hrk Hlt Hlive; [lia|].
  cbn [resetExecution_at].
  destruct (Hlive c (descends_here st c)) as [p Hp].
  erewrite bind_ok by by apply getProc_eq.
  destruct (conditional p) as [cnd|] eqn:Hc.
  2: { rewrite (MogiProcess_resetExecution_eq _ _ p) by done.
       eexists. split; [done|]. cbn [agts evals ai set_procs].
       assert (procs (set_procs (insert c (set_index 0 p)) st) !! c =
               Some (set_index 0 p)) as Hc'.
       { cbn. by rewrite lookup_insert_eq. }
       split_and!; [|done|done|done| | |].
       - intros r. cbn. destruct (decide (c = r)) as [<-|Hne].
         + by rewrite lookup_insert_eq, Hp.
         + by rewrite lookup_insert_ne.
       - intros r Hd. inversion Hd; simplify_eq.
         exists (set_index 0 p). split_and!; [done|done|]. cbn. by rewrite Hc.
       - intros r (q & Hq & Hi & Hb). destruct (decide (c = r)) as [<-|Hne].
         + exists (set_index 0 p). split_and!; [done|done|]. cbn. by rewrite Hc.
         + exists q. split_and!; [|done|done]. cbn. by rewrite lookup_insert_ne.
       - intros r Hnd. cbn. rewrite lookup_insert_ne; [done|].
         intros <-. apply Hnd. constructor. }
  erewrite bind_ok by by apply MogiProcess_resetExecution_eq.
  set (st1 := set_procs (insert c (set_index 0 p)) st).
  set (p2 := set_conditional (Some (set_branchStates ∅ cnd)) (set_index 0 p)).
  erewrite bind_ok.
  2: { eapply (putCond_eq st1 c (set_index 0 p) cnd); [|done].
       cbn. by rewrite lookup_insert_eq. }
  set (st2 := set_procs (insert c p2) st1).
  assert (procs st2 !! c = Some p2) as Hp2 by (cbn; by rewrite lookup_insert_eq).
  assert (forall r, r <> c -> procs st2 !! r = procs st !! r) as Hst2.
  { intros r Hne. cbn. by rewrite !lookup_insert_ne. }
  assert (same_shape st st2) as Hshape2.
  { intros r. destruct (decide (r = c)) as [->|Hne].
    - rewrite Hp2, Hp. cbn. f_equal. unfold shape. cbn. by rewrite Hc.
    - by rewrite Hst2. }
  assert (ranked rk st2) as Hrk2 by by eapply ranked_same_shape.
  destruct (ranked_branches rk st c p cnd Hrk Hp Hc) as [Ht Hf].
  assert (forall r, rewound st r -> rewound st2 r) as Hmono2.
  { intros r (q & Hq & Hi & Hb). destruct (decide (r = c)) as [->|Hne].
    - exists p2. split_and!; [done|done|]. by intros cnd' [= <-].
    - exists q. by rewrite Hst2. }
  erewrite bind_ok by by eapply getCond_eq.
  cbn [trueBranch set_branchStates].
  destruct (IH (trueBranch cnd) st2 Hrk2 ltac:(lia)) as
    (st3 & E3 & Hshape3 & Ha3 & He3 & Hi3 & Hdesc3 & Hmono3 & Hother3).
  { intros r Hd. apply (descends_shape st2 st) in Hd; [|by apply same_shape_sym].
    assert (rk r <= rk (trueBranch cnd)) by by apply (descends_rank st).
    rewrite Hst2 by (intros ->; lia).
    apply Hlive. by eapply descends_true. }
  erewrite bind_ok by exact E3.
  assert (procs st3 !! c = Some p2) as Hp3.
  { rewrite Hother3; [done|]. intros Hd.
    apply (descends_rank st2 _ _ Hrk2) in Hd. lia. }
  erewrite bind_ok by by eapply (getCond_eq st3 c p2).
  cbn [falseBranch set_branchStates].
  assert (same_shape st st3) as Hshape03 by by eapply same_shape_trans.
  assert (ranked rk st3) as Hrk3 by by eapply ranked_same_shape.
  destruct (IH (falseBranch cnd) st3 Hrk3 ltac:(lia)) as
    (st4 & E4 & Hshape4 & Ha4 & He4 & Hi4 & Hdesc4 & Hmono4 & Hother4).
  { intros r Hd. apply (descends_shape st3 st) in Hd; [|by apply same_shape_sym].
    assert (is_Some (procs st !! r)) as [q Hq]
      by (apply Hlive; by eapply descends_false).
    destruct (same_shape_lookup st st3 r q Hshape03 Hq) as (q' & Hq' & _).
    by eexists. }
  exists st4. split; [done|]. split_and!.
  - by eapply same_shape_trans.
  - by rewrite Ha4, Ha3.
  - by rewrite He4, He3.
  - by rewrite Hi4, Hi3.
  - intros r Hd. inversion Hd as [|c' p' cnd' r' Hp' Hc' Hd'|c' p' cnd' r' Hp' Hc' Hd'];
      simplify_eq.
    + apply Hmono4, Hmono3. exists p2. split_and!; [done|done|].
      by intros cnd' [= <-].
    + apply Hmono4, Hdesc3. by apply (descends_shape st st2).
    + apply Hdesc4. by apply (descends_shape st st3).
  - intros r Hr. by apply Hmono4, Hmono3, Hmono2.
  - intros r Hnd.
    assert (r <> c) as Hne by (intros ->; apply Hnd; constructor).
    rewrite Hother4, Hother3, Hst2; [done|done| |].
    + intros Hd. apply Hnd. eapply descends_true; [done|done|].
      by apply (descends_shape st2 st); [apply same_shape_sym|].
    + intros Hd. apply Hnd. eapply descends_false; [done|done|].
      by apply (descends_shape st3 st); [apply same_shape_sym|].
Qed.

(** X11: on a process graph without cycle that fits the call stack, the
    virtual [resetExecution] rewinds the whole tree below the process:
    every process reachable through branches has its cursor at 0 and, if
    conditional, no agent bound.  Ids, nodes, predicates and branches are
    kept; processes outside the tree, the agents, the trace of predicate
    evaluations and the capabilities are untouched. *)
Theorem resetExecution_rewinds_tree st c :
  ranked rk st ->
  rk c < stack_limit ->
  (forall r, descends st c r -> is_Some (procs st !! r)) ->
  exists st',
    resetExecution c st = (Ok tt, st') /\
    same_shape st st' /\
    agts st' = agts st /\ evals st' = evals st /\ ai st' = ai st /\
    (forall r, descends st c r -> rewound st' r) /\
    (forall r, ~ descends st c r -> procs st' !! r = procs st !! r).
Proof.
  intros Hrk Hlt Hlive. unfold resetExecution.
  destruct (rewind_at stack_limit c st Hrk Hlt Hlive)
    as (st' & E & Hs & Ha & He & Hi & Hd & _ & Ho).
  exists st'. by split_and!.
Qed.

End Rewind.

(** ** Which capabilities a simulation tracks *)

Section Tracking.
Context `{host : Host}.

Lemma descends_plain st c p r :
  procs st !! c = Some p -> conditional p = None -> descends st c r -> r = c.
Proof. intros Hp Hc Hd. inversion Hd; simplify_eq; done. Qed.

(** [getAIServices] lists the capabilities of the nodes of every process
    below the one it is called on. *)
Lemma getAIServices_at_elems d c st l :
  fst (getAIServices_at d c st) = Ok l ->
  forall s, s ∈ l <->
    exists r p n, descends st c r /\ procs st !! r = Some p /\
                  n ∈ nodes p /\ getAIService n = s.
Proof.
  revert c l. induction d as [|d IH]; intros c l; cbn [getAIServices_at]; [done|].
  rewrite bind_pure by apply getProc_pure. unfold getProc at 1.
  destruct (procs st !! c) as [p|] eqn:Hp; [|done]. cbn [fst].
  destruct (conditional p) as [cnd|] eqn:Hc.
  - rewrite bind_pure by apply getAIServices_at_pure.
    destruct (fst (getAIServices_at d (trueBranch cnd) st)) as [lt|e] eqn:Et; [|done].
    rewrite bind_pure by apply getAIServices_at_pure.
    destruct (fst (getAIServices_at d (falseBranch cnd) st)) as [lf|e] eqn:Ef; [|done].
    cbn. intros [= <-] s. rewrite !elem_of_app, list_elem_of_fmap.
    rewrite (IH _ _ Et s), (IH _ _ Ef s). split.
    + intros [(n & -> & Hn)|[(r & q & n & Hd & Hq & Hn & <-)|(r & q & n & Hd & Hq & Hn & <-)]].
      * exists c, p, n. split_and!; [constructor|done|done|done].
      * exists r, q, n. split_and!; [by eapply descends_true|done|done|done].
      * exists r, q, n. split_and!; [by eapply descends_false|done|done|done].
    + intros (r & q & n & Hd & Hq & Hn & <-).
      inversion Hd as [|c' p' cnd' r' Hp' Hc' Hd'|c' p' cnd' r' Hp' Hc' Hd'];
        simplify_eq.
      * left. by exists n.
      * right. left. by exists r, q, n.
      * right. right. by exists r, q, n.
  - cbn. intros [= <-] s. unfold MogiProcess_getAIServices.
    rewrite list_elem_of_fmap. split.
    + intros (n & -> & Hn). exists c, p, n. split_and!; [constructor|done|done|done].
    + intros (r & q & n & Hd & Hq & Hn & <-).
      apply (descends_plain st c p) in Hd; [|done|done]. simplify_eq. by exists n.
Qed.

Lemma track_services s x :
  aiServices s `prefix_of` aiServices (track s x) /\
  (forall y, y ∈ aiServices (track s x) <-> y ∈ aiServices s \/ y = x) /\
  (NoDup (aiServices s) -> NoDup (aiServices (track s x))).
Proof.
  unfold track. case_decide as Hin; cbn [aiServices set_aiServices].
  - split_and!; [done| |done]. intros y. split; [by left|]. by intros [?| ->].
  - split_and!.
    + by apply prefix_app_r.
    + intros y. rewrite elem_of_app, list_elem_of_singleton. done.
    + intros Hnd. apply NoDup_app. split_and!; [done| |apply NoDup_singleton].
      intros y Hy Hy'. apply list_elem_of_singleton in Hy'. by subst.
Qed.

Lemma foldl_track_services s l :
  aiServices s `prefix_of` aiServices (foldl track s l) /\
  (forall y, y ∈ aiServices (foldl track s l) <-> y ∈ aiServices s \/ y ∈ l) /\
  (NoDup (aiServices s) -> NoDup (aiServices (foldl track s l))).
Proof.
  revert s. induction l as [|x l IH]; intros s; cbn [foldl].
  - split_and!; [done| |done]. intros y. split; [by left|].
    intros [?|Hy]; [done|]. by apply not_elem_of_nil in Hy.
  - destruct (IH (track s x)) as (H1 & H2 & H3).
    destruct (track_services s x) as (T1 & T2 & T3).
    split_and!.
    + by etrans.
    + intros y. rewrite H2, T2, elem_of_cons. tauto.
    + auto.
Qed.

(** X12: a successful [initializeProcess] tracks exactly the capabilities
    of the process tree.  The tracked list is the old one followed by new
    entries, it stays free of duplicates, and afterwards it holds a
    capability if and only if that capability was tracked before or
    belongs to a node of a process reachable from the given one through
    branches. *)
Theorem initializeProcess_tracks_services c w w1 :
  initializeProcess c w = (Ok tt, w1) ->
  aiServices (sim w) `prefix_of` aiServices (sim w1) /\
  (NoDup (aiServices (sim w)) -> NoDup (aiServices (sim w1))) /\
  forall s, s ∈ aiServices (sim w1) <->
    s ∈ aiServices (sim w) \/
    exists r p n, descends (store w) c r /\ procs (store w) !! r = Some p /\
                  n ∈ nodes p /\ aiService (node_config n) = s.
Proof.
  intros Hi.
  destruct (initializeProcess_inv c w w1 Hi) as (p & services & Hp & Hs & ->).
  cbn [sim]. unfold initialized.
  match goal with |- context [foldl (enqueue ?pid) ?s3 ?l] =>
    destruct (foldl_enqueue_fields pid s3 l) as (_ & _ & _ & _ & ->) end.
  cbn [aiServices set_processes].
  match goal with |- context [foldl track ?s1 ?l] =>
    destruct (foldl_track_services s1 l) as (H1 & H2 & H3) end.
  cbn [aiServices set_executionQueue set_currentState] in *.
  split_and!; [done|done|].
  intros s. rewrite H2.
  unfold getAIServices in Hs.
  by rewrite (getAIServices_at_elems _ _ _ _ Hs s).
Qed.

(** X13: [resetAIUsage] always returns.  It zeroes the counters of the
    tracked capabilities and the global usage; the counters of untracked
    capabilities, the rest of the capability world, the processes, the
    agents and the other fields of the simulation are as they were. *)
Theorem resetAIUsage_zeroes_tracked_services w :
  exists w',
    resetAIUsage w = (Ok tt, w') /\
    sim w' = set_globalUsage zeroUsage (sim w) /\
    (forall r, usage (ai (store w')) r =
       if decide (r ∈ aiServices (sim w)) then zeroUsage
       else usage (ai (store w)) r) /\
    ext (ai (store w')) = ext (ai (store w)) /\
    procs (store w') = procs (store w) /\
    agts (store w') = agts (store w) /\
    evals (store w') = evals (store w).
Proof.
  unfold resetAIUsage. erewrite bind_ok by reflexivity.
  destruct (resetLoop_eq (aiServices (sim w)) w) as (u & Hl & Hu).
  erewrite bind_ok by exact Hl.
  eexists. split; [reflexivity|]. by split_and!.
Qed.

End Tracking.

(** ** Stepping one process for one agent *)

Section AgentSteps.
Context `{host : Host}.

(** X15: [executeAgentStep] called [k] times in a row on a live process
    returns true once per node left and false from then on; the cursor
    moves by the number of nodes run and never past the end.  Only the
    given agent is touched, and it is only extended. *)
Theorem executeAgentStep_until_exhausted r p a st k :
  procs st !! r = Some p ->
  exists st',
    mapM (fun _ : unit => executeAgentStep r a) (replicate k tt) st =
      (Ok (replicate (k `min` (length (nodes p) - currentNodeIndex p)) true ++
           replicate (k - (length (nodes p) - currentNodeIndex p)) false), st') /\
    cursor_of st' r =
      Some (currentNodeIndex p + k `min` (length (nodes p) - currentNodeIndex p)) /\
    agents_extend st st' /\
    only_touches [a] st st'.
Proof.
  revert st p. induction k as [|k IH]; intros st p Hp.
  { exists st. cbn. unfold cursor_of. rewrite Hp. cbn.
    split_and!; [done|by rewrite Nat.add_0_r|reflexivity|reflexivity]. }
  cbn [replicate mapM].
  destruct (decide (currentNodeIndex p < length (nodes p))) as [Hlt|Hge].
  - destruct (lookup_lt_is_Some_2 _ _ Hlt) as [n Hn].
    erewrite bind_ok by by eapply executeAgentStep_more.
    set (st1 := set_procs (insert r (set_index (S (currentNodeIndex p)) p))
                  (snd (MogiNode_execute n a st))).
    destruct (IH st1 (set_index (S (currentNodeIndex p)) p))
      as (st' & E & Hcur & Hext & Htouch).
    { unfold st1. cbn. by rewrite lookup_insert_eq. }
    cbn [nodes currentNodeIndex set_index] in *.
    erewrite bind_ok by exact E.
    exists st'. split_and!.
    + replace (S k `min` (length (nodes p) - currentNodeIndex p))
        with (S (k `min` (length (nodes p) - S (currentNodeIndex p)))) by lia.
      replace (S k - (length (nodes p) - currentNodeIndex p))
        with (k - (length (nodes p) - S (currentNodeIndex p))) by lia.
      done.
    + rewrite Hcur. f_equal. lia.
    + etrans; [|exact Hext]. etrans; [apply (MogiNode_execute_extends n a)|].
      intros a' x' Hx'. by exists x'.
    + etrans; [|exact Htouch].
      etrans; [apply (MogiNode_execute_touches [a] n a); by left|].
      by intros a' _.
  - erewrite bind_ok by (eapply executeAgentStep_done; [done|lia]).
    destruct (IH st p Hp) as (st' & E & Hcur & Hext & Htouch).
    erewrite bind_ok by exact E.
    exists st'. split_and!; [|rewrite Hcur; f_equal; lia|done|done].
    replace (length (nodes p) - currentNodeIndex p) with 0 in * by lia.
    rewrite !Nat.min_0_r, !Nat.sub_0_r in *. done.
Qed.

End AgentSteps.

(** ** A conditional process as a branch *)

Section OwnPredicate.
Context `{host : Host}.

#[local] Instance own_predicate_only_preorder c : PreOrder (own_predicate_only c).
Proof.
  split.
  - intros st. split; [exists []; by rewrite app_nil_r|done].
  - intros st1 st2 st3 [(l1 & E1 & F1) B1] [(l2 & E2 & F2) B2]. split.
    + exists (l1 ++ l2). split; [by rewrite E2, E1, app_assoc|by apply Forall_app].
    + intros r id b Hne Hb. by apply B1, B2.
Qed.

Lemma own_predicate_only_keeps c st st' :
  keeps_bindings st st' -> own_predicate_only c st st'.
Proof.
  intros [Hc He]. split.
  - exists []. by rewrite app_nil_r.
  - intros r id b _. by rewrite (bound_keeps st st' r id (Hc r)).
Qed.

#[local] Instance only_unbinds_preorder : PreOrder only_unbinds.
Proof.
  split; [by intros st|].
  intros st1 st2 st3 [E1 B1] [E2 B2]. split; [congruence|]. auto.
Qed.

Lemma MogiProcess_resetExecution_unbinds r :
  preserves only_unbinds (MogiProcess_resetExecution r).
Proof.
  intros st. unfold MogiProcess_resetExecution.
  destruct (procs st !! r) as [p|] eqn:Hp.
  2: { erewrite bind_throw by (unfold getProc; by rewrite Hp). done. }
  erewrite bind_ok by by apply getProc_eq. cbn. split; [done|].
  intros r' id b'. unfold bound. cbn.
  destruct (decide (r = r')) as [<-|Hne].
  - by rewrite lookup_insert_eq, Hp.
  - by rewrite lookup_insert_ne.
Qed.

Lemma putCond_clear_unbinds b :
  preserves only_unbinds (putCond b (set_branchStates ∅)).
Proof.
  intros st. unfold putCond.
  destruct (procs st !! b) as [p|] eqn:Hp.
  2: { erewrite bind_throw by (unfold getProc; by rewrite Hp). done. }
  erewrite bind_ok by by apply getProc_eq.
  destruct (conditional p) as [cnd'|] eqn:Hc; [|done].
  cbn. split; [done|]. intros r' id b'. unfold bound. cbn.
  destruct (decide (b = r')) as [<-|Hne].
  - rewrite lookup_insert_eq. cbn. by rewrite lookup_empty.
  - by rewrite lookup_insert_ne.
Qed.

(** Rewinding never evaluates a predicate and never binds an agent. *)
Lemma resetExecution_at_unbinds d b :
  preserves only_unbinds (resetExecution_at d b).
Proof.
  revert b. induction d as [|d IH]; intros b; cbn [resetExecution_at].
  { by intros st. }
  apply preserves_bind; [tc_solve|apply preserves_pure, getProc_pure; tc_solve|].
  intros this. destruct (conditional this) as [cnd|];
    [|apply MogiProcess_resetExecution_unbinds].
  repeat first
    [ apply MogiProcess_resetExecution_unbinds
    | apply putCond_clear_unbinds
    | apply IH
    | apply preserves_pure; [tc_solve|apply getCond_pure]
    | apply preserves_bind; [tc_solve| |intros] ].
Qed.

Lemma putCond_binding_own c id bs :
  preserves (own_predicate_only c)
    (putCond c (fun cnd' =>
       set_branchStates (<[id := bs]> (branchStates cnd')) cnd')).
Proof.
  intros st. unfold putCond.
  destruct (procs st !! c) as [p|] eqn:Hp.
  2: { erewrite bind_throw by (unfold getProc; by rewrite Hp). reflexivity. }
  erewrite bind_ok by by apply getProc_eq.
  destruct (conditional p) as [cnd'|] eqn:Hc; [|reflexivity].
  cbn. split; [exists []; by rewrite app_nil_r|].
  intros r id' b Hne. unfold bound. cbn. by rewrite lookup_insert_ne.
Qed.

Lemma conditionalAgentStep_own c a hm :
  preserves (own_predicate_only c) (conditionalAgentStep c a hm).
Proof.
  unfold conditionalAgentStep.
  apply preserves_bind; [tc_solve|apply preserves_pure, getProc_pure; tc_solve|].
  intros this. case_match.
  { case_match; [|apply preserves_throw; tc_solve].
    apply preserves_bind; [tc_solve| |intros; apply preserves_ret; tc_solve].
    intros st. apply own_predicate_only_keeps, MogiNode_execute_keeps. }
  apply preserves_bind; [tc_solve|apply preserves_pure, getAgent_pure; tc_solve|].
  intros agent.
  apply preserves_bind; [tc_solve|apply preserves_pure, getCond_pure; tc_solve|].
  intros cnd.
  apply preserves_bind; [tc_solve| |intros _].
  { case_match; [apply preserves_ret; tc_solve|].
    apply preserves_bind; [tc_solve| |intros _].
    { intros st. cbn. split; [|done].
      exists [(c, agent_id agent)]. split; [done|]. by apply Forall_singleton. }
    apply preserves_bind; [tc_solve| |intros _; apply putCond_binding_own].
    intros st. destruct (resetExecution_at_unbinds stack_limit
      (if condition cnd agent then trueBranch cnd else falseBranch cnd) st)
      as [He Hb].
    split; [exists []; by rewrite app_nil_r|]. intros r id b _. apply Hb. }
  apply preserves_bind; [tc_solve|apply preserves_pure, getCond_pure; tc_solve|].
  intros cnd2. case_match; [|apply preserves_throw; tc_solve].
  case_match; [apply preserves_ret; tc_solve|].
  apply preserves_bind; [tc_solve| |intros more].
  { intros st. apply own_predicate_only_keeps, executeAgentStep_keeps. }
  apply preserves_bind; [tc_solve|apply putCond_binding_own|].
  intros _. apply preserves_ret; tc_solve.
Qed.

(** X16: a step of conditional process [c] consults no predicate but its
    own and binds agents nowhere else: the trace of predicate evaluations
    grows by entries of [c] only, and every binding found afterwards in
    another conditional process was there before. *)
Theorem conditional_step_consults_own_predicate_only c ags st :
  (exists l, evals (snd (executeConditionalStep c ags st)) = evals st ++ l /\
             Forall (fun e => e.1 = c) l) /\
  (forall r id b, r <> c ->
     bound (snd (executeConditionalStep c ags st)) r id = Some b ->
     bound st r id = Some b).
Proof.
  change (own_predicate_only c st (snd (executeConditionalStep c ags st))).
  revert st. change (preserves (own_predicate_only c) (executeConditionalStep c ags)).
  unfold executeConditionalStep.
  apply preserves_bind; [tc_solve| |intros hm].
  { apply preserves_forM; [tc_solve|]. intros. apply conditionalAgentStep_own. }
  apply preserves_bind; [tc_solve|apply preserves_pure, getProc_pure; tc_solve|].
  intros this. case_match; [|apply preserves_ret; tc_solve].
  apply preserves_bind; [tc_solve| |intros; apply preserves_ret; tc_solve].
  intros st. cbn. split; [exists []; by rewrite app_nil_r|].
  intros r id b Hne. unfold bound. cbn. by rewrite lookup_insert_ne.
Qed.

End OwnPredicate.

(** ** Runs of a conditional process come to an end *)

Section Cursors.
Context `{host : Host}.

Lemma remaining_le_node_count st r : remaining st r <= node_count st r.
Proof. unfold remaining, node_count. destruct (procs st !! r); lia. Qed.

Lemma node_count_shape st st' r : same_shape st st' -> node_count st' r = node_count st r.
Proof.
  intros Hs. unfold node_count. destruct (procs st !! r) as [p|] eqn:Hp.
  - destruct (same_shape_lookup st st' r p Hs Hp) as (p' & -> & E).
    unfold shape in E. congruence.
  - specialize (Hs r). rewrite Hp in Hs. by destruct (procs st' !! r).
Qed.

End Cursors.

Section BranchPhase.
Context `{host : Host}.
Variables c t f : ProcRef.
Hypothesis Hstack : 0 < stack_limit.

Lemma plain_branches_ne st : plain_branches c t f st -> t <> c /\ f <> c.
Proof.
  intros (pc & cnd & pt & pf & Hpc & Hc & _ & _ & _ & Hpt & Hlt & Hpf & Hlf).
  split; intros ->; congruence.
Qed.

(** The forms of the store after the step of a bound agent. *)
Lemma plain_branches_rebind st pc cnd id bs :
  plain_branches c t f st ->
  procs st !! c = Some pc -> conditional pc = Some cnd ->
  branch bs = t \/ branch bs = f ->
  plain_branches c t f
    (set_procs (insert c (with_branchState id bs cnd pc)) st).
Proof.
  intros Hpb Hpc Hc Hbs. destruct (plain_branches_ne st Hpb) as [Htc Hfc].
  destruct Hpb as (pc' & cnd' & pt & pf & Hpc' & Hc' & Ht & Hf & Hall & Hpt & Hlt & Hpf & Hlf).
  simplify_eq.
  eexists _, _, pt, pf. cbn. rewrite lookup_insert_eq, !lookup_insert_ne by done.
  split_and!; try done. cbn.
  intros id' bs'. destruct (decide (id = id')) as [<-|Hne].
  - rewrite lookup_insert_eq. by intros [= <-].
  - rewrite lookup_insert_ne by done. apply Hall.
Qed.

Lemma plain_branches_bump st b pb i :
  plain_branches c t f st ->
  procs st !! b = Some pb -> b <> c ->
  plain_branches c t f (set_procs (insert b (set_index i pb)) st).
Proof.
  intros Hpb Hb Hne.
  destruct Hpb as (pc & cnd & pt & pf & Hpc & Hc & Ht & Hf & Hall & Hpt & Hlt & Hpf & Hlf).
  exists pc, cnd.
  exists (if decide (b = t) then set_index i pb else pt),
         (if decide (b = f) then set_index i pb else pf).
  cbn. rewrite lookup_insert_ne by done. split_and!; try done.
  - case_decide; [subst; by rewrite lookup_insert_eq|by rewrite lookup_insert_ne].
  - case_decide; [subst; cbn; congruence|done].
  - case_decide; [subst; by rewrite lookup_insert_eq|by rewrite lookup_insert_ne].
  - case_decide; [subst; cbn; congruence|done].
Qed.

Lemma plain_branches_procs st st' :
  procs st' = procs st -> plain_branches c t f st -> plain_branches c t f st'.
Proof. intros E. unfold plain_branches. by rewrite E. Qed.

Lemma remaining_procs st st' r :
  procs st' = procs st -> remaining st' r = remaining st r.
Proof. intros E. unfold remaining. by rewrite E. Qed.

Lemma bound_procs st st' id :
  procs st' = procs st -> bound st' c id = bound st c id.
Proof. intros E. unfold bound. by rewrite E. Qed.

Lemma remaining_insert_ne st r r' p :
  r <> r' -> remaining (set_procs (insert r p) st) r' = remaining st r'.
Proof. intros Hne. unfold remaining. cbn. by rewrite lookup_insert_ne. Qed.

Lemma remaining_insert_eq st r p :
  remaining (set_procs (insert r p) st) r = length (nodes p) - currentNodeIndex p.
Proof. unfold remaining. cbn. by rewrite lookup_insert_eq. Qed.

(** The step of an agent whose id is bound. *)
Lemma bound_agent_step st pc cnd a x bs hm :
  plain_branches c t f st ->
  procs st !! c = Some pc ->
  conditional pc = Some cnd ->
  length (nodes pc) <= currentNodeIndex pc ->
  agts st !! a = Some x ->
  branchStates cnd !! agent_id x = Some bs ->
  exists hm' st',
    conditionalAgentStep c a hm st = (Ok hm', st') /\
    plain_branches c t f st' /\
    remaining st' c = 0 /\
    (forall id, is_Some (bound st c id) -> is_Some (bound st' c id)) /\
    (hm = true -> hm' = true) /\
    remaining st' t <= remaining st t /\
    remaining st' f <= remaining st f /\
    (hm' = hm \/
     remaining st' t + remaining st' f < remaining st t + remaining st f) /\
    (hm' = false -> completed_in c st' a) /\
    (forall a', completed_in c st a' -> completed_in c st' a').
Proof.
  intros Hpb Hpc Hc Hle Hx Hbs.
  destruct (plain_branches_ne st Hpb) as [Htc Hfc].
  assert (remaining st c = 0) as Hrem.
  { unfold remaining. rewrite Hpc. lia. }
  destruct (completed bs) eqn:Hcomp.
  { exists hm, st. split; [by eapply conditionalAgentStep_completed|].
    split_and!; try done; [by left|].
    intros _. by exists x, pc, cnd, bs. }
  assert (branch bs = t \/ branch bs = f) as Hbr.
  { destruct Hpb as (pc' & cnd' & pt & pf & Hpc' & Hc' & Ht & Hf & Hall & _).
    simplify_eq. by eapply Hall. }
  assert (branch bs <> c) as Hbc by (destruct Hbr as [-> | ->]; done).
  assert (exists pb, procs st !! branch bs = Some pb) as [pb Hpb'].
  { destruct Hpb as (pc' & cnd' & pt & pf & _ & _ & _ & _ & _ & Hpt & _ & Hpf & _).
    destruct Hbr as [-> | ->]; by eexists. }
  destruct (decide (currentNodeIndex pb < length (nodes pb))) as [Hlt|Hge].
  - destruct (lookup_lt_is_Some_2 _ _ Hlt) as [n Hn].
    eexists true, _. split; [by eapply conditionalAgentStep_more|].
    destruct (MogiNode_execute_run n a st) as (_ & Hps & _).
    set (stn := snd (MogiNode_execute n a st)) in *.
    set (st1 := set_procs (insert (branch bs)
                  (set_index (S (currentNodeIndex pb)) pb)) stn).
    assert (plain_branches c t f st1) as Hpb1.
    { apply plain_branches_bump; [by eapply plain_branches_procs|by rewrite Hps|done]. }
    split_and!.
    + apply plain_branches_rebind; [done| |done|done].
      unfold st1. cbn. rewrite lookup_insert_ne by done. by rewrite Hps.
    + rewrite remaining_insert_eq. cbn. lia.
    + intros id [b Hb]. rewrite bound_with_branchState.
      case_decide; [by eexists|].
      rewrite (bound_lookup st c pc cnd id Hpc Hc) in Hb. rewrite Hb. by eexists.
    + done.
    + rewrite remaining_insert_ne by done. unfold st1.
      destruct (decide (branch bs = t)) as [E|E].
      * rewrite E, remaining_insert_eq. cbn. unfold remaining.
        rewrite <- E, Hpb'. lia.
      * rewrite remaining_insert_ne by done. by rewrite (remaining_procs st stn).
    + rewrite remaining_insert_ne by done. unfold st1.
      destruct (decide (branch bs = f)) as [E|E].
      * rewrite E, remaining_insert_eq. cbn. unfold remaining.
        rewrite <- E, Hpb'. lia.
      * rewrite remaining_insert_ne by done. by rewrite (remaining_procs st stn).
    + right. rewrite !remaining_insert_ne by done. unfold st1.
      assert (forall r, remaining (set_procs (insert (branch bs)
                (set_index (S (currentNodeIndex pb)) pb)) stn) r =
              if decide (branch bs = r) then remaining st r - 1
              else remaining st r) as Hr.
      { intros r. case_decide as E.
        - rewrite <- E, remaining_insert_eq. cbn. unfold remaining.
          rewrite Hpb'. lia.
        - rewrite remaining_insert_ne by done. by apply remaining_procs. }
      rewrite !Hr.
      assert (0 < remaining st (branch bs)) as Hpos.
      { unfold remaining. rewrite Hpb'. lia. }
      destruct Hbr as [E|E]; rewrite E in *; repeat case_decide; try done; lia.
    + done.
    + intros a' (x' & pc' & cnd' & bs' & Hx' & Hpc' & Hc' & Hbs' & Hcomp').
      simplify_eq.
      destruct (MogiNode_execute_evolves n a st) as (_ & Hgrow & _).
      destruct (Hgrow a' x' Hx') as (x1 & Hx1 & Hid1 & _).
      exists x1. eexists _, _, bs'. split_and!; [exact Hx1| | | |done].
      * cbn. by rewrite lookup_insert_eq.
      * done.
      * cbn. rewrite Hid1. rewrite lookup_insert_ne; [done|].
        intros E. rewrite E in Hbs. congruence.
  - exists hm. eexists.
    split; [eapply conditionalAgentStep_exhausted; try done; lia|].
    split_and!.
    + by apply plain_branches_rebind.
    + rewrite remaining_insert_eq. cbn. lia.
    + intros id [b Hb]. rewrite bound_with_branchState.
      case_decide; [by eexists|].
      rewrite (bound_lookup st c pc cnd id Hpc Hc) in Hb. rewrite Hb. by eexists.
    + done.
    + by rewrite remaining_insert_ne.
    + by rewrite remaining_insert_ne.
    + by left.
    + intros _. exists x. eexists _, _, _. split_and!; [done| | | |].
      * cbn. by rewrite lookup_insert_eq.
      * done.
      * cbn. by rewrite lookup_insert_eq.
      * done.
    + intros a' (x' & pc' & cnd' & bs' & Hx' & Hpc' & Hc' & Hbs' & Hcomp').
      simplify_eq.
      assert (agent_id x <> agent_id x') as Hne.
      { intros E. rewrite E in Hbs. congruence. }
      exists x'. eexists _, _, bs'. split_and!; [done| | | |done].
      * cbn. by rewrite lookup_insert_eq.
      * done.
      * cbn. by rewrite lookup_insert_ne.
Qed.

Lemma completed_in_bound st a : completed_in c st a -> bound_in c st a.
Proof.
  intros (x & pc & cnd & bs & Hx & Hpc & Hc & Hbs & _).
  exists x. split; [done|]. rewrite (bound_lookup st c pc cnd _ Hpc Hc), Hbs.
  by eexists.
Qed.

(** The step of any live agent once the prefix is exhausted. *)
Lemma branch_agent_step st a x hm :
  plain_branches c t f st ->
  remaining st c = 0 ->
  agts st !! a = Some x ->
  exists hm' st',
    conditionalAgentStep c a hm st = (Ok hm', st') /\
    plain_branches c t f st' /\
    remaining st' c = 0 /\
    evolves st st' /\
    bound_in c st' a /\
    (forall id, is_Some (bound st c id) -> is_Some (bound st' c id)) /\
    (hm = true -> hm' = true) /\
    (is_Some (bound st c (agent_id x)) ->
       remaining st' t <= remaining st t /\
       remaining st' f <= remaining st f /\
       (hm' = hm \/
        remaining st' t + remaining st' f < remaining st t + remaining st f)) /\
    (hm' = false -> completed_in c st' a) /\
    (forall a', completed_in c st a' -> completed_in c st' a').
Proof.
  intros Hpb Hrem Hx.
  destruct (plain_branches_ne st Hpb) as [Htc Hfc].
  pose proof Hpb as (pc & cnd & pt & pf & Hpc & Hc & Ht & Hf & Hall & Hpt & Hlt & Hpf & Hlf).
  assert (length (nodes pc) <= currentNodeIndex pc) as Hle.
  { unfold remaining in Hrem. rewrite Hpc in Hrem. lia. }
  pose proof (conditionalAgentStep_evolves c a hm st) as Hev.
  assert (forall st', evolves st st' ->
            (forall id, is_Some (bound st c id) -> is_Some (bound st' c id)) ->
            is_Some (bound st c (agent_id x)) -> bound_in c st' a) as Hbin.
  { intros st' (_ & Hgrow & _) Hkeep Hb.
    destruct (Hgrow a x Hx) as (x' & Hx' & Hid & _).
    exists x'. split; [done|]. rewrite Hid. by apply Hkeep. }
  destruct (branchStates cnd !! agent_id x) as [bs|] eqn:Hbs.
  - destruct (bound_agent_step st pc cnd a x bs hm Hpb Hpc Hc Hle Hx Hbs)
      as (hm' & st' & E & H1 & H2 & H3 & H4 & H5 & H6 & H7 & H8 & H9).
    rewrite E in Hev. exists hm', st'. split_and!; try done.
    apply Hbin; [done|done|].
    rewrite (bound_lookup st c pc cnd _ Hpc Hc), Hbs. by eexists.
  - set (b := if condition cnd x then trueBranch cnd else falseBranch cnd).
    assert (b = t \/ b = f) as Hb by (unfold b; destruct (condition cnd x); auto).
    assert (b <> c) as Hbc by (destruct Hb as [-> | ->]; done).
    assert (exists pb, procs st !! b = Some pb /\ conditional pb = None)
      as (pb & Hpb' & Hlb).
    { destruct Hb as [-> | ->]; by eexists. }
    rewrite (conditionalAgentStep_bind st c pc cnd a x pb hm) in *; try done.
    fold b in Hev |- *.
    set (st3 := bind_agent c pc cnd (agent_id x) b pb st) in *.
    assert (plain_branches c t f st3) as Hpb3.
    { unfold st3, bind_agent. apply plain_branches_rebind; [|by simpl; rewrite lookup_insert_ne|done|done].
      apply plain_branches_bump; [|done|done].
      by apply (plain_branches_procs st). }
    destruct (bound_agent_step st3
                (with_branchState (agent_id x) {| branch := b; completed := false |} cnd pc)
                (set_branchStates
                   (<[agent_id x := {| branch := b; completed := false |}]>
                      (branchStates cnd)) cnd)
                a x {| branch := b; completed := false |} hm)
      as (hm' & st' & E & H1 & H2 & H3 & H4 & H5 & H6 & H7 & H8 & H9); try done.
    { unfold st3, bind_agent. cbn. by rewrite lookup_insert_eq. }
    { cbn. by rewrite lookup_insert_eq. }
    rewrite E in Hev. exists hm', st'.
    assert (forall id, is_Some (bound st c id) -> is_Some (bound st' c id)) as Hkeep.
    { intros id [b' Hb']. apply H3. unfold st3, bind_agent.
      rewrite bound_with_branchState. case_decide; [by eexists|].
      rewrite (bound_lookup st c pc cnd id Hpc Hc) in Hb'. rewrite Hb'. by eexists. }
    split_and!; try done.
    + destruct Hev as (_ & Hgrow & _).
      destruct (Hgrow a x Hx) as (x' & Hx' & Hid & _).
      exists x'. split; [done|]. rewrite Hid. apply H3.
      unfold st3, bind_agent. rewrite bound_with_branchState.
      rewrite decide_True by done. by eexists.
    + rewrite (bound_lookup st c pc cnd _ Hpc Hc), Hbs. by intros [? ?].
    + intros a' (x' & pc' & cnd' & bs' & Hx' & Hpc' & Hc' & Hbs' & Hcomp').
      simplify_eq. apply H9.
      assert (agent_id x <> agent_id x') as Hne.
      { intros E'. rewrite E' in Hbs. congruence. }
      exists x'. eexists _, _, bs'. split_and!; [done| | | |done].
      * unfold st3, bind_agent. cbn. by rewrite lookup_insert_eq.
      * done.
      * cbn. by rewrite lookup_insert_ne.
Qed.

Lemma bound_in_evolves st st' a :
  evolves st st' ->
  (forall id, is_Some (bound st c id) -> is_Some (bound st' c id)) ->
  bound_in c st a -> bound_in c st' a.
Proof.
  intros (_ & Hgrow & _) Hkeep (x & Hx & Hb).
  destruct (Hgrow a x Hx) as (x' & Hx' & Hid & _).
  exists x'. split; [done|]. rewrite Hid. by apply Hkeep.
Qed.

Lemma live_evolves st st' (a : AgentRef) :
  evolves st st' -> is_Some (agts st !! a) -> is_Some (agts st' !! a).
Proof.
  intros (_ & Hgrow & _) [x Hx]. destruct (Hgrow a x Hx) as (x' & Hx' & _).
  by eexists.
Qed.

(** The loop over the agents once the prefix is exhausted. *)
Lemma branch_loop ags : forall hm st,
  plain_branches c t f st ->
  remaining st c = 0 ->
  Forall (fun a => is_Some (agts st !! a)) ags ->
  exists hm' st',
    forM ags hm (conditionalAgentStep c) st = (Ok hm', st') /\
    plain_branches c t f st' /\
    remaining st' c = 0 /\
    evolves st st' /\
    Forall (bound_in c st') ags /\
    (forall id, is_Some (bound st c id) -> is_Some (bound st' c id)) /\
    (hm = true -> hm' = true) /\
    (Forall (bound_in c st) ags ->
       remaining st' t <= remaining st t /\
       remaining st' f <= remaining st f /\
       (hm' = hm \/
        remaining st' t + remaining st' f < remaining st t + remaining st f)) /\
    (hm' = false -> Forall (completed_in c st') ags) /\
    (forall a', completed_in c st a' -> completed_in c st' a').
Proof.
  induction ags as [|a ags IH]; intros hm st Hpb Hrem Hlive.
  { exists hm, st. split_and!; try done.
    intros _. split_and!; [done|done|by left]. }
  apply Forall_cons in Hlive as [[x Hx] Hlive]. cbn [forM].
  destruct (branch_agent_step st a x hm Hpb Hrem Hx)
    as (hm1 & st1 & E1 & P1 & R1 & Ev1 & B1 & K1 & M1 & Mu1 & C1 & CC1).
  erewrite bind_ok by exact E1.
  destruct (IH hm1 st1 P1 R1) as
    (hm' & st' & E & P & R & Ev & B & K & M & Mu & C & CC).
  { eapply Forall_impl; [exact Hlive|]. intros a'. by apply live_evolves. }
  exists hm', st'. split_and!; try done.
  - by etrans.
  - apply Forall_cons. split; [|done]. by eapply bound_in_evolves.
  - auto.
  - auto.
  - intros Hall. apply Forall_cons in Hall as [(x0 & Hx0 & Hb0) Hall].
    assert (x0 = x) as -> by congruence.
    destruct (Mu1 Hb0) as (T1 & F1 & D1).
    destruct Mu as (T2 & F2 & D2).
    { eapply Forall_impl; [exact Hall|]. intros a'. by apply bound_in_evolves. }
    split_and!; [lia|lia|].
    destruct D1 as [->|D1], D2 as [->|D2]; [by left|right; lia..].
  - intros ->. assert (hm1 = false) as -> by (destruct hm1; [by specialize (M eq_refl)|done]).
    apply Forall_cons. split; [|by apply C]. by apply CC, C1.
  - auto.
Qed.

(** One round once the prefix is exhausted. *)
Lemma branch_round ags st :
  plain_branches c t f st ->
  remaining st c = 0 ->
  Forall (fun a => is_Some (agts st !! a)) ags ->
  exists res st',
    executeConditionalStep c ags st = (Ok res, st') /\
    plain_branches c t f st' /\
    remaining st' c = 0 /\
    evolves st st' /\
    Forall (bound_in c st') ags /\
    (Forall (bound_in c st) ags ->
       res = true ->
       remaining st' t + remaining st' f < remaining st t + remaining st f) /\
    (res = false -> Forall (completed_in c st') ags).
Proof.
  intros Hpb Hrem Hlive.
  destruct (branch_loop ags false st Hpb Hrem Hlive)
    as (hm' & st' & E & P & R & Ev & B & K & M & Mu & C & CC).
  unfold executeConditionalStep. erewrite bind_ok by exact E.
  destruct P as (pc & cnd & pt & pf & Hpc & Hrest).
  erewrite bind_ok by by apply getProc_eq.
  assert (length (nodes pc) <= currentNodeIndex pc) as Hle.
  { unfold remaining in R. rewrite Hpc in R. lia. }
  rewrite (proj2 (Nat.ltb_ge _ _) Hle).
  exists hm', st'. split_and!; try done.
  - by exists pc, cnd, pt, pf.
  - intros Hall ->. destruct (Mu Hall) as (_ & _ & [?|?]); done.
Qed.

(** One round inside the prefix: the node at the cursor for every agent,
    then the cursor moves on. *)
Lemma prefix_round ags st pc n :
  procs st !! c = Some pc ->
  nodes pc !! currentNodeIndex pc = Some n ->
  executeConditionalStep c ags st =
    (Ok true,
     set_procs (insert c (set_index (S (currentNodeIndex pc)) pc))
       (linearRound n ags st)).
Proof.
  intros Hpc Hn.
  assert (forall hm st0, procs st0 = procs st ->
    exists hm', forM ags hm (conditionalAgentStep c) st0 =
                  (Ok hm', linearRound n ags st0)) as Hloop.
  { unfold linearRound. induction ags as [|a ags IH]; intros hm st0 E0; cbn [forM].
    { by exists hm. }
    erewrite bind_ok by (eapply conditionalAgentStep_prefix; [by rewrite E0|done]).
    destruct (MogiNode_execute_run n a st0) as (E & Hps & _).
    erewrite (bind_ok (MogiNode_execute n a)) by exact E.
    apply IH. by rewrite Hps. }
  destruct (Hloop false st eq_refl) as (hm' & E).
  unfold executeConditionalStep. erewrite bind_ok by exact E.
  destruct (linearRound_procs n ags st) as [Hps _].
  erewrite bind_ok by (apply getProc_eq; by rewrite Hps).
  apply lookup_lt_Some in Hn. rewrite (proj2 (Nat.ltb_lt _ _) Hn).
  by erewrite bind_ok by reflexivity.
Qed.

End BranchPhase.

Section ConditionalRuns.
Context `{host : Host}.
Variables c t f : ProcRef.
Hypothesis Hstack : 0 < stack_limit.

Lemma in_run_of_step w pc cnd :
  in_run_of c w ->
  procs (store w) !! c = Some pc -> conditional pc = Some cnd ->
  executeStep w =
    (fst (executeConditionalStep c (active_refs (sim w)) (store w)),
     {| sim := sim w;
        store := snd (executeConditionalStep c (active_refs (sim w)) (store w)) |}).
Proof.
  intros (Hic & Hf & Hids & _) Hpc Hc.
  rewrite executeStep_eq. cbv zeta. rewrite Hic, Hf, Hpc.
  rewrite mapM_getAgentState_ok by done. cbn [fst]. rewrite Hc.
  fold (active_refs (sim w)).
  by destruct (executeConditionalStep c (active_refs (sim w)) (store w)).
Qed.

Lemma in_run_of_evolves w st' :
  in_run_of c w -> evolves (store w) st' ->
  in_run_of c {| sim := sim w; store := st' |}.
Proof.
  intros (Hic & Hf & Hids & Hlive) Hev. split_and!; cbn [sim store]; try done.
  - rewrite (findProcess_shape _ _ (store w) st'); [done|]. by destruct Hev.
  - eapply Forall_impl; [exact Hlive|]. intros a. by apply live_evolves.
Qed.

Lemma drive_S fuel w :
  drive (S fuel) w =
    match executeStep w with
    | (Ok true, w') => drive fuel w'
    | (Ok false, w') => (Ok true, w')
    | (Throw e, w') => (Throw e, w')
    end.
Proof.
  cbn [drive]. unfold bind. by destruct (executeStep w) as [[[]|] ?].
Qed.

(** Once every agent is bound, each round that reports more work has
    moved a branch cursor. *)
Lemma drive_branch_phase m : forall fuel w,
  m < fuel ->
  in_run_of c w ->
  plain_branches c t f (store w) ->
  remaining (store w) c = 0 ->
  Forall (bound_in c (store w)) (active_refs (sim w)) ->
  remaining (store w) t + remaining (store w) f <= m ->
  exists w',
    drive fuel w = (Ok true, w') /\
    sim w' = sim w /\
    evolves (store w) (store w') /\
    Forall (completed_in c (store w')) (active_refs (sim w)).
Proof.
  induction m as [|m IH]; intros fuel w Hfuel Hrun Hpb Hrem Hbound Hmu;
    (destruct fuel as [|fuel]; [lia|]);
    rewrite drive_S;
    pose proof Hpb as (pc & cnd & _ & _ & Hpc & Hc & _);
    rewrite (in_run_of_step w pc cnd Hrun Hpc Hc);
    destruct Hrun as (Hic & Hf & Hids & Hlive);
    destruct (branch_round c t f Hstack (active_refs (sim w)) (store w) Hpb Hrem Hlive)
      as (res & st' & E & P & R & Ev & B & Mu & C);
    rewrite E; cbn [fst snd];
    (destruct res; [|eexists; split_and!; [done|done|done|by apply C]]);
    specialize (Mu Hbound eq_refl).
  - lia.
  - destruct (IH fuel {| sim := sim w; store := st' |}) as (w' & Ed & Es & Ev' & Cw');
      cbn [sim store]; try done; try lia.
    { by apply (in_run_of_evolves w st'). }
    exists w'. split_and!; [done|done|by etrans|done].
Qed.

(** From the first round after the prefix. *)
Lemma drive_from_branch fuel w :
  node_count (store w) t + node_count (store w) f + 1 < fuel ->
  in_run_of c w ->
  plain_branches c t f (store w) ->
  remaining (store w) c = 0 ->
  exists w',
    drive fuel w = (Ok true, w') /\
    sim w' = sim w /\
    evolves (store w) (store w') /\
    Forall (completed_in c (store w')) (active_refs (sim w)).
Proof.
  intros Hfuel Hrun Hpb Hrem. destruct fuel as [|fuel]; [lia|].
  rewrite drive_S.
  pose proof Hpb as (pc & cnd & _ & _ & Hpc & Hc & _).
  rewrite (in_run_of_step w pc cnd Hrun Hpc Hc).
  pose proof Hrun as (Hic & Hf & Hids & Hlive).
  destruct (branch_round c t f Hstack (active_refs (sim w)) (store w) Hpb Hrem Hlive)
    as (res & st' & E & P & R & Ev & B & Mu & C).
  rewrite E. cbn [fst snd].
  destruct res; [|eexists; split_and!; [done|done|done|by apply C]].
  destruct (drive_branch_phase (node_count (store w) t + node_count (store w) f) fuel
              {| sim := sim w; store := st' |})
    as (w' & Ed & Es & Ev' & Cw'); cbn [sim store]; try done; try lia.
  { by apply (in_run_of_evolves w st'). }
  { pose proof (remaining_le_node_count st' t). pose proof (remaining_le_node_count st' f).
    destruct Ev as (Hs & _).
    rewrite <- (node_count_shape (store w) st' t Hs), <- (node_count_shape (store w) st' f Hs).
    lia. }
  exists w'. split_and!; [done|done|by etrans|done].
Qed.

Lemma plain_branches_cursor st pc i :
  plain_branches c t f st -> procs st !! c = Some pc ->
  plain_branches c t f (set_procs (insert c (set_index i pc)) st).
Proof.
  intros Hpb Hpc. destruct (plain_branches_ne c t f st Hpb) as [Htc Hfc].
  destruct Hpb as (pc' & cnd & pt & pf & Hpc' & Hc & Ht & Hf & Hall & Hpt & Hlt & Hpf & Hlf).
  simplify_eq. eexists _, cnd, pt, pf. cbn.
  rewrite lookup_insert_eq, !lookup_insert_ne by done. by split_and!.
Qed.

(** From anywhere in the prefix. *)
Lemma drive_from_prefix P : forall fuel w,
  remaining (store w) c = P ->
  P + node_count (store w) t + node_count (store w) f + 1 < fuel ->
  in_run_of c w ->
  plain_branches c t f (store w) ->
  exists w',
    drive fuel w = (Ok true, w') /\
    sim w' = sim w /\
    evolves (store w) (store w') /\
    Forall (completed_in c (store w')) (active_refs (sim w)).
Proof.
  induction P as [|P IH]; intros fuel w Hrem Hfuel Hrun Hpb.
  { apply drive_from_branch; [lia|done|done|done]. }
  destruct fuel as [|fuel]; [lia|]. rewrite drive_S.
  pose proof Hpb as (pc & cnd & _ & _ & Hpc & Hc & _).
  rewrite (in_run_of_step w pc cnd Hrun Hpc Hc).
  assert (currentNodeIndex pc < length (nodes pc)) as Hlt.
  { unfold remaining in Hrem. rewrite Hpc in Hrem. lia. }
  destruct (lookup_lt_is_Some_2 _ _ Hlt) as [n Hn].
  pose proof (executeConditionalStep_evolves c (active_refs (sim w)) (store w)) as Ev.
  rewrite (prefix_round c (active_refs (sim w)) (store w) pc n Hpc Hn) in *.
  cbn [fst snd] in *.
  set (st' := set_procs (insert c (set_index (S (currentNodeIndex pc)) pc))
                (linearRound n (active_refs (sim w)) (store w))) in *.
  destruct (linearRound_procs n (active_refs (sim w)) (store w)) as [Hps _].
  destruct (IH fuel {| sim := sim w; store := st' |})
    as (w' & Ed & Es & Ev' & Cw'); cbn [sim store].
  - unfold st'. rewrite remaining_insert_eq. cbn.
    unfold remaining in Hrem. rewrite Hpc in Hrem. lia.
  - destruct Ev as (Hs & _).
    rewrite (node_count_shape (store w) st' t Hs), (node_count_shape (store w) st' f Hs). lia.
  - by apply (in_run_of_evolves w st').
  - unfold st'. apply plain_branches_cursor; [|by rewrite Hps].
    by apply (plain_branches_procs c t f (store w)).
  - exists w'. split_and!; [done|done|by etrans|done].
Qed.

End ConditionalRuns.

Section ConditionalTermination.
Context `{host : Host}.

Lemma getAIServices_plain_branches c t f st :
  1 < stack_limit -> plain_branches c t f st ->
  exists services, fst (getAIServices c st) = Ok services.
Proof.
  intros Hstack (pc & cnd & pt & pf & Hpc & Hc & Ht & Hf & _ & Hpt & Hlt & Hpf & Hlf).
  unfold getAIServices.
  destruct stack_limit as [|[|d]]; [lia|lia|]. cbn [getAIServices_at].
  erewrite bind_ok by by apply getProc_eq. rewrite Hc, Ht, Hf.
  erewrite bind_ok.
  2: { erewrite bind_ok by by apply getProc_eq. by rewrite Hlt. }
  erewrite bind_ok.
  2: { erewrite bind_ok by by apply getProc_eq. by rewrite Hlf. }
  by eexists.
Qed.

(** X17: [runProcess] on a conditional process over two plain branches
    terminates.  If the registered agents are live, the bindings already
    held point to the two branches, no registered process carries the id
    and the stack has room for two frames, the loop stops within (prefix
    nodes left) + (nodes of the true branch) + (nodes of the false branch)
    + 2 calls of [executeStep]; the store has only evolved, and every
    registered agent is marked completed in the process. *)
Theorem runProcess_conditional_terminates w0 c pc cnd pt pf fuel :
  1 < stack_limit ->
  (forall id a, fst (getAgentState id w0) = Ok a ->
     is_Some (agts (store w0) !! a)) ->
  procs (store w0) !! c = Some pc ->
  conditional pc = Some cnd ->
  (forall id bs, branchStates cnd !! id = Some bs ->
     branch bs = trueBranch cnd \/ branch bs = falseBranch cnd) ->
  procs (store w0) !! trueBranch cnd = Some pt -> conditional pt = None ->
  procs (store w0) !! falseBranch cnd = Some pf -> conditional pf = None ->
  id_unique (store w0) c pc (processes (sim w0)) ->
  (length (nodes pc) - currentNodeIndex pc) +
    length (nodes pt) + length (nodes pf) + 1 < fuel ->
  exists w',
    runProcess fuel c w0 = (Ok true, w') /\
    evolves (store w0) (store w') /\
    forall id a, fst (getAgentState id w0) = Ok a ->
      completed_in c (store w') a.
Proof.
  intros Hstack Hlive Hpc Hc Hall Hpt Hlt Hpf Hlf Hu Hfuel.
  assert (plain_branches c (trueBranch cnd) (falseBranch cnd) (store w0)) as Hpb.
  { by exists pc, cnd, pt, pf. }
  destruct (getAIServices_plain_branches c _ _ (store w0) Hstack Hpb)
    as (services & Hsv).
  unfold runProcess.
  erewrite bind_ok by by eapply initializeProcess_eq.
  destruct (initialized_fields c (proc_id pc) services (sim w0)) as [Hags Hprocs].
  pose proof (initialized_currentState c (proc_id pc) services (sim w0)) as Hcs.
  set (w1 := {| sim := initialized c (proc_id pc) services (sim w0);
                store := store w0 |}).
  assert (forall a, a ∈ active_refs (sim w1) ->
            exists id, fst (getAgentState id w0) = Ok a) as Hreg.
  { intros a Hin. unfold active_refs in Hin.
    apply list_elem_of_omap in Hin as (id & _ & E). exists id.
    rewrite getAgentState_fst. unfold w1 in E. cbn [sim] in E.
    by rewrite Hags in E; rewrite E. }
  assert (in_run_of c w1) as Hrun.
  { split_and!; unfold w1; cbn [sim store].
    - by rewrite Hcs.
    - rewrite Hcs, Hprocs. cbn [currentProcessId]. by apply findProcess_found.
    - by rewrite Hcs, Hags.
    - apply Forall_forall. intros a Hin.
      destruct (Hreg a Hin) as (id & E). by eapply Hlive. }
  destruct (drive_from_prefix c (trueBranch cnd) (falseBranch cnd) ltac:(lia)
              (remaining (store w1) c) fuel w1) as (w' & Ed & Es & Ev & Cw');
    try done.
  { unfold w1, remaining, node_count. cbn [store]. rewrite Hpc, Hpt, Hpf. lia. }
  exists w'. split_and!; [done|done|].
  intros id a E. rewrite Forall_forall in Cw'. apply Cw'.
  unfold active_refs, w1. cbn [sim]. rewrite Hcs, Hags. cbn [activeAgents].
  apply list_elem_of_omap. exists id.
  rewrite getAgentState_fst in E.
  destruct (Map_get id (agents (sim w0))) as [a'|] eqn:Eg; [|done].
  simplify_eq. split; [|done].
  apply list_elem_of_fmap. exists (id, a). split; [done|]. by apply Map_get_Some.
Qed.

End ConditionalTermination.

(** ** Nodes made by [createMogiNode] *)

Section CreatedNodes.
Context `{host : Host}.

(** X19: a node made by [createMogiNode] is known by the generated uuid;
    the [id] argument has no effect.  When the handler of the node returns
    a change set for a live agent, [execute] appends a history entry whose
    node id is the uuid. *)
Theorem createMogiNode_records_generated_id
    id uuid ai instr schemas config a st x chg st1 :
  handler (createMogiNode id uuid ai instr schemas config) a st = (Ok chg, st1) ->
  agts st !! a = Some x ->
  exists st' x',
    MogiNode_execute (createMogiNode id uuid ai instr schemas config) a st =
      (Ok tt, st') /\
    agts st' !! a = Some x' /\
    history x' =
      history x ++
        [{| processId := None; nodeId := Some uuid; changes := chg;
            reasoning := default VUndefined (chg !! "_reasoning") |}] /\
    forall id', createMogiNode id' uuid ai instr schemas config =
                createMogiNode id uuid ai instr schemas config.
Proof.
  intros Hh Hx.
  destruct (MogiNode_execute_applied _ a st chg st1 x Hh Hx) as (E & Ha & _).
  eexists _, _. split; [exact E|]. split_and!.
  - cbn. by rewrite lookup_insert_eq.
  - done.
  - done.
Qed.

End CreatedNodes.

(** ** The engine over [GoogleAIService] *)

Module GeminiFacts.
Import Gemini.

Section Facts.
Context `{backend : GenAI}.
Variable stringify : JSRecord -> string.
Variable parse : string -> Result JSValue.
Variable depth : nat.

Local Abbreviation gemini := (gemini_host stringify parse depth).

#[local] Hint Extern 0 Host => exact gemini : typeclass_instances.

(** X20: [GoogleAIService] is a singleton.  Once a construction has
    returned, an instance is set, and every later construction, whatever
    its key and models, returns that same object and changes nothing. *)
Theorem second_construction_returns_first this1 key1 model1 sub1 w r w1 :
  new_GoogleAIService this1 key1 model1 sub1 w = (Ok r, w1) ->
  is_Some (instance (ext w1)) /\
  forall this2 key2 model2 sub2,
    new_GoogleAIService this2 key2 model2 sub2 w1 = (Ok r, w1).
Proof.
  unfold new_GoogleAIService.
  destruct (instance (ext w)) as [[r0 s0]|] eqn:Hi.
  - intros [= <- <-]. split; [by rewrite Hi|]. intros. by rewrite Hi.
  - intros [= <- <-]. cbn. split; [by eexists|]. done.
Qed.

Lemma getService_eq w r s :
  instance (ext w) = Some (r, s) -> getService w = (Ok s, w).
Proof. unfold getService. by intros ->. Qed.

Lemma updateUsage_eq svc response w r s :
  instance (ext w) = Some (r, s) ->
  updateUsage svc response w =
    (Ok tt, set_usage svc
              (counted s (default (0, 0)%Z (usageMetadata response)) (usage w svc))
              w).
Proof.
  intros Hi. unfold updateUsage. by erewrite bind_ok by by eapply getService_eq.
Qed.

(** A request is answered when the model is obtained and answers. *)
Lemma request_ok key params req n response n1 :
  request key params req n = (Ok response, n1) ->
  exists model n0,
    getGenerativeModel key params n = (Ok model, n0) /\
    generateContent model req n0 = (Ok response, n1).
Proof.
  unfold request, bind.
  destruct (getGenerativeModel key params n) as [[model|e] n0]; [|done].
  intros E. by exists model, n0.
Qed.

(** A request throws when the model cannot be obtained, or does not
    answer. *)
Lemma request_throw key params req n e n1 :
  request key params req n = (Throw e, n1) ->
  getGenerativeModel key params n = (Throw e, n1) \/
  exists model n0,
    getGenerativeModel key params n = (Ok model, n0) /\
    generateContent model req n0 = (Throw e, n1).
Proof.
  unfold request, bind.
  destruct (getGenerativeModel key params n) as [[model|e0] n0].
  - intros E. right. by exists model, n0.
  - intros [= -> ->]. by left.
Qed.

(** The outcomes of [prompt], by what the library does: what
    [getGenerativeModel] throws goes to the caller; what the request
    throws is caught. *)
Lemma prompt_cases svc system content instruction schema w r s :
  instance (ext w) = Some (r, s) ->
  (forall e n0,
     getGenerativeModel (apiKey s) (promptParams s) (net (ext w)) = (Throw e, n0) ->
     prompt stringify svc system content instruction schema w =
       (Throw e, set_ext (set_net n0 (ext w)) w)) /\
  (forall model n0,
     getGenerativeModel (apiKey s) (promptParams s) (net (ext w)) = (Ok model, n0) ->
     exists reply w',
       prompt stringify svc system content instruction schema w =
         (Ok (RString reply), w') /\
       instance (ext w') = Some (r, s) /\
       (forall r', r' <> svc -> usage w' r' = usage w r') /\
       match generateContent model
               (promptRequest system content instruction schema) n0 with
       | (Throw _, n) =>
           reply = stringify errorReply /\ usage w' svc = usage w svc /\
           net (ext w') = n
       | (Ok response, n) =>
           reply = match text response with
                   | Ok t => t
                   | Throw _ => stringify errorReply
                   end /\
           usage w' svc =
             counted s (default (0, 0)%Z (usageMetadata response)) (usage w svc) /\
           net (ext w') = n
       end).
Proof.
  intros Hi. split.
  - intros e n0 Em. unfold prompt.
    erewrite bind_ok by by eapply getService_eq.
    erewrite bind_throw; [reflexivity|]. unfold liftNet. by rewrite Em.
  - intros model n0 Em. unfold prompt.
    erewrite bind_ok by by eapply getService_eq.
    erewrite bind_ok; [|unfold liftNet; by rewrite Em].
    set (w0 := set_ext (set_net n0 (ext w)) w).
    assert (instance (ext w0) = Some (r, s)) as Hi0 by done.
    unfold try_catch, bind at 1, liftNet.
    change (net (ext w0)) with n0.
    destruct (generateContent model _ n0) as [[response|e] n] eqn:Eg.
    + set (w1 := set_ext (set_net n (ext w0)) w0).
      assert (instance (ext w1) = Some (r, s)) as Hi1 by done.
      rewrite (bind_ok _ _ w1 tt _ (updateUsage_eq svc response w1 r s Hi1)).
      unfold bind, liftResult, ret.
      destruct (text response) as [t|e]; eexists _, _;
        (split; [reflexivity|]); cbn; rewrite ?decide_True by done;
        (split_and!; try done; intros r' Hne; by rewrite decide_False).
    + eexists _, _. split; [reflexivity|]. by cbn.
Qed.

(** X21: [GoogleAIService.prompt] obtains the model before its [try]
    block and sends the request inside it.  What [getGenerativeModel]
    throws is thrown to the caller, with nothing counted.  Once the model
    is obtained [prompt] does not throw and keeps the instance: when the
    request fails, or [text()] throws, the reply is the serialized
    [{error: "AI processing failed"}]; otherwise it is the text of the
    response.  The counters of the object move exactly when the request
    itself succeeds, also if [text()] then throws: one call, the reported
    tokens (0 if none are reported) and their cost in binary64.  The
    counters of other objects never move. *)
Theorem prompt_catches_request_failures
    svc system content instruction schema w r s :
  instance (ext w) = Some (r, s) ->
  (forall e n0,
     getGenerativeModel (apiKey s) (promptParams s) (net (ext w)) = (Throw e, n0) ->
     prompt stringify svc system content instruction schema w =
       (Throw e, set_ext (set_net n0 (ext w)) w)) /\
  (forall model n0,
     getGenerativeModel (apiKey s) (promptParams s) (net (ext w)) = (Ok model, n0) ->
     exists reply w',
       prompt stringify svc system content instruction schema w =
         (Ok (RString reply), w') /\
       instance (ext w') = Some (r, s) /\
       (forall r', r' <> svc -> usage w' r' = usage w r') /\
       match generateContent model
               (promptRequest system content instruction schema) n0 with
       | (Throw _, n) =>
           reply = stringify errorReply /\ usage w' svc = usage w svc /\
           net (ext w') = n
       | (Ok response, n) =>
           reply = match text response with
                   | Ok t => t
                   | Throw _ => stringify errorReply
                   end /\
           usage w' svc =
             counted s (default (0, 0)%Z (usageMetadata response)) (usage w svc) /\
           net (ext w') = n
       end).
Proof.
  intros Hi.
  destruct (prompt_cases svc system content instruction schema w r s Hi)
    as [Hthrow Hcaught].
  split; [exact Hthrow|exact Hcaught].
Qed.

(** [prompt] when the whole request is answered. *)
Lemma prompt_answered svc system content instruction schema w r s response n1 :
  instance (ext w) = Some (r, s) ->
  request (apiKey s) (promptParams s)
    (promptRequest system content instruction schema) (net (ext w)) =
    (Ok response, n1) ->
  exists w',
    prompt stringify svc system content instruction schema w =
      (Ok (RString match text response with
                   | Ok t => t
                   | Throw _ => stringify errorReply
                   end), w') /\
    instance (ext w') = Some (r, s) /\
    (forall r', r' <> svc -> usage w' r' = usage w r') /\
    usage w' svc =
      counted s (default (0, 0)%Z (usageMetadata response)) (usage w svc) /\
    net (ext w') = n1.
Proof.
  intros Hi Er. apply request_ok in Er as (model & n0 & Em & Eg).
  destruct (prompt_cases svc system content instruction schema w r s Hi)
    as [_ Hcaught].
  destruct (Hcaught model n0 Em) as (reply & w' & Ep & Hi' & Hother & Hcase).
  rewrite Eg in Hcase. destruct Hcase as (-> & Hu & Hn).
  by exists w'.
Qed.

(** The request of a node that asks without chain of thought. *)
Lemma gemini_promptResponse (n : MogiNode) a (st : @Store gemini) x :
  useChainOfThought (node_config n) = false ->
  agts st !! a = Some x ->
  promptResponse n a st =
    (let '(res, w) :=
       prompt stringify (aiService (node_config n)) (instructions (node_config n))
         (stringify (attributes x))
         (default defaultAppend (appendMessage (node_config n)))
         (default (objectSchema (map_to_list (attributes x)))
            (schema (node_config n))) (ai st) in
     (res, @set_ai gemini w st)).
Proof.
  intros Hcot Hx. unfold promptResponse.
  erewrite bind_ok by by apply getAgent_eq.
  rewrite Hcot. destruct st as [ps ags w ev]. cbn [ai] in *.
  destruct (schema (node_config n)) as [sch|]; cbn [default].
  - erewrite bind_ok by reflexivity. reflexivity.
  - erewrite bind_ok by reflexivity. reflexivity.
Qed.

(** X22: over [GoogleAIService], what a node without chain of thought
    does to a live agent, by what the library does.  When
    [getGenerativeModel] throws, [prompt] throws, [execute] catches it
    and nothing is recorded: agents, processes and counters are as
    before.  Once the model is obtained a change set is always applied;
    when the request then fails and the parser reads the error reply
    back, the agent gets the attribute [error] with value [AI processing
    failed] and a history entry, and no usage is counted. *)
Theorem gemini_failure_is_recorded_in_agent (n : MogiNode) a
    (st : @Store gemini) x r s :
  useChainOfThought (node_config n) = false ->
  instance (ext (ai st)) = Some (r, s) ->
  agts st !! a = Some x ->
  (forall e n0,
     getGenerativeModel (apiKey s) (promptParams s) (net (ext (ai st))) =
       (Throw e, n0) ->
     exists st',
       MogiNode_execute n a st = (Ok tt, st') /\
       agts st' = agts st /\
       procs st' = procs st /\
       forall r', usage (ai st') r' = usage (ai st) r') /\
  (forall model n0,
     getGenerativeModel (apiKey s) (promptParams s) (net (ext (ai st))) =
       (Ok model, n0) ->
     (exists chg st',
        MogiNode_execute n a st = (Ok tt, st') /\
        agts st' = <[a := applied n chg x]> (agts st)) /\
     (forall e n',
        generateContent model
          (promptRequest (instructions (node_config n)) (stringify (attributes x))
             (default defaultAppend (appendMessage (node_config n)))
             (default (objectSchema (map_to_list (attributes x)))
                (schema (node_config n)))) n0 = (Throw e, n') ->
        parse (stringify errorReply) =
          Ok (VObj [("error", VStr "AI processing failed")]) ->
        exists st',
          MogiNode_execute n a st = (Ok tt, st') /\
          agts st' =
            <[a := applied n (<["_reasoning" := VUndefined]> errorReply) x]>
              (agts st) /\
          forall r', usage (ai st') r' = usage (ai st) r')).
Proof.
  intros Hcot Hi Hx.
  destruct (prompt_cases (aiService (node_config n))
              (instructions (node_config n)) (stringify (attributes x))
              (default defaultAppend (appendMessage (node_config n)))
              (default (objectSchema (map_to_list (attributes x)))
                 (schema (node_config n))) (ai st) r s Hi)
    as [Hthrow Hcaught].
  pose proof (gemini_promptResponse n a st x Hcot Hx) as Er.
  split.
  - intros e n0 Em. rewrite (Hthrow e n0 Em) in Er.
    eexists. split.
    { rewrite MogiNode_execute_eq. by rewrite Er. }
    by cbn.
  - intros model n0 Em.
    destruct (Hcaught model n0 Em) as (reply & w' & Ep & Hi' & Hother & Hcase).
    rewrite Ep in Er.
    assert (MogiNode_execute n a st =
              (Ok tt, set_agts (insert a (applied n (parseAIReponse (RString reply)) x))
                        (@set_ai gemini w' st))) as Ex.
    { rewrite MogiNode_execute_eq, Er. cbn [agts set_ai]. by rewrite Hx. }
    split.
    + eexists _, _. split; [exact Ex|]. done.
    + intros e n' Eg Hparse. rewrite Eg in Hcase.
      destruct Hcase as (-> & Hu & _).
      eexists. split; [exact Ex|]. cbn [agts set_agts set_ai ai]. split.
      * f_equal. f_equal. unfold parseAIReponse. cbn [destructure default].
        unfold id.
        change (JSON_parse (stringify errorReply)) with (parse (stringify errorReply)).
        rewrite Hparse. cbn [spread reverse rev_append opt_value list_to_map foldr].
        unfold errorReply. by rewrite insert_empty.
      * intros r'. destruct (decide (r' = aiService (node_config n))) as [->|Hne];
          [done|by apply Hother].
Qed.

(** The request of a node that asks with chain of thought. *)
Lemma gemini_promptResponse_thinking (n : MogiNode) a (st : @Store gemini) x :
  useChainOfThought (node_config n) = true ->
  agts st !! a = Some x ->
  promptResponse n a st =
    (let '(res, w) :=
       promptThinking stringify (aiService (node_config n))
         (instructions (node_config n)) (stringify (attributes x))
         (default defaultAppend (appendMessage (node_config n)))
         (default (objectSchema (map_to_list (attributes x)))
            (schema (node_config n))) (ai st) in
     (res, @set_ai gemini w st)).
Proof.
  intros Hcot Hx. unfold promptResponse.
  erewrite bind_ok by by apply getAgent_eq.
  rewrite Hcot. destruct st as [ps ags w ev]. cbn [ai] in *.
  destruct (schema (node_config n)) as [sch|]; cbn [default].
  - erewrite bind_ok by reflexivity. reflexivity.
  - erewrite bind_ok by reflexivity. reflexivity.
Qed.

Lemma generateReasoning_throws svc system content w r s e n :
  instance (ext w) = Some (r, s) ->
  request (apiKey s) (reasoningParams s)
    (reasoningRequest system content) (net (ext w)) = (Throw e, n) ->
  generateReasoning svc system content w =
    (Throw e, set_ext (set_net n (ext w)) w).
Proof.
  intros Hi Er. unfold generateReasoning.
  erewrite bind_ok by by eapply getService_eq.
  apply request_throw in Er as [Em|(model & n0 & Em & Eg)].
  - erewrite bind_throw; [reflexivity|]. unfold liftNet. by rewrite Em.
  - erewrite bind_ok; [|unfold liftNet; by rewrite Em].
    erewrite bind_throw; [reflexivity|]. unfold liftNet. cbn. by rewrite Eg.
Qed.

(** X23: over [GoogleAIService], with chain of thought a failing request
    for the reasoning discards the answer already obtained: [execute]
    returns normally with agents and processes unchanged, yet the first
    call is counted in the usage of the capability. *)
Theorem gemini_reasoning_failure_discards_answer (n : MogiNode) a
    (st : @Store gemini) x r s response n1 reply e n2 :
  useChainOfThought (node_config n) = true ->
  instance (ext (ai st)) = Some (r, s) ->
  agts st !! a = Some x ->
  request (apiKey s) (promptParams s)
    (promptRequest (instructions (node_config n)) (stringify (attributes x))
       (default defaultAppend (appendMessage (node_config n)))
       (default (objectSchema (map_to_list (attributes x)))
          (schema (node_config n))))
    (net (ext (ai st))) = (Ok response, n1) ->
  text response = Ok reply ->
  request (apiKey s) (reasoningParams s)
    (reasoningRequest (instructions (node_config n))
       (added (RString reply) (stringify (attributes x)))) n1 = (Throw e, n2) ->
  exists st',
    MogiNode_execute n a st = (Ok tt, st') /\
    agts st' = agts st /\
    procs st' = procs st /\
    usage (ai st') (aiService (node_config n)) =
      counted s (default (0, 0)%Z (usageMetadata response))
        (usage (ai st) (aiService (node_config n))).
Proof.
  intros Hcot Hi Hx Eg1 Et Eg2.
  destruct (prompt_answered (aiService (node_config n))
              (instructions (node_config n)) (stringify (attributes x))
              (default defaultAppend (appendMessage (node_config n)))
              (default (objectSchema (map_to_list (attributes x)))
                 (schema (node_config n))) (ai st) r s response n1 Hi Eg1)
    as (w1 & Ep & Hi1 & Hother & Hu & Hn).
  rewrite Et in Ep.
  pose proof (gemini_promptResponse_thinking n a st x Hcot Hx) as Er.
  unfold promptThinking in Er. erewrite bind_ok in Er by exact Ep.
  erewrite bind_throw in Er.
  2: { eapply generateReasoning_throws; [exact Hi1|]. rewrite Hn. exact Eg2. }
  eexists. split.
  { rewrite MogiNode_execute_eq. by rewrite Er. }
  cbn. split_and!; [done|done|]. exact Hu.
Qed.

Lemma generateReasoning_ok svc system content w r s response n reasoning :
  instance (ext w) = Some (r, s) ->
  request (apiKey s) (reasoningParams s)
    (reasoningRequest system content) (net (ext w)) = (Ok response, n) ->
  text response = Ok reasoning ->
  generateReasoning svc system content w =
    (Ok reasoning,
     set_usage svc
       (counted s (default (0, 0)%Z (usageMetadata response)) (usage w svc))
       (set_ext (set_net n (ext w)) w)).
Proof.
  intros Hi Er Et. apply request_ok in Er as (model & n0 & Em & Eg).
  unfold generateReasoning.
  erewrite bind_ok by by eapply getService_eq.
  erewrite bind_ok; [|unfold liftNet; by rewrite Em].
  erewrite bind_ok; [|unfold liftNet; cbn; by rewrite Eg].
  erewrite bind_ok by by eapply updateUsage_eq.
  unfold liftResult. by rewrite Et.
Qed.

(** X24: over [GoogleAIService], with chain of thought, both requests
    answered and an answer that parses, the agent gets the attributes of
    the parsed answer and [_reasoning] set to the statement, one history
    entry whose reasoning is that statement, and the capability counts two
    calls. *)
Theorem gemini_chain_of_thought_records_reasoning (n : MogiNode) a
    (st : @Store gemini) x r s response1 n1 reply response2 n2 why result :
  useChainOfThought (node_config n) = true ->
  instance (ext (ai st)) = Some (r, s) ->
  agts st !! a = Some x ->
  request (apiKey s) (promptParams s)
    (promptRequest (instructions (node_config n)) (stringify (attributes x))
       (default defaultAppend (appendMessage (node_config n)))
       (default (objectSchema (map_to_list (attributes x)))
          (schema (node_config n))))
    (net (ext (ai st))) = (Ok response1, n1) ->
  text response1 = Ok reply ->
  request (apiKey s) (reasoningParams s)
    (reasoningRequest (instructions (node_config n))
       (added (RString reply) (stringify (attributes x)))) n1 =
    (Ok response2, n2) ->
  text response2 = Ok why ->
  parse reply = Ok result ->
  exists st' x',
    MogiNode_execute n a st = (Ok tt, st') /\
    agts st' = <[a := x']> (agts st) /\
    attributes x' = <["_reasoning" := VStr why]> (spread result) ∪ attributes x /\
    (exists h, history x' = history x ++ [h] /\ reasoning h = VStr why) /\
    totalCalls (usage (ai st') (aiService (node_config n))) =
      (totalCalls (usage (ai st) (aiService (node_config n))) + 2)%Z.
Proof.
  intros Hcot Hi Hx Eg1 Et1 Eg2 Et2 Hparse.
  destruct (prompt_answered (aiService (node_config n))
              (instructions (node_config n)) (stringify (attributes x))
              (default defaultAppend (appendMessage (node_config n)))
              (default (objectSchema (map_to_list (attributes x)))
                 (schema (node_config n))) (ai st) r s response1 n1 Hi Eg1)
    as (w1 & Ep & Hi1 & Hother & Hu & Hn).
  rewrite Et1 in Ep.
  pose proof (gemini_promptResponse_thinking n a st x Hcot Hx) as Er.
  unfold promptThinking in Er. erewrite bind_ok in Er by exact Ep.
  erewrite bind_ok in Er.
  2: { eapply generateReasoning_ok; [exact Hi1|rewrite Hn; exact Eg2|exact Et2]. }
  unfold ret in Er. cbv beta iota in Er.
  eexists _, _. split.
  { rewrite MogiNode_execute_eq, Er. cbn [agts set_ai]. by rewrite Hx. }
  assert (parseAIReponse (host := gemini) (RArray [reply; why]) =
          <["_reasoning" := VStr why]> (spread result)) as Epar.
  { unfold parseAIReponse. cbn [destructure default from_option lookup list_lookup].
    unfold id. change (JSON_parse reply) with (parse reply). by rewrite Hparse. }
  cbn [agts set_agts set_ai ai]. rewrite Epar. split_and!.
  - done.
  - done.
  - eexists. split; [reflexivity|]. cbn. by rewrite lookup_insert_eq.
  - cbn. rewrite decide_True by done. cbn. rewrite Hu. cbn. lia.
Qed.

(** X26: [setGenerationConfig] reaches the request for reasoning only.
    After it, [prompt] answers, counts and uses the network exactly as it
    would have before (it always sends the default configuration), and the
    models are unchanged; the request for reasoning sends the given
    configuration over the defaults, with [maxOutputTokens] always 60. *)
Theorem setGenerationConfig_reaches_reasoning_only
    cfg svc system content instruction schema w r s :
  instance (ext w) = Some (r, s) ->
  exists w1 s1,
    setGenerationConfig cfg w = (Ok tt, w1) /\
    instance (ext w1) = Some (r, s1) /\
    fst (prompt stringify svc system content instruction schema w1) =
      fst (prompt stringify svc system content instruction schema w) /\
    (forall r',
       usage (snd (prompt stringify svc system content instruction schema w1)) r' =
       usage (snd (prompt stringify svc system content instruction schema w)) r') /\
    net (ext (snd (prompt stringify svc system content instruction schema w1))) =
      net (ext (snd (prompt stringify svc system content instruction schema w))) /\
    mp_model (reasoningParams s1) = mp_model (reasoningParams s) /\
    forall k,
      mp_generationConfig (reasoningParams s1) !! k =
      if decide (k = "maxOutputTokens") then Some 60%Q
      else match cfg !! k with
           | Some v => Some v
           | None => DEFAULT_CONFIG !! k
           end.
Proof.
  intros Hi.
  set (s1 := {| apiKey := apiKey s; primary := primary s; utility := utility s;
                genConfig := cfg; inputCostPerMToken := inputCostPerMToken s;
                outputCostPerMToken := outputCostPerMToken s |}).
  set (w1 := set_ext (set_instance (Some (r, s1)) (ext w)) w).
  assert (setGenerationConfig cfg w = (Ok tt, w1)) as Es.
  { unfold setGenerationConfig, modifyService. by rewrite Hi. }
  assert (instance (ext w1) = Some (r, s1)) as Hi1 by done.
  exists w1, s1. split; [exact Es|]. split; [exact Hi1|].
  destruct (prompt_cases svc system content instruction schema w r s Hi)
    as [Hthrow Hcaught].
  destruct (prompt_cases svc system content instruction schema w1 r s1 Hi1)
    as [Hthrow1 Hcaught1].
  change (apiKey s1) with (apiKey s) in Hthrow1, Hcaught1.
  change (promptParams s1) with (promptParams s) in Hthrow1, Hcaught1.
  change (net (ext w1)) with (net (ext w)) in Hthrow1, Hcaught1.
  assert (forall k,
            mp_generationConfig (reasoningParams s1) !! k =
            if decide (k = "maxOutputTokens") then Some 60%Q
            else match cfg !! k with
                 | Some v => Some v
                 | None => DEFAULT_CONFIG !! k
                 end) as Hcfg.
  { intros k. unfold reasoningParams. cbn [mp_generationConfig genConfig s1].
    case_decide as Ek.
    - subst k. apply lookup_insert_eq.
    - rewrite lookup_insert_ne by done. rewrite lookup_union.
      destruct (cfg !! k), (DEFAULT_CONFIG !! k); reflexivity. }
  destruct (getGenerativeModel (apiKey s) (promptParams s) (net (ext w)))
    as [[model|e] n0] eqn:Em.
  - destruct (Hcaught model n0 eq_refl) as (reply & w' & Ep & _ & Hother & Hcase).
    destruct (Hcaught1 model n0 eq_refl)
      as (reply1 & w1' & Ep1 & _ & Hother1 & Hcase1).
    rewrite Ep, Ep1. cbn [fst snd].
    change (usage w1) with (usage w) in Hcase1, Hother1.
    destruct (generateContent _ _ _) as [[response|e] n];
      destruct Hcase as (-> & Hu & Hn), Hcase1 as (-> & Hu1 & Hn1).
    + split_and!; [done| |congruence|done|exact Hcfg].
      intros r'. destruct (decide (r' = svc)) as [->|Hne].
      * rewrite Hu, Hu1. reflexivity.
      * by rewrite Hother, Hother1.
    + split_and!; [done| |congruence|done|exact Hcfg].
      intros r'. destruct (decide (r' = svc)) as [->|Hne].
      * by rewrite Hu, Hu1.
      * by rewrite Hother, Hother1.
  - rewrite (Hthrow e n0 eq_refl), (Hthrow1 e n0 eq_refl). cbn [fst snd].
    by split_and!.
Qed.

End Facts.
End GeminiFacts.

(** ** The exceptions of a step *)

Section Exceptions.
Context `{host : Host}.

Lemma raises_ret {S A} E (a : A) : raises_only E (@ret S A a).
Proof. by intros s e. Qed.

Lemma raises_throw {S A} (E : Exn -> Prop) e0 : E e0 -> raises_only E (@throw S A e0).
Proof. intros He s e [= <-]. done. Qed.

Lemma raises_bind {S A B} E (m : M S A) (k : A -> M S B) :
  raises_only E m -> (forall a, raises_only E (k a)) -> raises_only E (bind m k).
Proof.
  intros Hm Hk s e. unfold bind. specialize (Hm s).
  destruct (m s) as [[a|e'] s1]; cbn in *.
  - apply Hk.
  - intros [= <-]. by apply Hm.
Qed.

Lemma raises_forM {S A B} E (l : list A) (acc : B) (body : A -> B -> M S B) :
  (forall x b, raises_only E (body x b)) -> raises_only E (forM l acc body).
Proof.
  intros Hb. revert acc. induction l as [|x l IH]; intros acc; cbn [forM].
  - apply raises_ret.
  - apply raises_bind; [apply Hb|apply IH].
Qed.

Lemma raises_modify {S} E (g : S -> S) : raises_only E (modify g).
Proof. by intros s e. Qed.

Lemma getProc_raises r : raises_only engine_error (getProc r).
Proof.
  intros st e. unfold getProc. destruct (procs st !! r); [done|].
  intros [= <-]. by left.
Qed.

Lemma getAgent_raises a : raises_only engine_error (getAgent a).
Proof.
  intros st e. unfold getAgent. destruct (agts st !! a); [done|].
  intros [= <-]. by left.
Qed.

Lemma MogiNode_execute_raises n a : raises_only engine_error (MogiNode_execute n a).
Proof.
  intros st e. destruct (MogiNode_execute_run n a st) as (-> & _). done.
Qed.

Ltac raises_step :=
  first
    [ apply raises_ret
    | apply raises_throw; first [by left|by right]
    | apply raises_modify
    | apply getProc_raises
    | apply getAgent_raises
    | apply MogiNode_execute_raises
    | apply raises_bind; [|intros]
    | apply raises_forM; intros
    | progress case_match ].

Lemma getCond_raises c : raises_only engine_error (getCond c).
Proof. unfold getCond. repeat raises_step. Qed.

Lemma putCond_raises c g : raises_only engine_error (putCond c g).
Proof. unfold putCond, putProc. repeat raises_step. Qed.

Lemma MogiProcess_resetExecution_raises r :
  raises_only engine_error (MogiProcess_resetExecution r).
Proof. unfold MogiProcess_resetExecution, putProc. repeat raises_step. Qed.

Lemma resetExecution_at_raises d r :
  raises_only engine_error (resetExecution_at d r).
Proof.
  revert r. induction d as [|d IH]; intros r; cbn [resetExecution_at].
  - apply raises_throw. by right.
  - repeat first
      [ apply IH | apply getCond_raises | apply putCond_raises
      | apply MogiProcess_resetExecution_raises | raises_step ].
Qed.

Lemma executeAgentStep_raises r a : raises_only engine_error (executeAgentStep r a).
Proof. unfold executeAgentStep, putProc. repeat raises_step. Qed.

Lemma conditionalAgentStep_raises c a hm :
  raises_only engine_error (conditionalAgentStep c a hm).
Proof.
  unfold conditionalAgentStep, resetExecution.
  repeat first
    [ apply resetExecution_at_raises | apply getCond_raises | apply putCond_raises
    | apply executeAgentStep_raises | raises_step ].
Qed.

Lemma executeConditionalStep_raises c ags :
  raises_only engine_error (executeConditionalStep c ags).
Proof.
  unfold executeConditionalStep, putProc.
  repeat first [ apply conditionalAgentStep_raises | raises_step ].
Qed.

Lemma findProcess_raises pid l : raises_only engine_error (findProcess pid l).
Proof.
  induction l as [|r l IH]; cbn [findProcess]; repeat first [apply IH|raises_step].
Qed.

(** *** The snapshot of active agents *)

#[local] Instance keeps_active_registered_preorder :
  PreOrder keeps_active_registered.
Proof.
  split; [intros w H; exact H|]. intros w1 w2 w3 H1 H2 H. by apply H2, H1.
Qed.

Lemma liftStore_keeps_active {A} (m : M Store A) :
  preserves keeps_active_registered (liftStore m).
Proof.
  intros w. unfold keeps_active_registered, liftStore.
  by destruct (m (store w)).
Qed.

Lemma modifySim_keeps_active g :
  (forall s, active_registered s -> active_registered (g s)) ->
  preserves keeps_active_registered (modifySim g).
Proof. intros Hg w H. cbn. by apply Hg. Qed.

Lemma initializeProcess_keeps_active process :
  preserves keeps_active_registered (initializeProcess process).
Proof.
  unfold initializeProcess, trackAIService.
  repeat first
    [ apply liftStore_keeps_active
    | apply preserves_pure; [tc_solve|by intros w]
    | apply preserves_bind; [tc_solve| |intros]
    | apply preserves_forM; [tc_solve|intros] ].
  - apply modifySim_keeps_active. intros s _ id Hid. exact Hid.
  - by apply modifySim_keeps_active.
  - apply modifySim_keeps_active. intros s Hs. by case_decide.
  - by apply modifySim_keeps_active.
  - by apply modifySim_keeps_active.
Qed.

(** The methods of the simulation keep the snapshot within the
    registered ids; code that holds the [currentState] object can break
    this. *)
Lemma methods_keep_active_registered w :
  active_registered (sim w) ->
  (forall attrs id, active_registered (sim (snd (addAgent attrs id w)))) /\
  (forall p, active_registered (sim (snd (initializeProcess p w)))) /\
  active_registered (sim (snd (executeStep w))) /\
  active_registered (sim (snd (getAIUsage w))) /\
  active_registered (sim (snd (resetAIUsage w))).
Proof.
  intros IH. split_and!.
  - intros attrs id id' Hid'. unfold addAgent, bind, liftStore, modifySim, ret in *.
    cbn in *. rewrite Map_set_keys. specialize (IH id' Hid').
    case_decide; [done|]. apply elem_of_app. by left.
  - intros p. by apply initializeProcess_keeps_active.
  - destruct (executeStep_run_state w) as (_ & _ & _ & Ea & _ & _ & _ & Eb & _).
    intros id. rewrite Ea, Eb. apply IH.
  - by rewrite getAIUsage_eq.
  - unfold resetAIUsage. erewrite bind_ok by reflexivity.
    destruct (resetLoop_eq (aiServices (sim w)) w) as (u & Hl & _).
    erewrite bind_ok by exact Hl. exact IH.
Qed.

(** The snapshot is looked up id by id; the lookup fails at an id that
    is not registered. *)
Lemma mapM_getAgentState_raises ids w e :
  fst (mapM getAgentState ids w) = Throw e ->
  exists id, id ∈ ids /\ (id ∉ (fst <$> agents (sim w))) /\
    e = Error ("Agent " +:+ id +:+ " not found in simulation").
Proof.
  induction ids as [|id ids IH]; [done|]. cbn [mapM].
  rewrite bind_pure by apply getAgentState_pure.
  rewrite getAgentState_fst.
  destruct (Map_get id (agents (sim w))) as [a|] eqn:E.
  - rewrite bind_pure by apply mapM_getAgentState_pure.
    destruct (fst (mapM getAgentState ids w)) as [l|e0]; [done|].
    intros [= <-]. destruct (IH eq_refl) as (id' & Hin & Hreg & He).
    exists id'. split; [by right|done].
  - intros [= <-]. exists id. split; [by left|].
    split; [by apply Map_get_None|done].
Qed.

(** X18: what [executeStep] can throw, in any world at all (any store,
    any cursor, any snapshot, as the program may have left them through
    the objects it holds).  It is a TypeError (a member access on
    [undefined]: no node at the index, a process or agent object that is
    gone), a RangeError (the call stack exhausted by a cyclic process
    graph), or the error of [getAgentState] for an id of the active-agent
    snapshot that is not registered.  The methods of the simulation keep
    the snapshot within the registered ids, so the third needs a write to
    the [currentState] object from outside.  A failing capability or a
    malformed reply never surfaces from a step.  The predicate of a
    conditional process is a function that returns, as its type and the
    specification have it; what a predicate that throws would raise is
    not covered. *)
Theorem executeStep_raises_engine_errors_only w e :
  fst (executeStep w) = Throw e ->
  e = TypeError \/ e = RangeError \/
  exists id,
    id ∈ activeAgents (currentState (sim w)) /\
    (id ∉ (fst <$> agents (sim w))) /\
    e = Error ("Agent " +:+ id +:+ " not found in simulation").
Proof.
  rewrite executeStep_eq. cbv zeta.
  destruct (isComplete (currentState (sim w))); [done|].
  destruct (fst (findProcess _ _ _)) as [[r|]|e0] eqn:Hf; [|done|].
  2: { intros [= <-].
       destruct (findProcess_raises _ _ _ _ Hf); [by left|right; by left]. }
  destruct (procs (store w) !! r) as [p|]; [|intros [= <-]; by left].
  destruct (fst (mapM getAgentState _ w)) as [ags|e0] eqn:Hags.
  2: { intros [= <-]. right. right. by apply mapM_getAgentState_raises. }
  destruct (conditional p).
  - pose proof (executeConditionalStep_raises r ags (store w) e) as Hc.
    destruct (executeConditionalStep r ags (store w)) as [res st'].
    cbn [fst] in *. intros He. destruct (Hc He); [by left|right; by left].
  - destruct (nodes p !! _), ags; try done; intros [= <-]; by left.
Qed.

End Exceptions.

(** ** Building and rewiring processes *)

Section Construction.
Context `{host : Host}.

Lemma addNode_eq st r p n :
  procs st !! r = Some p ->
  addNode r n st = (Ok tt, set_procs (insert r (set_nodes (nodes p ++ [n]) p)) st).
Proof.
  intros Hp. unfold addNode. by erewrite bind_ok by by apply getProc_eq.
Qed.

Lemma addNodes_eq ns : forall st r p,
  procs st !! r = Some p ->
  forM ns tt (fun n _ => addNode r n) st =
    (Ok tt, set_procs (insert r (set_nodes (nodes p ++ ns) p)) st).
Proof.
  induction ns as [|n ns IH]; intros st r p Hp; cbn [forM].
  - unfold ret. f_equal. destruct st as [ps ags w ev]. cbn in *.
    unfold set_procs. cbn. f_equal. rewrite app_nil_r.
    rewrite insert_id; [done|]. rewrite Hp. by destruct p.
  - erewrite bind_ok by by apply addNode_eq.
    erewrite IH by (cbn; by rewrite lookup_insert_eq).
    f_equal. unfold set_procs. cbn. rewrite insert_insert_eq.
    by rewrite <- app_assoc.
Qed.

(** X25: the constructor of [MogiConditionalProcess] allocates a fresh
    process object with the given nodes in order, the cursor at 0, the
    branches as given (unchecked) and no agent bound; no existing object
    is touched.  Passing nodes to the constructor is the same as adding
    them afterwards with [addNode]. *)
Theorem new_MogiConditionalProcess_holds_given_nodes id cond t f ns more cfg st :
  exists r,
    procs st !! r = None /\
    new_MogiConditionalProcess id cond t f (ns ++ more) cfg st =
      (Ok r,
       set_procs (insert r
         {| proc_id := id; proc_config := cfg; nodes := ns ++ more;
            currentNodeIndex := 0;
            conditional := Some {| condition := cond; trueBranch := t;
                                   falseBranch := f; branchStates := ∅ |} |}) st) /\
    (let* r' := new_MogiConditionalProcess id cond t f ns cfg in
     forM more tt (fun n _ => addNode r' n) ;; ret r') st =
      new_MogiConditionalProcess id cond t f (ns ++ more) cfg st /\
    forall agentId,
      fst (getActiveBranch r agentId
             (snd (new_MogiConditionalProcess id cond t f (ns ++ more) cfg st))) =
      Ok None.
Proof.
  exists (fresh (dom (procs st))).
  assert (procs st !! fresh (dom (procs st)) = None) as Hfresh.
  { apply not_elem_of_dom, is_fresh. }
  assert (forall ns',
    new_MogiConditionalProcess id cond t f ns' cfg st =
      (Ok (fresh (dom (procs st))),
       set_procs (insert (fresh (dom (procs st)))
         {| proc_id := id; proc_config := cfg; nodes := ns'; currentNodeIndex := 0;
            conditional := Some {| condition := cond; trueBranch := t;
                                   falseBranch := f; branchStates := ∅ |} |}) st))
    as Hnew.
  { intros ns'. unfold new_MogiConditionalProcess.
    erewrite bind_ok by reflexivity.
    erewrite bind_ok.
    2: { eapply addNodes_eq. cbn. by rewrite lookup_insert_eq. }
    unfold ret. f_equal. unfold set_procs. cbn. by rewrite insert_insert_eq. }
  split_and!; [done|apply Hnew| |].
  - erewrite bind_ok by apply Hnew.
    erewrite bind_ok.
    2: { eapply addNodes_eq. cbn. by rewrite lookup_insert_eq. }
    rewrite Hnew. unfold ret. f_equal. unfold set_procs. cbn.
    by rewrite insert_insert_eq.
  - intros agentId. rewrite Hnew. cbn [snd]. unfold getActiveBranch.
    erewrite bind_ok.
    2: { eapply getCond_eq; [cbn; by rewrite lookup_insert_eq|done]. }
    done.
Qed.

(** X14: [updateBranches] replaces the branches it is given, keeps the
    others, and re-routes no agent.  The bindings of the process and every
    other process object are as before, and the next step of an agent
    bound to the old branch runs the node at the cursor of that old branch
    and leaves the agent bound to it. *)
Theorem updateBranches_leaves_bound_agents st c pc cnd t' f' a x bs pb n hm :
  procs st !! c = Some pc ->
  conditional pc = Some cnd ->
  length (nodes pc) <= currentNodeIndex pc ->
  agts st !! a = Some x ->
  branchStates cnd !! agent_id x = Some bs ->
  completed bs = false ->
  branch bs <> c ->
  procs st !! branch bs = Some pb ->
  nodes pb !! currentNodeIndex pb = Some n ->
  exists st1,
    updateBranches c t' f' st = (Ok tt, st1) /\
    (exists pc1 cnd1,
       procs st1 !! c = Some pc1 /\ conditional pc1 = Some cnd1 /\
       trueBranch cnd1 = default (trueBranch cnd) t' /\
       falseBranch cnd1 = default (falseBranch cnd) f') /\
    (forall id, bound st1 c id = bound st c id) /\
    (forall r, r <> c -> procs st1 !! r = procs st !! r) /\
    exists st2,
      conditionalAgentStep c a hm st1 = (Ok true, st2) /\
      agts st2 = agts (snd (MogiNode_execute n a st1)) /\
      cursor_of st2 (branch bs) = Some (S (currentNodeIndex pb)) /\
      bound st2 c (agent_id x) = Some (branch bs).
Proof.
  intros Hpc Hc Hle Hx Hbs Hcomp Hne Hpb Hn.
  set (cnd1 := set_branches (default (trueBranch cnd) t')
                 (default (falseBranch cnd) f') cnd).
  set (pc1 := set_conditional (Some cnd1) pc).
  assert (updateBranches c t' f' st = (Ok tt, set_procs (insert c pc1) st)) as Eu.
  { unfold updateBranches, pc1, cnd1.
    assert (set_procs (insert c (set_conditional (Some cnd) pc)) st = st) as Eid.
    { destruct st as [ps ags w ev]. unfold set_procs. cbn in *. f_equal.
      apply insert_id. rewrite Hpc. f_equal. destruct pc. cbn in *. by subst. }
    destruct t' as [t'|], f' as [f'|]; cbn [default].
    - erewrite bind_ok by by eapply putCond_eq.
      erewrite putCond_eq; [|cbn; by rewrite lookup_insert_eq|done].
      cbn. unfold set_procs. cbn. by rewrite insert_insert_eq.
    - erewrite bind_ok by by eapply putCond_eq. done.
    - erewrite bind_ok by reflexivity. by erewrite putCond_eq.
    - erewrite bind_ok by reflexivity. unfold ret. f_equal.
      rewrite <- Eid at 1. f_equal. f_equal. f_equal. f_equal.
      by destruct cnd. }
  set (st1 := set_procs (insert c pc1) st) in *.
  assert (procs st1 !! c = Some pc1) as Hpc1 by (cbn; by rewrite lookup_insert_eq).
  assert (forall r, r <> c -> procs st1 !! r = procs st !! r) as Hother.
  { intros r Hr. cbn. by rewrite lookup_insert_ne. }
  exists st1. split_and!; [done| | |done|].
  - by exists pc1, cnd1.
  - intros id. unfold bound. rewrite Hpc1, Hpc. cbn. by rewrite Hc.
  - eexists. split.
    { eapply (conditionalAgentStep_more st1 c pc1 cnd1 a x bs pb n hm); try done.
      by rewrite Hother. }
    destruct (MogiNode_execute_run n a st1) as (_ & Hps & _).
    split_and!.
    + done.
    + unfold cursor_of. cbn. rewrite lookup_insert_ne by done.
      by rewrite lookup_insert_eq.
    + by rewrite bound_with_branchState, decide_True.
Qed.

End Construction.

(** * The further properties on concrete runs *)

Section LiveBranches.
Context `{host : Host}.

Lemma descends_live st c r :
  branches_live st -> is_Some (procs st !! c) -> descends st c r ->
  is_Some (procs st !! r).
Proof.
  intros Hl Hc Hd. induction Hd as [r|c p cnd r Hp Hcnd _ IH|c p cnd r Hp Hcnd _ IH];
    [done|..]; apply IH; specialize (Hl c p Hp); cbv beta in Hl;
    rewrite Hcnd in Hl; apply andb_true_iff in Hl as [H1 H2].
  - by apply bool_decide_eq_true in H1.
  - by apply bool_decide_eq_true in H2.
Qed.

Lemma registered_live w :
  Forall (fun e => is_Some (agts (store w) !! e.2)) (agents (sim w)) ->
  forall id a, fst (getAgentState id w) = Ok a -> is_Some (agts (store w) !! a).
Proof.
  intros Hall id a. unfold getAgentState. erewrite bind_ok by reflexivity.
  destruct (Map_get id (agents (sim w))) as [a'|] eqn:Hg; [|done].
  intros [= <-]. apply Map_get_Some in Hg.
  by apply (proj1 (Forall_forall _ _) Hall (id, a')).
Qed.

End LiveBranches.

Module EngineRuns.
Import Demo Cases.
#[local] Existing Instance steady_host.

Local Abbreviation finished := (store (@finished_world steady_host 0)).
Local Abbreviation scenario := (@scenario_world steady_host 0).
Local Abbreviation midway := (store (@midway_world steady_host 0)).
Local Abbreviation registered := (@registered_world steady_host 0 "{}").
Local Abbreviation twins := (@twins_world steady_host 0).

Lemma steps_touch_active_agents_only_witness :
  (2 ∉ active_refs (sim (latecomer_world 0))) /\
  agts (store (stepN 3 (latecomer_world 0))) !! 2 =
    agts (store (latecomer_world 0)) !! 2.
Proof.
  assert (2 ∉ active_refs (sim (@latecomer_world steady_host 0))) as Hn.
  { apply (bool_decide_unpack _). vm_compute. exact I. }
  split; [exact Hn|].
  exact (@steps_touch_active_agents_only steady_host
           (@latecomer_world steady_host 0) 3 2 Hn).
Defined.

Lemma MogiProcess_execute_ignores_cursor_witness :
  cursor_of finished 0 = Some 2 /\
  exists st',
    MogiProcess_execute 0 [0; 1] finished = (Ok tt, st') /\
    procs st' = procs finished /\
    evals st' = evals finished /\
    agents_extend finished st' /\
    only_touches [0; 1] finished st'.
Proof.
  split; [vm_compute; reflexivity|].
  apply (@MogiProcess_execute_ignores_cursor steady_host 0 (process_in finished 0)).
  vm_compute. reflexivity.
Defined.

Lemma MogiProcess_execute_histories_witness :
  exists x' new,
    agts (snd (MogiProcess_execute 0 [0; 1] (store scenario))) !! 1 = Some x' /\
    agent_id x' = agent_id (agent_in (store scenario) 1) /\
    history x' = history (agent_in (store scenario) 1) ++ new /\
    nodeId <$> new = node_ids (nodes (process_in (store scenario) 0)).
Proof.
  apply (@MogiProcess_execute_histories steady_host SteadyRuns.steady_reliable).
  - vm_compute. reflexivity.
  - apply (bool_decide_unpack _). vm_compute. exact I.
  - apply (bool_decide_unpack _). vm_compute. exact I.
  - vm_compute. reflexivity.
Defined.

Lemma runProcess_linear_terminates_witness :
  fst (runProcess 0 0 registered) = Ok false /\
  exists w1 w',
    initializeProcess 0 registered = (Ok tt, w1) /\
    runProcess 5 0 registered = (Ok true, w') /\
    nodeIndex (currentState (sim w')) =
      length (nodes (process_in (store registered) 0)) /\
    isComplete (currentState (sim w')) = true.
Proof.
  destruct (@runProcess_linear_terminates steady_host registered 0
              (process_in (store registered) 0))
    as (w1 & Hi & Hlt & Hge & Hn & Hc & _).
  - vm_compute. lia.
  - vm_compute. reflexivity.
  - vm_compute. reflexivity.
  - vm_compute. lia.
  - vm_compute. apply Forall_nil_2.
  - split.
    + apply Hlt. vm_compute. lia.
    + exists w1. eexists. split; [exact Hi|].
      split; [apply Hge; vm_compute; lia|]. split; [exact Hn|exact Hc].
Defined.

Lemma runProcess_linear_histories_witness :
  exists w' x' new,
    runProcess 5 0 registered = (Ok true, w') /\
    agts (store w') !! 1 = Some x' /\
    history x' = history (agent_in (store registered) 1) ++ new /\
    nodeId <$> new = node_ids (nodes (process_in (store registered) 0)).
Proof.
  destruct (@runProcess_linear_histories steady_host SteadyRuns.steady_reliable
              registered 0 (process_in (store registered) 0) 5) as (w' & He & Ha).
  - vm_compute. lia.
  - split; apply (bool_decide_unpack _); vm_compute; exact I.
  - vm_compute. reflexivity.
  - vm_compute. reflexivity.
  - vm_compute. lia.
  - vm_compute. apply Forall_nil_2.
  - vm_compute. lia.
  - destruct (Ha 1 (agent_in (store registered) 1)) as (x' & new & Hx & _ & Hh & Hn).
    + apply (bool_decide_unpack _). vm_compute. exact I.
    + vm_compute. reflexivity.
    + exists w', x', new. split; [exact He|]. split; [exact Hx|].
      split; [exact Hh|exact Hn].
Defined.

Lemma stale_process_shadows_same_id_witness :
  length (nodes (process_in (store twins) 1)) = 2 /\
  exists w1,
    initializeProcess 1 twins = (Ok tt, w1) /\
    executeStep w1 =
      (Ok (1 <? length (nodes (process_in (store twins) 0))),
       {| sim := set_currentState
                   (advanced (length (nodes (process_in (store twins) 0)))
                      (currentState (sim w1))) (sim w1);
          store := linearRound (demo_node "n0" "{}") (active_refs (sim w1))
                     (store twins) |}).
Proof.
  split; [vm_compute; reflexivity|].
  apply (@stale_process_shadows_same_id steady_host twins 0
           (process_in (store twins) 0) (demo_node "n0" "{}") 1
           (process_in (store twins) 1) [0; 0] [] []).
  - vm_compute. reflexivity.
  - apply Forall_nil_2.
  - vm_compute. reflexivity.
  - vm_compute. reflexivity.
  - vm_compute. reflexivity.
  - vm_compute. reflexivity.
  - vm_compute. reflexivity.
  - vm_compute. reflexivity.
Defined.

Lemma resetExecution_rewinds_tree_witness :
  cursor_of finished 0 = Some 2 /\
  exists st',
    resetExecution 2 finished = (Ok tt, st') /\
    rewound st' 2 /\ rewound st' 0 /\ rewound st' 1.
Proof.
  split; [vm_compute; reflexivity|].
  destruct (@resetExecution_rewinds_tree steady_host (fun r => r) finished 2)
    as (st' & He & _ & _ & _ & _ & Hr & _).
  - apply (bool_decide_unpack _). vm_compute. exact I.
  - vm_compute. lia.
  - intros r. apply descends_live.
    + apply (bool_decide_unpack _). vm_compute. exact I.
    + vm_compute. by eexists.
  - exists st'. split; [exact He|]. split_and!; apply Hr.
    + apply descends_here.
    + apply (descends_true _ 2 (process_in finished 2) (conditional_in finished 2));
        [vm_compute; reflexivity|vm_compute; reflexivity|].
      assert (trueBranch (conditional_in finished 2) = 0) as ->
        by (vm_compute; reflexivity).
      apply descends_here.
    + apply (descends_false _ 2 (process_in finished 2) (conditional_in finished 2));
        [vm_compute; reflexivity|vm_compute; reflexivity|].
      assert (falseBranch (conditional_in finished 2) = 1) as ->
        by (vm_compute; reflexivity).
      apply descends_here.
Defined.

Lemma initializeProcess_tracks_services_witness :
  aiServices (sim scenario) = [] /\
  forall s, s ∈ aiServices (sim (run_on (initializeProcess 2) scenario)) <->
    s ∈ aiServices (sim scenario) \/
    exists r p n, descends (store scenario) 2 r /\
                  procs (store scenario) !! r = Some p /\
                  n ∈ nodes p /\ aiService (node_config n) = s.
Proof.
  split; [vm_compute; reflexivity|].
  apply (@initializeProcess_tracks_services steady_host 2 scenario
           (run_on (initializeProcess 2) scenario)).
  vm_compute. reflexivity.
Defined.

Lemma updateBranches_leaves_bound_agents_witness :
  bound midway 2 "A" = Some 0 /\
  exists st1 st2,
    updateBranches 2 (Some 1) None midway = (Ok tt, st1) /\
    bound st1 2 "A" = bound midway 2 "A" /\
    conditionalAgentStep 2 0 false st1 = (Ok true, st2) /\
    cursor_of st2 (branch (binding_in midway 2 "A")) =
      Some (S (currentNodeIndex (process_in midway 0))).
Proof.
  split; [vm_compute; reflexivity|].
  destruct (@updateBranches_leaves_bound_agents steady_host midway 2
              (process_in midway 2) (conditional_in midway 2) (Some 1) None 0
              (agent_in midway 0) (binding_in midway 2 "A") (process_in midway 0)
              (demo_node "t1" "{}") false)
    as (st1 & Hu & _ & Hb & _ & st2 & Hs & _ & Hc & _).
  - vm_compute. reflexivity.
  - vm_compute. reflexivity.
  - vm_compute. lia.
  - vm_compute. reflexivity.
  - vm_compute. reflexivity.
  - vm_compute. reflexivity.
  - vm_compute. lia.
  - vm_compute. reflexivity.
  - vm_compute. reflexivity.
  - exists st1, st2. split; [exact Hu|]. split; [apply Hb|].
    split; [exact Hs|exact Hc].
Defined.

Lemma executeAgentStep_until_exhausted_witness :
  length (nodes (process_in (store scenario) 0)) = 2 /\
  exists st',
    mapM (fun _ : unit => executeAgentStep 0 0) (replicate 5 tt) (store scenario) =
      (Ok (replicate
             (5 `min` (length (nodes (process_in (store scenario) 0)) -
                       currentNodeIndex (process_in (store scenario) 0))) true ++
           replicate
             (5 - (length (nodes (process_in (store scenario) 0)) -
                   currentNodeIndex (process_in (store scenario) 0))) false), st').
Proof.
  split; [vm_compute; reflexivity|].
  destruct (@executeAgentStep_until_exhausted steady_host 0
              (process_in (store scenario) 0) 0 (store scenario) 5)
    as (st' & He & _).
  - vm_compute. reflexivity.
  - exists st'. exact He.
Defined.

Lemma runProcess_conditional_terminates_witness :
  exists w',
    runProcess 10 2 scenario = (Ok true, w') /\
    completed_in 2 (store w') 0 /\ completed_in 2 (store w') 1.
Proof.
  destruct (@runProcess_conditional_terminates steady_host scenario 2
              (process_in (store scenario) 2) (conditional_in (store scenario) 2)
              (process_in (store scenario) 0) (process_in (store scenario) 1) 10)
    as (w' & He & _ & Hc).
  - vm_compute. lia.
  - apply registered_live, (bool_decide_unpack _). vm_compute. exact I.
  - vm_compute. reflexivity.
  - vm_compute. reflexivity.
  - intros id bs. vm_compute. discriminate.
  - vm_compute. reflexivity.
  - vm_compute. reflexivity.
  - vm_compute. reflexivity.
  - vm_compute. reflexivity.
  - vm_compute. apply Forall_nil_2.
  - vm_compute. lia.
  - exists w'. split; [exact He|]. split.
    + apply (Hc "A"). vm_compute. reflexivity.
    + apply (Hc "B"). vm_compute. reflexivity.
Defined.

Lemma executeStep_raises_engine_errors_only_witness :
  fst (executeStep (empty_process_world 0)) = Throw TypeError /\
  fst (executeStep (ghost_world 0)) =
    Throw (Error "Agent ghost not found in simulation").
Proof.
  assert (fst (executeStep (@empty_process_world steady_host 0)) = Throw TypeError)
    as He by (vm_compute; reflexivity).
  assert (fst (executeStep (@ghost_world steady_host 0)) =
            Throw (Error "Agent ghost not found in simulation"))
    as Hg by (vm_compute; reflexivity).
  destruct (@executeStep_raises_engine_errors_only steady_host
              (@empty_process_world steady_host 0) TypeError He)
    as [_|[_|_]]; (split; [exact He|exact Hg]).
Defined.

Lemma createMogiNode_records_generated_id_witness :
  exists st' x',
    MogiNode_execute (createMogiNode "mine" "uuid-1" 0 "{}" None None) 0
      (store scenario) = (Ok tt, st') /\
    agts st' !! 0 = Some x' /\
    nodeId <$> history x' =
      (nodeId <$> history (agent_in (store scenario) 0)) ++ [Some "uuid-1"].
Proof.
  destruct (@createMogiNode_records_generated_id steady_host
              "mine" "uuid-1" 0 "{}" None None 0 (store scenario)
              (agent_in (store scenario) 0)
              (value_of ∅ (fst (handler (createMogiNode "mine" "uuid-1" 0 "{}"
                                           None None) 0 (store scenario))))
              (snd (handler (createMogiNode "mine" "uuid-1" 0 "{}" None None) 0
                      (store scenario))))
    as (st' & x' & He & Hx & Hh & _).
  - vm_compute. reflexivity.
  - vm_compute. reflexivity.
  - exists st', x'. split; [exact He|]. split; [exact Hx|].
    rewrite Hh, fmap_app. reflexivity.
Defined.

End EngineRuns.

Module GeminiRuns.
Import Demo Cases Gemini.

Lemma second_construction_returns_first_witness :
  @new_GoogleAIService stub 1 "other" "gemini-pro" None (gemini_ai "gemini" "down") =
    (Ok 0, gemini_ai "gemini" "down").
Proof.
  eapply (@GeminiFacts.second_construction_returns_first stub 0 "key" "gemini"
            (Some "down") no_service).
  reflexivity.
Defined.

(** The cost of 11 output tokens at the default prices, in binary64 as
    the code computes it; in exact arithmetic it would be 0.0000066. *)
#[warnings="-inexact-float"]
Example calculateCost_default_prices s :
  instance (ext (gemini_ai "gemini" "lite")) = Some (0, s) ->
  calculateCost s 0 11 = 6.5999999999999995e-06%float.
Proof. intros H. vm_compute in H. injection H as <-. vm_compute. reflexivity. Qed.

Lemma prompt_catches_request_failures_witness :
  fst (@prompt stub stub_stringify 0 "sys" "content" "instr" VNull
         (gemini_ai "none" "down")) = Throw (Rejected "model") /\
  fst (@prompt stub stub_stringify 0 "sys" "content" "instr" VNull
         (gemini_ai "down" "down")) =
  Ok (RString "error: AI processing failed").
Proof.
  split.
  - epose proof (@GeminiFacts.prompt_catches_request_failures stub stub_stringify
                   0 "sys" "content" "instr" VNull (gemini_ai "none" "down") 0 _)
      as H.
    edestruct H as [Ht _]; [reflexivity|].
    erewrite Ht by reflexivity. reflexivity.
  - epose proof (@GeminiFacts.prompt_catches_request_failures stub stub_stringify
                   0 "sys" "content" "instr" VNull (gemini_ai "down" "down") 0 _)
      as H.
    edestruct H as [_ Hc]; [reflexivity|].
    edestruct Hc as (reply & w' & He & _ & _ & Hcase); [reflexivity|].
    rewrite He. cbn in Hcase. destruct Hcase as (-> & _). reflexivity.
Defined.

Lemma gemini_failure_is_recorded_in_agent_witness :
  (exists st',
     @MogiNode_execute gemini (gemini_node false) 0 (gemini_store "none" "down") =
       (Ok tt, st') /\
     agts st' = agts (gemini_store "none" "down")) /\
  exists st' x',
    @MogiNode_execute gemini (gemini_node false) 0 (gemini_store "down" "down") =
      (Ok tt, st') /\
    agts st' !! 0 = Some x' /\
    attributes x' !! "error" = Some (VStr "AI processing failed").
Proof.
  split.
  - epose proof (@GeminiFacts.gemini_failure_is_recorded_in_agent stub
                   stub_stringify stub_parse 64 (gemini_node false) 0
                   (gemini_store "none" "down") _ 0 _) as H.
    edestruct H as (Ht & _).
    + reflexivity.
    + reflexivity.
    + reflexivity.
    + edestruct Ht as (st' & He & Ha & _); [reflexivity|].
      exists st'. split; [exact He|exact Ha].
  - epose proof (@GeminiFacts.gemini_failure_is_recorded_in_agent stub
                   stub_stringify stub_parse 64 (gemini_node false) 0
                   (gemini_store "down" "down") _ 0 _) as H.
    edestruct H as (_ & Hm).
    + reflexivity.
    + reflexivity.
    + reflexivity.
    + edestruct Hm as (_ & Hf); [reflexivity|].
      edestruct Hf as (st' & He & Ha & _).
      * reflexivity.
      * reflexivity.
      * pose proof (f_equal (fun m => m !! 0) Ha) as Ha0. cbv beta in Ha0.
        rewrite lookup_insert_eq in Ha0.
        exists st'. eexists. split; [exact He|]. split; [exact Ha0|].
        vm_compute. reflexivity.
Defined.

Lemma gemini_reasoning_failure_discards_answer_witness :
  exists st',
    @MogiNode_execute gemini (gemini_node true) 0 (gemini_store "gemini" "down") =
      (Ok tt, st') /\
    agts st' = agts (gemini_store "gemini" "down") /\
    totalCalls (usage (ai st') 0) = 1%Z.
Proof.
  epose proof (@GeminiFacts.gemini_reasoning_failure_discards_answer stub
                 stub_stringify stub_parse 64 (gemini_node true) 0
                 (gemini_store "gemini" "down") _ 0 _ _ _ _ _ _) as H.
  edestruct H as (st' & He & Ha & _ & Hu).
  - reflexivity.
  - reflexivity.
  - reflexivity.
  - reflexivity.
  - reflexivity.
  - reflexivity.
  - exists st'. split; [exact He|]. split; [exact Ha|].
    etrans; [exact (f_equal totalCalls Hu)|]. reflexivity.
Defined.

Lemma gemini_chain_of_thought_records_reasoning_witness :
  exists st' x',
    @MogiNode_execute gemini (gemini_node true) 0 (gemini_store "gemini" "lite") =
      (Ok tt, st') /\
    agts st' !! 0 = Some x' /\
    attributes x' !! "_reasoning" = Some (VStr "because") /\
    totalCalls (usage (ai st') 0) = 2%Z.
Proof.
  epose proof (@GeminiFacts.gemini_chain_of_thought_records_reasoning stub
                 stub_stringify stub_parse 64 (gemini_node true) 0
                 (gemini_store "gemini" "lite") _ 0 _ _ _ _ _ _ _ _) as H.
  edestruct H as (st' & x' & He & Ha & Hx & _ & Hu).
  - reflexivity.
  - reflexivity.
  - reflexivity.
  - reflexivity.
  - reflexivity.
  - reflexivity.
  - reflexivity.
  - reflexivity.
  - pose proof (f_equal (fun m => m !! 0) Ha) as Ha0. cbv beta in Ha0.
    rewrite lookup_insert_eq in Ha0.
    exists st', x'. split; [exact He|]. split; [exact Ha0|]. rewrite Hx.
    split; [|etrans; [exact Hu|reflexivity]].
    apply lookup_union_Some_l, lookup_insert_eq.
Defined.

Lemma setGenerationConfig_reaches_reasoning_only_witness :
  exists w1,
    @setGenerationConfig stub {[ "temperature" := 1%Q ]} (gemini_ai "gemini" "lite") =
      (Ok tt, w1) /\
    fst (@prompt stub stub_stringify 0 "sys" "content" "instr" VNull w1) =
      fst (@prompt stub stub_stringify 0 "sys" "content" "instr" VNull
             (gemini_ai "gemini" "lite")).
Proof.
  epose proof (@GeminiFacts.setGenerationConfig_reaches_reasoning_only stub
                 stub_stringify {[ "temperature" := 1%Q ]} 0 "sys" "content" "instr"
                 VNull (gemini_ai "gemini" "lite") 0 _) as H.
  edestruct H as (w1 & s1 & Es & _ & Ep & _).
  - reflexivity.
  - exists w1. split; [exact Es|exact Ep].
Defined.

End GeminiRuns.
